(** * MirrorAccent: the prosody analysis and comparison engine

    A shallow embedding of [src/js/prosody.js] (class [ProsodyAnalyzer]) and
    the properties its specification states about it.
    A last part states further properties of this code and of the code
    around it: the feedback generator, the WAV encoder of the recorder
    (class [AudioRecorder]), and the session statistics and the duration
    format of [src/js/practice.js].

    Numbers.  The source computes on JavaScript numbers (IEEE 754 doubles)
    and keeps frames and work arrays in [Float32Array]s.  The embedding
    keeps the special values the code relies on ([NaN], the two infinities,
    the result of a division by zero, [undefined] read as [NaN] in
    arithmetic) and computes exactly on finite values: a finite number is a
    rational in canonical form, no operation rounds or overflows, a typed
    array stores what is written to it, and there is one zero (positive).
    The functions of [Math] that are not rational ([cos], [sin], [atan2],
    [log], [log10], [sqrt], [PI]) are a parameter, [MathLib].
    The statements below are kept to what rounding does not change:
    comparisons and bounds that a monotone rounding preserves, equalities
    between values that are computed the same way, integers; where a
    statement needs numbers of moderate size so that nothing overflows, it
    says so.

    Control.  A loop that pushes one element per iteration is the [map] of
    its body over the indices it visits, a loop that accumulates is a
    [fold_left], in-place writes are [list_set].  The two [while] loops of
    the pitch tracker run on fuel that is shown to be enough; the frame loop of the
    extractors does not end when the hop is zero samples, and then the
    extractors do not return.  A call [f(...values)] throws a [RangeError]
    when [values] is longer than the engine lets a call spread; this is
    modelled where the array grows with the recording, in
    [extractIntensity] and in the pitch range of [analyzeAudio], with the
    limit as a parameter, [max_spread].  The comparator's [normalize] is a
    total function: its arrays have been resampled to at most 100 values,
    or are the intensity values of a bundle, which [extractIntensity] has
    spread before when the bundle comes from [analyzeAudio].
    [analyzeAudio] is asynchronous: a call ends rejected, resolved, or
    never. *)

From Stdlib Require Import ZArith QArith Qcanon Qround Qabs Qcabs.
From Stdlib Require Import List Lia Lqa Bool Arith PeanoNat.
From Stdlib Require Import Sorting.Sorted Sorting.Permutation.
From Stdlib Require Strings.Byte.
From Stdlib Require Strings.String Strings.Ascii.
Import ListNotations.


(** ** Rationals in canonical form *)

Module QcAux.

Local Open Scope Qc_scope.

Definition Qcltb (x y : Qc) : bool :=
  match x ?= y with Lt => true | _ => false end.

Definition Qcleb (x y : Qc) : bool :=
  match x ?= y with Gt => false | _ => true end.

Definition Qceqb (x y : Qc) : bool :=
  match x ?= y with Eq => true | _ => false end.

Definition Qc_of_nat (n : nat) : Qc := Q2Qc (inject_Z (Z.of_nat n)).

Definition Qc_floor (x : Qc) : Z := Qfloor x.

End QcAux.
Import QcAux.


(** ** JavaScript numbers *)

Inductive num : Type :=
| NaN
| NegInf
| PosInf
| Fin (q : Qc).

Declare Scope num_scope.
Delimit Scope num_scope with num.
Bind Scope num_scope with num.

Module Num.

Local Open Scope Qc_scope.

Definition of_Q (q : Q) : num := Fin (Q2Qc q).
Definition of_Z (z : Z) : num := Fin (Q2Qc (inject_Z z)).
Definition of_nat (n : nat) : num := Fin (Qc_of_nat n).

Definition zero : num := of_Z 0.
Definition one : num := of_Z 1.

Definition is_nan (a : num) : bool :=
  match a with NaN => true | _ => false end.

Definition finite (a : num) : Prop :=
  match a with Fin _ => True | _ => False end.

Definition finiteb (a : num) : bool :=
  match a with Fin _ => true | _ => false end.

(** [-a] *)
Definition neg (a : num) : num :=
  match a with
  | NaN => NaN
  | NegInf => PosInf
  | PosInf => NegInf
  | Fin x => Fin (- x)
  end.

(** [a + b] *)
Definition add (a b : num) : num :=
  match a, b with
  | NaN, _ | _, NaN => NaN
  | PosInf, NegInf | NegInf, PosInf => NaN
  | PosInf, _ | _, PosInf => PosInf
  | NegInf, _ | _, NegInf => NegInf
  | Fin x, Fin y => Fin (x + y)
  end.

(** [a - b] *)
Definition sub (a b : num) : num := add a (neg b).

(** The sign of a finite number decides what an infinity times it is. *)
Definition scale_inf (positive_inf : bool) (x : Qc) : num :=
  match x ?= 0 with
  | Eq => NaN
  | Gt => if positive_inf then PosInf else NegInf
  | Lt => if positive_inf then NegInf else PosInf
  end.

(** [a * b] *)
Definition mul (a b : num) : num :=
  match a, b with
  | NaN, _ | _, NaN => NaN
  | Fin x, Fin y => Fin (x * y)
  | Fin x, PosInf | PosInf, Fin x => scale_inf true x
  | Fin x, NegInf | NegInf, Fin x => scale_inf false x
  | PosInf, PosInf | NegInf, NegInf => PosInf
  | PosInf, NegInf | NegInf, PosInf => NegInf
  end.

(** [a / b]; the only zero is the positive one, so [x / 0] has the sign
    of [x], and [0 / 0] is [NaN]. *)
Definition div (a b : num) : num :=
  match a, b with
  | NaN, _ | _, NaN => NaN
  | Fin x, Fin y =>
      if Qceqb y 0 then
        match x ?= 0 with Eq => NaN | Gt => PosInf | Lt => NegInf end
      else Fin (x / y)
  | Fin _, (PosInf | NegInf) => Fin 0
  | PosInf, Fin y => if Qcltb y 0 then NegInf else PosInf
  | NegInf, Fin y => if Qcltb y 0 then PosInf else NegInf
  | (PosInf | NegInf), (PosInf | NegInf) => NaN
  end.

(** [a < b]: false as soon as one side is [NaN]. *)
Definition ltb (a b : num) : bool :=
  match a, b with
  | NaN, _ | _, NaN => false
  | Fin x, Fin y => Qcltb x y
  | NegInf, NegInf => false
  | NegInf, _ => true
  | _, NegInf => false
  | PosInf, _ => false
  | Fin _, PosInf => true
  end.

(** [a > b], [a >= b], [a <= b] *)
Definition gtb (a b : num) : bool := ltb b a.

Definition leb (a b : num) : bool :=
  match a, b with
  | NaN, _ | _, NaN => false
  | Fin x, Fin y => Qcleb x y
  | NegInf, _ => true
  | _, PosInf => true
  | _, _ => false
  end.

Definition geb (a b : num) : bool := leb b a.

(** [Math.abs] *)
Definition abs (a : num) : num :=
  match a with
  | NaN => NaN
  | NegInf | PosInf => PosInf
  | Fin x => Fin (Qcabs x)
  end.

(** [Math.min(a, b)] and [Math.max(a, b)]: [NaN] if an argument is. *)
Definition min (a b : num) : num :=
  match a, b with
  | NaN, _ | _, NaN => NaN
  | _, _ => if ltb b a then b else a
  end.

Definition max (a b : num) : num :=
  match a, b with
  | NaN, _ | _, NaN => NaN
  | _, _ => if ltb a b then b else a
  end.

(** [Math.min(a, b, c)] *)
Definition min3 (a b c : num) : num := min (min a b) c.

(** [Math.min(...arr)] and [Math.max(...arr)]; of no argument they are
    [Infinity] and [-Infinity]. *)
Definition min_list (arr : list num) : num := fold_left min arr PosInf.
Definition max_list (arr : list num) : num := fold_left max arr NegInf.

(** Truthiness of a number: [NaN] and zero are falsy. *)
Definition truthy (a : num) : bool :=
  match a with
  | NaN => false
  | Fin x => negb (Qceqb x 0)
  | _ => true
  end.

(** [a || b] on numbers. *)
Definition or_else (a b : num) : num := if truthy a then a else b.

(** [arr[i]] read in an arithmetic context: an index outside the array
    gives [undefined], which arithmetic and comparisons treat as [NaN]. *)
Definition at_ (arr : list num) (i : Z) : num :=
  if (i <? 0)%Z then NaN else nth (Z.to_nat i) arr NaN.

Definition get (arr : list num) (i : nat) : num := nth i arr NaN.

(** Decidable equality of numbers. *)
Definition eqb (a b : num) : bool :=
  match a, b with
  | NaN, NaN | NegInf, NegInf | PosInf, PosInf => true
  | Fin x, Fin y => Qceqb x y
  | _, _ => false
  end.

End Num.

Notation "a + b" := (Num.add a b) : num_scope.
Notation "a - b" := (Num.sub a b) : num_scope.
Notation "a * b" := (Num.mul a b) : num_scope.
Notation "a / b" := (Num.div a b) : num_scope.
Notation "- a" := (Num.neg a) : num_scope.
Notation "a <? b" := (Num.ltb a b) : num_scope.
Notation "a >? b" := (Num.gtb a b) : num_scope.
Notation "a <=? b" := (Num.leb a b) : num_scope.
Notation "a >=? b" := (Num.geb a b) : num_scope.


Local Open Scope num_scope.

(** ** Arrays *)

(** [arr[i] = v] on an index inside the array. *)
Fixpoint list_set {A : Type} (l : list A) (i : nat) (v : A) : list A :=
  match l, i with
  | [], _ => []
  | _ :: t, O => v :: t
  | h :: t, S i' => h :: list_set t i' v
  end.

(** [arr.slice(start, end)] for [0 <= start]. *)
Definition slice {A : Type} (arr : list A) (start stop : nat) : list A :=
  firstn (stop - start) (skipn start arr).

(** [this.mean] *)
Definition mean (arr : list num) : num :=
  if (length arr =? 0)%nat then Num.zero
  else fold_left Num.add arr Num.zero / Num.of_nat (length arr).

(** [this.calculateVariance] *)
Definition calculateVariance (arr : list num) : num :=
  let m := mean arr in
  fold_left (fun sum v => sum + (v - m) * (v - m)) arr Num.zero
  / Num.of_nat (length arr).

(** [this.movingAverage] *)
Definition movingAverage (arr : list num) (windowSize : nat) : list num :=
  map (fun i =>
         let start := (i - windowSize / 2)%nat in
         let stop := Nat.min (length arr) (i + (windowSize + 1) / 2) in
         mean (slice arr start stop))
      (seq 0 (length arr)).

(** ** The comparator's sequence operations *)

(** [this.resample]: linear interpolation of [arr] on [targetLen] points. *)
Definition resample (arr : list num) (targetLen : nat) : list num :=
  if (length arr =? targetLen)%nat then arr
  else
    let ratio := (Qc_of_nat (length arr) / Qc_of_nat targetLen)%Qc in
    map (fun i =>
           let srcIdx := (Qc_of_nat i * ratio)%Qc in
           let lower := Z.to_nat (Qc_floor srcIdx) in
           let upper := Nat.min (lower + 1) (length arr - 1) in
           let frac := (srcIdx - Qc_of_nat lower)%Qc in
           Num.get arr lower * Fin (1 - frac) + Num.get arr upper * Fin frac)
        (seq 0 targetLen).

(** [this.normalize]: min-max normalisation; a range of zero (or [NaN])
    counts as a range of one. *)
Definition normalize (arr : list num) : list num :=
  let min := Num.min_list arr in
  let max := Num.max_list arr in
  let range := Num.or_else (max - min) Num.one in
  map (fun v => (v - min) / range) arr.

(** The cost matrix of [dtwSimilarity]: [Array(n + 1)] rows of
    [Array(m + 1).fill(Infinity)]. *)
Definition matrix := list (list num).

Definition cell (dtw : matrix) (i j : nat) : num :=
  Num.get (nth i dtw []) j.

Definition set_cell (dtw : matrix) (i j : nat) (v : num) : matrix :=
  list_set dtw i (list_set (nth i dtw []) j v).

Definition dtw_init (n m : nat) : matrix :=
  set_cell (repeat (repeat PosInf (S m)) (S n)) 0 0 Num.zero.

(** The body of the inner loop: [dtw[i][j] = cost + Math.min(...)]. *)
Definition dtw_step (ns1 ns2 : list num) (i : nat) (dtw : matrix) (j : nat)
  : matrix :=
  let cost := Num.abs (Num.get ns1 (i - 1) - Num.get ns2 (j - 1)) in
  set_cell dtw i j
    (cost + Num.min3 (cell dtw (i - 1) j) (cell dtw i (j - 1))
                     (cell dtw (i - 1) (j - 1))).

(** [for (i = 1; i <= n; i++) for (j = 1; j <= m; j++) ...] *)
Definition dtw_fill (ns1 ns2 : list num) (n m : nat) : matrix :=
  fold_left
    (fun dtw i => fold_left (dtw_step ns1 ns2 i) (seq 1 m) dtw)
    (seq 1 n) (dtw_init n m).

(** [this.dtwSimilarity] *)
Definition dtwSimilarity (seq1 seq2 : list num) : num :=
  if (length seq1 =? 0)%nat || (length seq2 =? 0)%nat then Num.zero
  else
    let n := Nat.min (length seq1) 100 in
    let m := Nat.min (length seq2) 100 in
    let s1 := resample seq1 n in
    let s2 := resample seq2 m in
    let ns1 := normalize s1 in
    let ns2 := normalize s2 in
    let dtw := dtw_fill ns1 ns2 n m in
    let maxDist := Nat.max n m in
    let similarity :=
      Num.one - Num.min Num.one (cell dtw n m / Num.of_nat maxDist) in
    similarity.

(** ** Feature bundles and score sets *)

Record F0Contour : Type := mkF0Contour {
  f0_values : list num;
  f0_times : list num;
  f0_frameRate : num
}.

Record FormantSeries : Type := mkFormantSeries {
  fs_values : list num;
  fs_mean : num
}.

Record FormantContour : Type := mkFormantContour {
  f1 : FormantSeries;
  f2 : FormantSeries;
  f3 : FormantSeries;
  formant_times : list num
}.

Record IntensityContour : Type := mkIntensityContour {
  int_values : list num;
  int_times : list num;
  int_mean : num;
  int_range : num
}.

Record SpeakingRate : Type := mkSpeakingRate {
  syllablesPerSecond : num;
  estimatedSyllables : nat;
  rate_duration : num
}.

Record PitchRange : Type := mkPitchRange {
  pr_min : num;
  pr_max : num;
  pr_mean : num;
  pr_variance : num
}.

(** The object [features] that [analyzeAudio] returns; [pitchRange] is
    [null] or an object. *)
Record Features : Type := mkFeatures {
  f0 : F0Contour;
  formants : FormantContour;
  intensity : IntensityContour;
  duration : num;
  speakingRate : SpeakingRate;
  pitchRange : option PitchRange
}.

(** The object [scores] that [compareProsody] returns. *)
Record Scores : Type := mkScores {
  score_f0 : num;
  score_formants : num;
  score_intensity : num;
  score_speakingRate : num;
  score_pitchRange : num;
  score_duration : num;
  score_overall : num
}.

(** [values.filter(v => v > 0)] *)
Definition voiced (values : list num) : list num :=
  filter (fun v => v >? Num.zero) values.

(** ** The comparator *)

(** [this.compareProsody] *)
Definition compareProsody (targetFeatures userFeatures : Features) : Scores :=
  let s_f0 :=
    dtwSimilarity (voiced (f0_values (f0 targetFeatures)))
                  (voiced (f0_values (f0 userFeatures))) in
  let f1Similarity :=
    Num.one - Num.min Num.one
      (Num.abs (fs_mean (f1 (formants targetFeatures))
                - fs_mean (f1 (formants userFeatures))) / Num.of_Z 500) in
  let f2Similarity :=
    Num.one - Num.min Num.one
      (Num.abs (fs_mean (f2 (formants targetFeatures))
                - fs_mean (f2 (formants userFeatures))) / Num.of_Z 800) in
  let s_formants := (f1Similarity + f2Similarity) / Num.of_Z 2 in
  let s_intensity :=
    dtwSimilarity (normalize (int_values (intensity targetFeatures)))
                  (normalize (int_values (intensity userFeatures))) in
  let rateDiff :=
    Num.abs (syllablesPerSecond (speakingRate targetFeatures)
             - syllablesPerSecond (speakingRate userFeatures)) in
  let s_speakingRate := Num.max Num.zero (Num.one - rateDiff / Num.of_Z 3) in
  let s_pitchRange :=
    match pitchRange targetFeatures, pitchRange userFeatures with
    | Some tr, Some ur =>
        let rangeDiff :=
          Num.abs ((pr_max tr - pr_min tr) - (pr_max ur - pr_min ur)) in
        Num.max Num.zero (Num.one - rangeDiff / Num.of_Z 100)
    | _, _ => Num.of_Q (5 # 10)
    end in
  let durationRatio :=
    Num.min (duration targetFeatures / duration userFeatures)
            (duration userFeatures / duration targetFeatures) in
  let s_duration := durationRatio in
  let s_overall :=
    s_f0 * Num.of_Q (25 # 100)
    + s_formants * Num.of_Q (20 # 100)
    + s_intensity * Num.of_Q (15 # 100)
    + s_speakingRate * Num.of_Q (15 # 100)
    + s_pitchRange * Num.of_Q (15 # 100)
    + s_duration * Num.of_Q (10 # 100) in
  mkScores s_f0 s_formants s_intensity s_speakingRate s_pitchRange
           s_duration s_overall.

(** ** The frame grid *)

(** [Math.floor] of a non-negative quantity used as a length or an index. *)
Definition floor_nat (x : Qc) : nat := Z.to_nat (Qc_floor x).

(** [Math.floor(sampleRate * 0.025)] and [Math.floor(sampleRate * 0.010)]:
    25 ms frames, 10 ms hop.  Sample rates are not negative. *)
Definition frameSize_of (sampleRate : Qc) : nat :=
  floor_nat (sampleRate * Q2Qc (25 # 1000))%Qc.

Definition hopSize_of (sampleRate : Qc) : nat :=
  floor_nat (sampleRate * Q2Qc (10 # 1000))%Qc.

(** The header every extractor loops with,
    [for (let i = 0; i + frameSize < samples.length; i += hopSize)]:
    the frame starts it visits, in order.  [None] is a loop that does not
    end, which is what happens with a hop of zero samples. *)
Fixpoint frame_loop (fuel i frameSize hopSize len : nat)
  : option (list nat) :=
  if (i + frameSize <? len)%nat then
    match fuel with
    | O => None
    | S fuel' =>
        match frame_loop fuel' (i + hopSize) frameSize hopSize len with
        | None => None
        | Some rest => Some (i :: rest)
        end
    end
  else Some [].

(** With a hop of at least one sample the loop runs at most
    [samples.length] times. *)
Definition frame_starts (samples : list num) (sampleRate : Qc)
  : option (list nat) :=
  frame_loop (S (length samples)) 0 (frameSize_of sampleRate)
             (hopSize_of sampleRate) (length samples).

(** [samples.slice(i, i + frameSize)] *)
Definition frame_at (samples : list num) (sampleRate : Qc) (i : nat)
  : list num :=
  slice samples i (i + frameSize_of sampleRate).

(** [times.push(i / sampleRate)] *)
Definition time_of (sampleRate : Qc) (i : nat) : num :=
  Num.of_nat i / Fin sampleRate.

(** ** Pitch tracker *)

(** The difference function: [diff[tau]] for [1 <= tau < maxLag], and
    [diff[0]] as the typed array was created. *)
Definition yin_diff (frame : list num) (maxLag : nat) : list num :=
  let n := length frame in
  map (fun tau =>
         if (tau =? 0)%nat then Num.zero
         else
           fold_left
             (fun sum i =>
                let delta := Num.get frame i - Num.get frame (i + tau) in
                sum + delta * delta)
             (seq 0 (n - tau)) Num.zero)
      (seq 0 maxLag).

(** The cumulative mean normalised difference function. *)
Definition yin_cmndf (diff : list num) (maxLag : nat) : list num :=
  snd
    (fold_left
       (fun (st : num * list num) tau =>
          let runningSum := fst st + Num.get diff tau in
          (runningSum,
           list_set (snd st) tau
             (Num.get diff tau / (runningSum / Num.of_nat tau))))
       (seq 1 (maxLag - 1))
       (Num.zero, list_set (repeat Num.zero maxLag) 0 Num.one)).

(** [while (tau + 1 < maxLag && cmndf[tau + 1] < cmndf[tau]) tau++] *)
Fixpoint yin_descend (fuel : nat) (cmndf : list num) (maxLag tau : nat)
  : nat :=
  match fuel with
  | O => tau
  | S fuel' =>
      if (tau + 1 <? maxLag)%nat
         && (Num.get cmndf (tau + 1) <? Num.get cmndf tau)
      then yin_descend fuel' cmndf maxLag (tau + 1)
      else tau
  end.

(** [while (tau < maxLag - 1) { if (cmndf[tau] < threshold) { ...; break }
    tau++ }]; [tau < maxLag - 1] is written [tau + 1 < maxLag]. *)
Fixpoint yin_scan (fuel : nat) (cmndf : list num) (threshold : num)
  (maxLag tau : nat) : nat :=
  match fuel with
  | O => tau
  | S fuel' =>
      if (tau + 1 <? maxLag)%nat then
        if Num.get cmndf tau <? threshold
        then yin_descend maxLag cmndf maxLag tau
        else yin_scan fuel' cmndf threshold maxLag (tau + 1)
      else tau
  end.

(** [this.yinPitchDetection] *)
Definition yinPitchDetection (frame : list num) (sampleRate : Qc)
  (minLag maxLag : nat) : num :=
  let threshold := Num.of_Q (1 # 10) in
  let diff := yin_diff frame maxLag in
  let cmndf := yin_cmndf diff maxLag in
  let tau := yin_scan maxLag cmndf threshold maxLag minLag in
  if (maxLag <=? tau + 1)%nat || (Num.get cmndf tau >=? threshold)
  then Num.zero
  else
    let s0 := Num.at_ cmndf (Z.of_nat tau - 1) in
    let s1 := Num.get cmndf tau in
    let s2 := Num.get cmndf (tau + 1) in
    let betterTau :=
      Num.of_nat tau
      + (s2 - s0) / (Num.of_Z 2 * (Num.of_Z 2 * s1 - s2 - s0)) in
    Fin sampleRate / betterTau.

(** [this.extractF0Contour] *)
Definition extractF0Contour (samples : list num) (sampleRate : Qc)
  : option F0Contour :=
  let minF0 := Q2Qc (inject_Z 50) in
  let maxF0 := Q2Qc (inject_Z 400) in
  let minLag := floor_nat (sampleRate / maxF0)%Qc in
  let maxLag := floor_nat (sampleRate / minF0)%Qc in
  match frame_starts samples sampleRate with
  | None => None
  | Some starts =>
      Some (mkF0Contour
              (map (fun i =>
                      yinPitchDetection (frame_at samples sampleRate i)
                                        sampleRate minLag maxLag)
                   starts)
              (map (time_of sampleRate) starts)
              (Num.of_Z 1000 / Num.of_Z 10))
  end.

(** ** The functions of [Math] the engine calls *)

Record MathLib : Type := mkMathLib {
  Math_cos : num -> num;
  Math_sin : num -> num;
  Math_atan2 : num -> num -> num;
  Math_log : num -> num;
  Math_log10 : num -> num;
  Math_sqrt : num -> num;
  Math_PI : num
}.

(** Complex numbers are objects [{ real, imag }]. *)
Record complex : Type := mkComplex {
  real : num;
  imag : num
}.

(** [this.complexMul] *)
Definition complexMul (a b : complex) : complex :=
  mkComplex (real a * real b - imag a * imag b)
            (real a * imag b + imag a * real b).

(** [this.complexDiv] *)
Definition complexDiv (a b : complex) : complex :=
  let denom := real b * real b + imag b * imag b in
  mkComplex ((real a * real b + imag a * imag b) / denom)
            ((imag a * real b - real a * imag b) / denom).

(** [this.evaluatePolynomial] *)
Definition evaluatePolynomial (coeffs : list num) (z : complex) : complex :=
  fst
    (fold_left
       (fun (st : complex * complex) i =>
          let result := fst st in
          let zPower := snd st in
          (mkComplex (real result + Num.get coeffs i * real zPower)
                     (imag result + Num.get coeffs i * imag zPower),
           complexMul zPower z))
       (seq 0 (length coeffs))
       (mkComplex Num.zero Num.zero, mkComplex Num.one Num.zero)).

(** A formant candidate [{ freq, bandwidth }]. *)
Record Candidate : Type := mkCandidate {
  freq : num;
  bandwidth : num
}.

(** [arr.sort(cmp)] with a comparator that returns a number.  The
    language requires the sort to be stable; with a consistent comparator
    every stable sort returns the same array, here by insertion: an element
    goes before the first one that the comparator puts after it. *)
Fixpoint sort_insert {A : Type} (cmp : A -> A -> num) (x : A) (l : list A)
  : list A :=
  match l with
  | [] => [x]
  | y :: t =>
      if cmp y x >? Num.zero then x :: y :: t
      else y :: sort_insert cmp x t
  end.

Definition js_sort {A : Type} (cmp : A -> A -> num) (l : list A) : list A :=
  fold_left (fun acc x => sort_insert cmp x acc) l [].

(** [this.preEmphasis], with the default [coeff = 0.97] *)
Definition preEmphasis (samples : list num) : list num :=
  let coeff := Num.of_Q (97 # 100) in
  map (fun i =>
         if (i =? 0)%nat then Num.get samples 0
         else Num.get samples i - coeff * Num.get samples (i - 1))
      (seq 0 (length samples)).

(** [this.autocorrelation] *)
Definition autocorrelation (samples : list num) (order : nat) : list num :=
  map (fun i =>
         fold_left
           (fun sum j => sum + Num.get samples j * Num.get samples (j + i))
           (seq 0 (length samples - i)) Num.zero)
      (seq 0 order).

(** [this.levinson]: the Levinson-Durbin recursion; [a] and [e] are typed
    arrays of [order + 1] zeros, updated in place. *)
Definition levinson (r : list num) (order : nat) : list num :=
  let a0 := list_set (repeat Num.zero (order + 1)) 0 Num.one in
  let e0 := list_set (repeat Num.zero (order + 1)) 0 (Num.get r 0) in
  fst
    (fold_left
       (fun (st : list num * list num) i =>
          let a := fst st in
          let e := snd st in
          let lambda0 :=
            fold_left
              (fun lambda j => lambda + Num.get a j * Num.get r (i - j))
              (seq 0 i) Num.zero in
          let lambda := - lambda0 / Num.get e (i - 1) in
          let aPrev := a in
          let a' :=
            fold_left
              (fun a j =>
                 list_set a j
                   (Num.get aPrev j + lambda * Num.get aPrev (i - j)))
              (seq 1 i) a in
          (a', list_set e i ((Num.one - lambda * lambda) * Num.get e (i - 1))))
       (seq 1 order) (a0, e0)).

(** ** The analyzer and its platform *)

(** A JavaScript error, by its name. *)
Inductive JsError : Type :=
| EncodingError
| TypeError
| RangeError
| InvalidAudioError
| OtherError (code : nat).

(** What [decodeAudioData] resolves with: channel 0 and the duration. *)
Record AudioBuffer : Type := mkAudioBuffer {
  channelData0 : list num;
  buffer_duration : num
}.

(** The platform's audio context: its sample rate and its decoder, which
    rejects or resolves. *)
Record AudioContext : Type := mkAudioContext {
  ctx_sampleRate : Qc;
  decodeAudioData : list Byte.byte -> JsError + AudioBuffer
}.

(** The fields of a [ProsodyAnalyzer]; the constructor sets
    [audioContext = null] and [sampleRate = 44100]. *)
Record ProsodyAnalyzer : Type := mkProsodyAnalyzer {
  audioContext : option AudioContext;
  sampleRate : Qc
}.

Definition new_ProsodyAnalyzer : ProsodyAnalyzer :=
  mkProsodyAnalyzer None (Q2Qc (inject_Z 44100)).

(** How a call ends: with an error (thrown, or the rejection of the
    asynchronous [analyzeAudio]), never, or with a value. *)
Inductive outcome (A : Type) : Type :=
| Rejected (e : JsError)
| Diverged
| Resolved (v : A).

Arguments Rejected {A} e.
Arguments Diverged {A}.
Arguments Resolved {A} v.

Section WithMath.

Variable Math : MathLib.

(** [this.applyHammingWindow] *)
Definition applyHammingWindow (frame : list num) : list num :=
  let n := length frame in
  map (fun i =>
         Num.get frame i
         * (Num.of_Q (54 # 100)
            - Num.of_Q (46 # 100)
              * Math_cos Math
                  (Num.of_Z 2 * Math_PI Math * Num.of_nat i
                   / Num.of_Z (Z.of_nat n - 1))))
      (seq 0 n).

(** One Durand-Kerner update of [roots[i]], in place. *)
Definition root_update (coeffs : list num) (n : nat) (roots : list complex)
  (i : nat) : list complex :=
  let undefined := mkComplex NaN NaN in
  let ri := nth i roots undefined in
  let p := evaluatePolynomial coeffs ri in
  let denom :=
    fold_left
      (fun denom j =>
         if (i =? j)%nat then denom
         else
           let rj := nth j roots undefined in
           complexMul denom
             (mkComplex (real ri - real rj) (imag ri - imag rj)))
      (seq 0 n) (mkComplex Num.one Num.zero) in
  let correction := complexDiv p denom in
  list_set roots i
    (mkComplex (real ri - real correction) (imag ri - imag correction)).

(** [this.findPolynomialRoots]: [maxIter = 50] sweeps over the roots. *)
Definition findPolynomialRoots (coeffs : list num) : list complex :=
  let n := (length coeffs - 1)%nat in
  let roots0 :=
    map (fun i =>
           let angle :=
             (Num.of_Z 2 * Math_PI Math * Num.of_nat i) / Num.of_nat n in
           mkComplex (Num.of_Q (9 # 10) * Math_cos Math angle)
                     (Num.of_Q (9 # 10) * Math_sin Math angle))
        (seq 0 n) in
  let maxIter := 50%nat in
  fold_left
    (fun roots _ => fold_left (root_update coeffs n) (seq 0 n) roots)
    (seq 0 maxIter) roots0.

(** What the loop of [lpcToFormants] pushes for one root: nothing, or one
    candidate. *)
Definition root_candidates (sampleRate : Qc) (root : complex)
  : list Candidate :=
  if imag root >? Num.zero then
    let freq :=
      Math_atan2 Math (imag root) (real root) * Fin sampleRate
      / (Num.of_Z 2 * Math_PI Math) in
    let bandwidth :=
      - Math_log Math
          (Math_sqrt Math (real root * real root + imag root * imag root))
      * Fin sampleRate / Math_PI Math in
    if (freq >? Num.of_Z 200) && (freq <? Num.of_Z 5000)
       && (bandwidth <? Num.of_Z 500)
    then [mkCandidate freq bandwidth]
    else []
  else [].

(** The array [formants] of [lpcToFormants] before it is sorted. *)
Definition formant_candidates (lpcCoeffs : list num) (sampleRate : Qc)
  : list Candidate :=
  flat_map (root_candidates sampleRate) (findPolynomialRoots lpcCoeffs).

(** [this.lpcToFormants] *)
Definition lpcToFormants (lpcCoeffs : list num) (sampleRate : Qc)
  : list num :=
  let formants := formant_candidates lpcCoeffs sampleRate in
  let sorted := js_sort (fun a b => freq a - freq b) formants in
  map freq (slice sorted 0 3).

(** The formants of the frame that starts at sample [i]:
    window, pre-emphasis, LPC of order 12, roots. *)
Definition frame_formants (samples : list num) (sampleRate : Qc) (i : nat)
  : list num :=
  let lpcOrder := 12%nat in
  let frame := frame_at samples sampleRate i in
  let windowed := applyHammingWindow frame in
  let preEmph := preEmphasis windowed in
  let lpcCoeffs :=
    levinson (autocorrelation preEmph (lpcOrder + 1)) lpcOrder in
  lpcToFormants lpcCoeffs sampleRate.

(** [formants[k] || 0] *)
Definition formant_slot (formants : list num) (k : nat) : num :=
  Num.or_else (Num.get formants k) Num.zero.

(** [this.extractFormants] *)
Definition extractFormants (samples : list num) (sampleRate : Qc)
  : option FormantContour :=
  match frame_starts samples sampleRate with
  | None => None
  | Some starts =>
      let per_frame := map (frame_formants samples sampleRate) starts in
      let f1Values := map (fun fm => formant_slot fm 0) per_frame in
      let f2Values := map (fun fm => formant_slot fm 1) per_frame in
      let f3Values := map (fun fm => formant_slot fm 2) per_frame in
      Some (mkFormantContour
              (mkFormantSeries f1Values (mean (voiced f1Values)))
              (mkFormantSeries f2Values (mean (voiced f2Values)))
              (mkFormantSeries f3Values (mean (voiced f3Values)))
              (map (time_of sampleRate) starts))
  end.

(** ** Spread calls *)

(** [f(...args)] pushes every element of [args] on the stack as an argument
    of the call, and the engine throws a [RangeError] when there are more of
    them than a call takes.  That number, [max_spread], depends on the engine
    and its stack (some 10^5 in today's browsers). *)
Variable max_spread : nat.

Definition spread (f : list num -> num) (args : list num) : JsError + num :=
  if (max_spread <? length args)%nat then inl RangeError else inr (f args).

(** ** Envelope analyzer *)

(** The decibel value of one frame. *)
Definition frame_dB (frame : list num) : num :=
  let sum := fold_left (fun sum x => sum + x * x) frame Num.zero in
  let rms := Math_sqrt Math (sum / Num.of_nat (length frame)) in
  Num.of_Z 20 * Math_log10 Math (rms + Num.of_Q (1 # 10000000000)).

(** [this.extractIntensity]; the returned object is built field by field,
    [Math.max(...values)] before [Math.min(...values)]. *)
Definition extractIntensity (samples : list num) (sampleRate : Qc)
  : outcome IntensityContour :=
  match frame_starts samples sampleRate with
  | None => Diverged
  | Some starts =>
      let values :=
        map (fun i => frame_dB (frame_at samples sampleRate i)) starts in
      let times := map (time_of sampleRate) starts in
      let mean_values := mean values in
      match spread Num.max_list values with
      | inl e => Rejected e
      | inr max_value =>
          match spread Num.min_list values with
          | inl e => Rejected e
          | inr min_value =>
              Resolved (mkIntensityContour values times mean_values
                          (max_value - min_value))
          end
      end
  end.

(** The indices [i] that [estimateSpeakingRate] pushes on [peaks]. *)
Definition envelope_peaks (smoothed : list num) (threshold : num)
  : list nat :=
  filter
    (fun i =>
       (Num.get smoothed i >? Num.get smoothed (i - 1))
       && (Num.get smoothed i >? Num.get smoothed (i + 1))
       && (Num.get smoothed i >? threshold))
    (seq 1 (length smoothed - 2)).

(** [this.estimateSpeakingRate] *)
Definition estimateSpeakingRate (samples : list num) (sampleRate : Qc)
  : outcome SpeakingRate :=
  match extractIntensity samples sampleRate with
  | Rejected e => Rejected e
  | Diverged => Diverged
  | Resolved intensity =>
      let smoothed := movingAverage (int_values intensity) 5 in
      let peaks := envelope_peaks smoothed (int_mean intensity) in
      let duration := Num.of_nat (length samples) / Fin sampleRate in
      let syllablesPerSecond := Num.of_nat (length peaks) / duration in
      Resolved (mkSpeakingRate syllablesPerSecond (length peaks) duration)
  end.

(** ** Feature aggregator *)

(** [new AudioContext()], given by the platform. *)
Variable new_AudioContext : AudioContext.

(** [this.initialize] *)
Definition initialize (this : ProsodyAnalyzer) : ProsodyAnalyzer :=
  mkProsodyAnalyzer (Some new_AudioContext) (ctx_sampleRate new_AudioContext).

(** [const validF0 = ...; if (validF0.length > 0) features.pitchRange = ...]:
    the pitch range that the bundle gets, or the error of a spread. *)
Definition pitchRange_of (f0Values : list num) : JsError + option PitchRange :=
  let validF0 := voiced f0Values in
  if (0 <? length validF0)%nat then
    match spread Num.min_list validF0 with
    | inl e => inl e
    | inr min_f0 =>
        match spread Num.max_list validF0 with
        | inl e => inl e
        | inr max_f0 =>
            inr (Some (mkPitchRange
                         min_f0
                         max_f0
                         (fold_left Num.add validF0 Num.zero
                          / Num.of_nat (length validF0))
                         (calculateVariance validF0)))
        end
    end
  else inr None.

(** The synchronous part of [analyzeAudio], from [samples] on. *)
Definition analyzeSamples (samples : list num) (sampleRate : Qc)
  (duration : num) : outcome Features :=
  match extractF0Contour samples sampleRate with
  | None => Diverged
  | Some f0 =>
  match extractFormants samples sampleRate with
  | None => Diverged
  | Some formants =>
  match extractIntensity samples sampleRate with
  | Rejected e => Rejected e
  | Diverged => Diverged
  | Resolved intensity =>
  match estimateSpeakingRate samples sampleRate with
  | Rejected e => Rejected e
  | Diverged => Diverged
  | Resolved speakingRate =>
  match pitchRange_of (f0_values f0) with
  | inl e => Rejected e
  | inr pitchRange =>
      Resolved (mkFeatures f0 formants intensity duration speakingRate
                           pitchRange)
  end end end end end.

(** [this.analyzeAudio]: the analyzer after the call, and how the call
    ends.  [audioBlob] is the blob's bytes. *)
Definition analyzeAudio (this : ProsodyAnalyzer) (audioBlob : list Byte.byte)
  : ProsodyAnalyzer * outcome Features :=
  let this1 :=
    match audioContext this with
    | None => initialize this
    | Some _ => this
    end in
  match audioContext this1 with
  | None => (this1, Rejected TypeError)
  | Some ctx =>
      let arrayBuffer := audioBlob in
      match decodeAudioData ctx arrayBuffer with
      | inl e => (this1, Rejected e)
      | inr audioBuffer =>
          let samples := channelData0 audioBuffer in
          (this1,
           analyzeSamples samples (sampleRate this1)
                          (buffer_duration audioBuffer))
      end
  end.

End WithMath.

(** ** Definitions the proofs use *)

(** The accumulated cost [dtw[i][j]] by its recurrence. *)
Fixpoint dtw_cost (ns1 ns2 : list num) (i : nat) : nat -> num :=
  match i with
  | O => fun j => match j with O => Num.zero | S _ => PosInf end
  | S i' =>
      fix row (j : nat) : num :=
        match j with
        | O => PosInf
        | S j' =>
            Num.abs (Num.get ns1 i' - Num.get ns2 j')
            + Num.min3 (dtw_cost ns1 ns2 i' (S j')) (row j')
                       (dtw_cost ns1 ns2 i' j')
        end
  end.

(** A matrix of [rows] rows of [cols] cells. *)
Definition has_dims (dtw : matrix) (rows cols : nat) : Prop :=
  length dtw = rows /\ Forall (fun r => length r = cols) dtw.

(** A number that is not negative: a rational [0 <= q], or [Infinity]. *)
Definition nonneg (a : num) : Prop :=
  match a with
  | PosInf => True
  | Fin q => (0 <= q)%Qc
  | _ => False
  end.

(** A number of the interval [[0, 1]]. *)
Definition in_unit (a : num) : Prop :=
  match a with
  | Fin q => (0 <= q)%Qc /\ (q <= 1)%Qc
  | _ => False
  end.

(** The value [dtwSimilarity] returns on two sequences that are not
    empty, with the matrix replaced by its recurrence. *)
Definition similarity_of (seq1 seq2 : list num) : num :=
  let n := Nat.min (length seq1) 100 in
  let m := Nat.min (length seq2) 100 in
  let ns1 := normalize (resample seq1 n) in
  let ns2 := normalize (resample seq2 m) in
  (Num.one
   - Num.min Num.one (dtw_cost ns1 ns2 n m / Num.of_nat (Nat.max n m))).

(** The bundles the comparator is specified on: every number it reads is
    finite, and the recording lasts. *)
Record valid_bundle (b : Features) : Prop := mk_valid_bundle {
  valid_f0 : Forall Num.finite (voiced (f0_values (f0 b)));
  valid_f1_mean : Num.finite (fs_mean (f1 (formants b)));
  valid_f2_mean : Num.finite (fs_mean (f2 (formants b)));
  valid_intensity : Forall Num.finite (int_values (intensity b));
  valid_rate : Num.finite (syllablesPerSecond (speakingRate b));
  valid_pitchRange :
    match pitchRange b with
    | Some r => Num.finite (pr_min r) /\ Num.finite (pr_max r)
    | None => True
    end;
  valid_duration : exists d, duration b = Fin d /\ (0 < d)%Qc
}.



(** The frame grid in closed form: [n] frames, one every [hopSize]
    samples from sample 0. *)
Definition grid (hopSize n : nat) : list nat :=
  map (fun k => (k * hopSize)%nat) (seq 0 n).

(** How many whole frames of [frameSize] samples a buffer of [len]
    samples has, strictly inside it. *)
Definition frame_count (len frameSize hopSize : nat) : nat :=
  if (frameSize <? len)%nat then S ((len - frameSize - 1) / hopSize) else 0.

(** A buffer of silence: every sample is zero. *)
Definition all_zero (samples : list num) : Prop :=
  Forall (fun x => x = Num.zero) samples.

(** The candidate [{ freq, bandwidth }] that [lpcToFormants] computes from
    one root. *)
Definition candidate_of_root (Math : MathLib) (sampleRate : Qc)
  (root : complex) : Candidate :=
  mkCandidate
    (Math_atan2 Math (imag root) (real root) * Fin sampleRate
     / (Num.of_Z 2 * Math_PI Math))
    (- Math_log Math
         (Math_sqrt Math (real root * real root + imag root * imag root))
     * Fin sampleRate / Math_PI Math).

(** The filter of [lpcToFormants]: frequency in (200, 5000) Hz and
    bandwidth under 500 Hz. *)
Definition survives (c : Candidate) : bool :=
  (freq c >? Num.of_Z 200) && (freq c <? Num.of_Z 5000)
  && (bandwidth c <? Num.of_Z 500).

(** The LPC coefficients of the frame that starts at sample [i]. *)
Definition frame_lpc (Math : MathLib) (samples : list num) (sampleRate : Qc)
  (i : nat) : list num :=
  levinson
    (autocorrelation
       (preEmphasis (applyHammingWindow Math (frame_at samples sampleRate i)))
       13)
    12.

(** Candidates in ascending order of frequency. *)
Definition ascending (l : list Candidate) : Prop :=
  Sorted (fun a b => (freq a <=? freq b) = true) l.

(** The [k]-th reported formant of a frame whose sorted candidates are
    [sorted]: its frequency, or 0 when there is no [k]-th candidate. *)
Definition slot_of (sorted : list Candidate) (k : nat) : num :=
  match nth_error sorted k with
  | Some c => freq c
  | None => Num.zero
  end.

(** The audio context and the sample rate that a call of [analyzeAudio]
    works with: the analyzer's own, or the new ones of [initialize]. *)
Definition context_in_use (new_AudioContext : AudioContext)
  (this : ProsodyAnalyzer) : AudioContext :=
  match audioContext this with
  | None => new_AudioContext
  | Some ctx => ctx
  end.

Definition rate_in_use (new_AudioContext : AudioContext)
  (this : ProsodyAnalyzer) : Qc :=
  match audioContext this with
  | None => ctx_sampleRate new_AudioContext
  | Some _ => sampleRate this
  end.

(** ** Concrete inputs *)

(** A stand-in for [Math], to run the model on concrete buffers: its
    trigonometry and natural logarithm answer [NaN], its [sqrt] and [log10]
    answer their argument.  No property below depends on it: they hold for
    every [MathLib]. *)
Definition Math_standin : MathLib :=
  mkMathLib (fun _ => NaN) (fun _ => NaN) (fun _ _ => NaN) (fun _ => NaN)
            (fun x => x) (fun x => x) NaN.

(** A second stand-in, to run the root finder: rational approximations of
    the functions of [Math], good to a few parts in a thousand where they
    are used below.  The sine is Bhaskara's, [16 u (1 - u) / (5 - 4 u (1 - u))]
    for the sine of [u] half-turns, which is exact at the multiples of
    30 degrees but for 60 and 120, where it answers 32/37; the arc tangent
    is [t (PI/4 + 0.273 (1 - |t|))] on [[-1, 1]]; the logarithm is three
    terms of the series of [2 artanh ((x - 1) / (x + 1))]; the square root
    is three steps of Newton's iteration from [(1 + x) / 2]; and [PI] is
    355/113. *)
Module Approx.

Local Open Scope Qc_scope.

Definition of_Z (z : Z) : Qc := Q2Qc (inject_Z z).

Definition PI : Qc := Q2Qc (355 # 113).

(** The sine of [t] half-turns. *)
Definition sin_turns (t : Qc) : Qc :=
  let k := Qfloor t in
  let u := t - of_Z k in
  let s := of_Z 16 * u * (1 - u) / (of_Z 5 - of_Z 4 * u * (1 - u)) in
  if Z.even k then s else - s.

Definition sin (x : Qc) : Qc := sin_turns (x / PI).

Definition cos (x : Qc) : Qc := sin_turns (x / PI + Q2Qc (1 # 2)).

Definition atan_unit (t : Qc) : Qc :=
  t * (PI / of_Z 4 + Q2Qc (273 # 1000) * (1 - Qcabs t)).

Definition atan2 (y x : Qc) : Qc :=
  if Qcleb (Qcabs y) (Qcabs x) then
    if Qceqb x 0 then 0
    else if Qcltb 0 x then atan_unit (y / x)
    else if Qcltb y 0 then atan_unit (y / x) - PI
    else atan_unit (y / x) + PI
  else
    if Qcltb 0 y then PI / of_Z 2 - atan_unit (x / y)
    else - (PI / of_Z 2) - atan_unit (x / y).

Definition sqrt (x : Qc) : Qc :=
  let step := fun s => (s + x / s) / of_Z 2 in
  if Qceqb x 0 then 0 else step (step (step ((1 + x) / of_Z 2))).

Definition log (x : Qc) : Qc :=
  let u := (x - 1) / (x + 1) in
  of_Z 2 * (u + u * u * u / of_Z 3 + u * u * u * u * u / of_Z 5).

Definition log10 (x : Qc) : Qc := log x / Q2Qc (2302585 # 1000000).

(** A function of one finite number; [NaN] elsewhere. *)
Definition lift (f : Qc -> num) (a : num) : num :=
  match a with
  | Fin q => f q
  | _ => NaN
  end.

(** A logarithm: [-Infinity] at 0 and [NaN] below. *)
Definition lift_log (f : Qc -> Qc) : num -> num :=
  lift (fun x =>
          if Qcltb 0 x then Fin (f x)
          else if Qceqb x 0 then NegInf else NaN).

End Approx.

Definition Math_rational : MathLib :=
  mkMathLib
    (Approx.lift (fun x => Fin (Approx.cos x)))
    (Approx.lift (fun x => Fin (Approx.sin x)))
    (fun y x =>
       Approx.lift
         (fun y => Approx.lift (fun x => Fin (Approx.atan2 y x)) x) y)
    (Approx.lift_log Approx.log)
    (Approx.lift_log Approx.log10)
    (Approx.lift
       (fun x => if Qcltb x (Q2Qc 0) then NaN else Fin (Approx.sqrt x)))
    (Fin Approx.PI).

(** The coefficients, constant term first, of the polynomial of degree 12
    whose roots are the twelve points where [findPolynomialRoots] starts
    with [Math_rational]: [0.9 (cos a, sin a)] for the multiples [a] of
    30 degrees.  The root finder stays on them, since every correction is
    zero. *)
Definition start_lpc : list num :=
  [Num.one; Num.zero; Num.zero; Num.zero;
   Num.of_Q (115137403228144 # 9363768876031761);
   Num.zero; Num.zero; Num.zero;
   Num.of_Q (1161080222720000 # 61435687595644383921);
   Num.zero; Num.zero; Num.zero;
   Num.of_Q (-1438711584326041600000000 # 403079546315022802905681)].

(** A decoder of unsigned 8-bit PCM at the context's rate, which rejects
    an empty input as [decodeAudioData] does. *)
Definition pcm_sample (b : Byte.byte) : num :=
  Num.of_Q ((Z.of_N (Strings.Byte.to_N b) - 128) # 128).

Definition pcm_decode (rate : Qc) (bytes : list Byte.byte)
  : JsError + AudioBuffer :=
  match bytes with
  | [] => inl EncodingError
  | _ =>
      inr (mkAudioBuffer (map pcm_sample bytes)
                         (Num.of_nat (length bytes) / Fin rate))
  end.

Definition pcm_context (rate : Qc) : AudioContext :=
  mkAudioContext rate (pcm_decode rate).

(** Amplitudes 0, 1/2 and -1/2. *)
Definition b_zero : Byte.byte := Byte.x80.
Definition b_high : Byte.byte := Byte.xc0.
Definition b_low : Byte.byte := Byte.x40.

(** One sample of silence at 44100 Hz: shorter than a frame. *)
Definition tiny_blob : list Byte.byte := [b_zero].

(** Three periods of a square-ish wave of period 4 samples; at 400 Hz
    that is a 100 Hz tone and one frame of 10 samples. *)
Definition tone_blob : list Byte.byte :=
  [b_high; b_zero; b_low; b_zero; b_high; b_zero; b_low; b_zero;
   b_high; b_zero; b_low; b_zero].

Definition empty_bundle : Features :=
  mkFeatures (mkF0Contour [] [] Num.zero)
             (mkFormantContour (mkFormantSeries [] Num.zero)
                               (mkFormantSeries [] Num.zero)
                               (mkFormantSeries [] Num.zero) [])
             (mkIntensityContour [] [] Num.zero Num.zero)
             Num.zero
             (mkSpeakingRate Num.zero 0 Num.zero)
             None.

(** The bundle of a resolved call. *)
Definition resolved_bundle (r : ProsodyAnalyzer * outcome Features)
  : Features :=
  match snd r with
  | Resolved b => b
  | _ => empty_bundle
  end.

(** An engine whose calls take a thousand arguments. *)
Definition spread_standin : nat := 1000.

Definition tiny_bundle : Features :=
  resolved_bundle
    (analyzeAudio Math_standin spread_standin
                  (pcm_context (Q2Qc (inject_Z 44100)))
                  new_ProsodyAnalyzer tiny_blob).

Definition tone_bundle : Features :=
  resolved_bundle
    (analyzeAudio Math_standin spread_standin
                  (pcm_context (Q2Qc (inject_Z 400)))
                  new_ProsodyAnalyzer tone_blob).

Definition tone_samples : list num := map pcm_sample tone_blob.

(** A burst of amplitude 1/2 between two silences: 60 samples, 13 frames
    at 400 Hz. *)
Definition burst_samples : list num :=
  repeat Num.zero 20 ++ repeat (Num.of_Q (1 # 2)) 12 ++ repeat Num.zero 28.


Definition tone_formants : FormantContour :=
  match extractFormants Math_standin tone_samples (Q2Qc (inject_Z 400)) with
  | Some fc => fc
  | None => formants empty_bundle
  end.

(** ** Feedback generator *)

(** The messages of [generateFeedback]. *)
Module Feedback.

Import Strings.String.
Local Open Scope string_scope.

Definition higher_pitch : string :=
  "Try speaking with a slightly higher pitch to match the target accent.".

Definition lower_pitch : string :=
  "Your pitch is higher than the target. Try lowering it slightly.".

Definition more_variation : string :=
  "Add more variation to your intonation - the target has a wider pitch range.".

Definition vowel_sounds : string :=
  "Focus on vowel sounds - the resonance differs from the target accent.".

Definition speak_faster : string :=
  "Try speaking a bit faster to match the natural rhythm of this accent.".

Definition slow_down : string :=
  "Slow down slightly - take more time with each syllable.".

Definition stress_patterns : string :=
  "Pay attention to stress patterns - vary your emphasis on different syllables.".

Definition intonation_patterns : string :=
  "Work on your intonation patterns - try to match the melodic contour of the accent.".

Definition great_work : string :=
  "Great work! Keep practicing to maintain consistency.".

End Feedback.

(** [arr.push(x)] *)
Definition push {A : Type} (arr : list A) (x : A) : list A := arr ++ [x].

(** [this.generateFeedback] *)
Definition generateFeedback (scores : Scores)
  (targetFeatures userFeatures : Features) : list String.string :=
  let feedback : list String.string := [] in
  let feedback :=
    if score_f0 scores <? Num.of_Q (6 # 10) then
      let targetRange := pitchRange targetFeatures in
      let userRange := pitchRange userFeatures in
      match userRange, targetRange with
      | Some userRange, Some targetRange =>
          let feedback :=
            if pr_mean userRange <? pr_mean targetRange * Num.of_Q (9 # 10)
            then push feedback Feedback.higher_pitch
            else if pr_mean userRange
                    >? pr_mean targetRange * Num.of_Q (11 # 10)
            then push feedback Feedback.lower_pitch
            else feedback in
          if (pr_max userRange - pr_min userRange)
             <? (pr_max targetRange - pr_min targetRange) * Num.of_Q (7 # 10)
          then push feedback Feedback.more_variation
          else feedback
      | _, _ => feedback
      end
    else feedback in
  let feedback :=
    if score_formants scores <? Num.of_Q (6 # 10)
    then push feedback Feedback.vowel_sounds
    else feedback in
  let feedback :=
    if score_speakingRate scores <? Num.of_Q (6 # 10) then
      let targetRate := syllablesPerSecond (speakingRate targetFeatures) in
      let userRate := syllablesPerSecond (speakingRate userFeatures) in
      if userRate <? targetRate * Num.of_Q (8 # 10)
      then push feedback Feedback.speak_faster
      else if userRate >? targetRate * Num.of_Q (12 # 10)
      then push feedback Feedback.slow_down
      else feedback
    else feedback in
  let feedback :=
    if score_intensity scores <? Num.of_Q (6 # 10)
    then push feedback Feedback.stress_patterns
    else feedback in
  let feedback :=
    if score_pitchRange scores <? Num.of_Q (6 # 10)
    then push feedback Feedback.intonation_patterns
    else feedback in
  if (length feedback =? 0)%nat
  then push feedback Feedback.great_work
  else feedback.

(** ** Practice sessions: [src/js/practice.js] *)

(** [this.sessionStats] *)
Record SessionStats : Type := mkSessionStats {
  attempts : nat;
  totalScore : num;
  bestScore : num
}.

(** [{ attempts: 0, totalScore: 0, bestScore: 0 }] *)
Definition new_SessionStats : SessionStats :=
  mkSessionStats 0 Num.zero Num.zero.

(** The statements that update the statistics after a comparison, in
    [PracticeManager.analyzeAttempt] and in
    [MirrorAccentApp.transformAndAnalyze]:
    [attempts++; totalScore += overall;
     if (overall > bestScore) bestScore = overall]. *)
Definition record_score (stats : SessionStats) (overall : num)
  : SessionStats :=
  mkSessionStats
    (attempts stats + 1)
    (totalScore stats + overall)
    (if overall >? bestScore stats then overall else bestScore stats).

(** What [getSessionStats] returns: the statistics and [averageScore]. *)
Record SessionReport : Type := mkSessionReport {
  report_attempts : nat;
  report_totalScore : num;
  report_bestScore : num;
  averageScore : num
}.

(** [PracticeManager.getSessionStats] *)
Definition getSessionStats (stats : SessionStats) : SessionReport :=
  mkSessionReport
    (attempts stats) (totalScore stats) (bestScore stats)
    (if (0 <? attempts stats)%nat
     then totalScore stats / Num.of_nat (attempts stats)
     else Num.zero).

(** ** The recorder's WAV encoder: class [AudioRecorder] *)

(** An [ArrayBuffer] is its bytes, each in [0, 255]. *)
Definition ArrayBuffer := list Z.

(** The integer that a [DataView] setter makes of a number before it
    reduces it modulo its width: the number truncated toward zero, and 0
    for [NaN] and the infinities. *)
Definition Qc_trunc (q : Qc) : Z :=
  if Qcltb q 0 then Qceiling q else Qfloor q.

Definition to_integer (x : num) : Z :=
  match x with
  | Fin q => Qc_trunc q
  | _ => 0%Z
  end.

(** [view.setUint8(offset, v)] *)
Definition setUint8 (view : ArrayBuffer) (offset : nat) (v : Z)
  : ArrayBuffer :=
  list_set view offset (v mod 256)%Z.

(** [view.setUint16(offset, v, true)]: little-endian. *)
Definition setUint16 (view : ArrayBuffer) (offset : nat) (v : Z)
  : ArrayBuffer :=
  let u := (v mod 65536)%Z in
  list_set (list_set view offset (u mod 256)%Z)
           (offset + 1) (u / 256)%Z.

(** [view.setInt16(offset, v, true)]: the same two bytes, which read as a
    signed number are [v] wrapped into [-32768, 32767]. *)
Definition setInt16 (view : ArrayBuffer) (offset : nat) (v : Z)
  : ArrayBuffer :=
  setUint16 view offset v.

(** [view.setUint32(offset, v, true)] *)
Definition setUint32 (view : ArrayBuffer) (offset : nat) (v : Z)
  : ArrayBuffer :=
  let u := (v mod 4294967296)%Z in
  list_set
    (list_set
       (list_set (list_set view offset (u mod 256)%Z)
                 (offset + 1) ((u / 256) mod 256)%Z)
       (offset + 2) ((u / 65536) mod 256)%Z)
    (offset + 3) (u / 16777216)%Z.

(** [string.charCodeAt(i)] for the characters of a string of one-byte
    characters. *)
Definition charCodes (s : String.string) : list Z :=
  map (fun c => Z.of_N (Ascii.N_of_ascii c)) (String.list_ascii_of_string s).

(** [this.writeString] *)
Definition writeString (view : ArrayBuffer) (offset : nat)
  (string : String.string) : ArrayBuffer :=
  fold_left
    (fun view i => setUint8 view (offset + i) (nth i (charCodes string) 0%Z))
    (seq 0 (String.length string)) view.

(** The [AudioBuffer] that the recorder encodes: all its channels. *)
Record RecordedBuffer : Type := mkRecordedBuffer {
  numberOfChannels : nat;
  rb_sampleRate : num;
  rb_length : nat;
  getChannelData : nat -> list num
}.

(** The tags of the WAV header. *)
Module Wav.

Import Strings.String.
Local Open Scope string_scope.

Definition RIFF : string := "RIFF".
Definition WAVE : string := "WAVE".
Definition fmt : string := "fmt ".
Definition data : string := "data".

End Wav.

(** The 16-bit value of one sample: clamped to [[-1, 1]], then scaled by
    [0x8000] below zero and by [0x7FFF] otherwise. *)
Definition intSample_of (x : num) : num :=
  let sample := Num.max (Num.of_Z (-1)) (Num.min (Num.of_Z 1) x) in
  if sample <? Num.zero then sample * Num.of_Z 32768
  else sample * Num.of_Z 32767.

(** [this.audioBufferToWav] *)
Definition audioBufferToWav (audioBuffer : RecordedBuffer) : ArrayBuffer :=
  let numChannels := numberOfChannels audioBuffer in
  let sampleRate := rb_sampleRate audioBuffer in
  let format := 1%nat in
  let bitDepth := 16%nat in
  let bytesPerSample := (bitDepth / 8)%nat in
  let blockAlign := (numChannels * bytesPerSample)%nat in
  let samples := rb_length audioBuffer in
  let dataSize := (samples * blockAlign)%nat in
  let buffer : ArrayBuffer := repeat 0%Z (44 + dataSize) in
  let view := buffer in
  let view := writeString view 0 Wav.RIFF in
  let view := setUint32 view 4 (Z.of_nat (36 + dataSize)) in
  let view := writeString view 8 Wav.WAVE in
  let view := writeString view 12 Wav.fmt in
  let view := setUint32 view 16 16 in
  let view := setUint16 view 20 (Z.of_nat format) in
  let view := setUint16 view 22 (Z.of_nat numChannels) in
  let view := setUint32 view 24 (to_integer sampleRate) in
  let view :=
    setUint32 view 28 (to_integer (sampleRate * Num.of_nat blockAlign)) in
  let view := setUint16 view 32 (Z.of_nat blockAlign) in
  let view := setUint16 view 34 (Z.of_nat bitDepth) in
  let view := writeString view 36 Wav.data in
  let view := setUint32 view 40 (Z.of_nat dataSize) in
  let channelData :=
    map (getChannelData audioBuffer) (seq 0 numChannels) in
  fst
    (fold_left
       (fun (st : ArrayBuffer * nat) i =>
          fold_left
            (fun (st : ArrayBuffer * nat) ch =>
               let view := fst st in
               let offset := snd st in
               let intSample :=
                 intSample_of (Num.get (nth ch channelData []) i) in
               (setInt16 view offset (to_integer intSample),
                (offset + 2)%nat))
            (seq 0 numChannels) st)
       (seq 0 samples) (view, 44%nat)).

(** Reading the encoder's output back, as [DataView.getUint32],
    [getUint16] and [getInt16] do with [littleEndian = true]. *)
Definition getUint16 (view : ArrayBuffer) (offset : nat) : Z :=
  (nth offset view 0 + 256 * nth (offset + 1) view 0)%Z.

Definition getInt16 (view : ArrayBuffer) (offset : nat) : Z :=
  let u := getUint16 view offset in
  if (32768 <=? u)%Z then (u - 65536)%Z else u.

Definition getUint32 (view : ArrayBuffer) (offset : nat) : Z :=
  (nth offset view 0 + 256 * nth (offset + 1) view 0
   + 65536 * nth (offset + 2) view 0
   + 16777216 * nth (offset + 3) view 0)%Z.

(** The two bytes of a 16-bit field and the four bytes of a 32-bit field,
    least significant first. *)
Definition bytes16 (v : Z) : list Z :=
  let u := (v mod 65536)%Z in
  [(u mod 256)%Z; (u / 256)%Z].

Definition bytes32 (v : Z) : list Z :=
  let u := (v mod 4294967296)%Z in
  [(u mod 256)%Z; ((u / 256) mod 256)%Z; ((u / 65536) mod 256)%Z;
   (u / 16777216)%Z].

(** The 44 bytes of the header, field after field. *)
Definition wav_header (numChannels : nat) (sampleRate : num)
  (dataSize : nat) : list Z :=
  charCodes Wav.RIFF
  ++ bytes32 (Z.of_nat (36 + dataSize))
  ++ charCodes Wav.WAVE
  ++ charCodes Wav.fmt
  ++ bytes32 16
  ++ bytes16 1
  ++ bytes16 (Z.of_nat numChannels)
  ++ bytes32 (to_integer sampleRate)
  ++ bytes32 (to_integer (sampleRate * Num.of_nat (numChannels * 2)))
  ++ bytes16 (Z.of_nat (numChannels * 2))
  ++ bytes16 16
  ++ charCodes Wav.data
  ++ bytes32 (Z.of_nat dataSize).

(** The samples in the order in which they are written: frame after
    frame, and in a frame channel after channel. *)
Definition interleaved (audioBuffer : RecordedBuffer) : list num :=
  flat_map
    (fun i =>
       map (fun ch => Num.get (getChannelData audioBuffer ch) i)
           (seq 0 (numberOfChannels audioBuffer)))
    (seq 0 (rb_length audioBuffer)).

(** A sequence spoken more slowly: the values [fst p] of [blocks] in
    order, each held for [1 + snd p] frames. *)
Definition held (blocks : list (num * nat)) : list num :=
  flat_map (fun p => repeat (fst p) (S (snd p))) blocks.

(** ** Durations on screen: [MirrorAccentApp.formatDuration] *)

(** [Math.floor] *)
Definition Math_floor (x : num) : num :=
  match x with
  | Fin q => Num.of_Z (Qfloor q)
  | _ => x
  end.

(** [x % y]: the remainder has the sign of [x]. *)
Definition Num_rem (x y : num) : num :=
  match x, y with
  | Fin a, Fin b =>
      if Qceqb b 0 then NaN
      else Fin (a - b * Q2Qc (inject_Z (Qc_trunc (a / b))))%Qc
  | Fin a, (PosInf | NegInf) => Fin a
  | _, _ => NaN
  end.

(** The texts of the numbers that are not finite, and the separators. *)
Module Text.

Import Strings.String Strings.Ascii.
Local Open Scope string_scope.

Definition NaN : string := "NaN".
Definition Infinity : string := "Infinity".
Definition minus : string := "-".
Definition colon : string := ":".
Definition zero : ascii := "0"%char.

End Text.

(** The character of a decimal digit. *)
Definition digit (z : Z) : Ascii.ascii :=
  Ascii.ascii_of_N (48 + Z.to_N z).

(** The decimal digits of a natural number, most significant first; [fuel]
    digits at most. *)
Fixpoint decimal_digits (fuel : nat) (z : Z) : list Ascii.ascii :=
  match fuel with
  | O => []
  | S fuel' =>
      if (z <? 10)%Z then [digit z]
      else decimal_digits fuel' (z / 10) ++ [digit (z mod 10)]
  end.

Definition decimal (z : Z) : String.string :=
  String.string_of_list_ascii (decimal_digits 21 z).

(** [x.toString()] and [`${x}`] for the numbers that print without a
    fraction or an exponent: [NaN], the infinities, and the integers under
    [10^21] in magnitude.  Other numbers are outside the model: [None]. *)
Definition toString (x : num) : option String.string :=
  match x with
  | NaN => Some Text.NaN
  | PosInf => Some Text.Infinity
  | NegInf => Some (String.append Text.minus Text.Infinity)
  | Fin q =>
      let z := Qfloor q in
      if Qceqb q (Q2Qc (inject_Z z))
         && (Z.abs z <? 1000000000000000000000)%Z
      then Some (if (z <? 0)%Z
                 then String.append Text.minus (decimal (- z))
                 else decimal z)
      else None
  end.

(** [s.padStart(targetLength, c)] for a one-character filler. *)
Definition padStart (s : String.string) (targetLength : nat)
  (c : Ascii.ascii) : String.string :=
  String.append
    (String.string_of_list_ascii (repeat c (targetLength - String.length s)))
    s.

(** [this.formatDuration] *)
Definition formatDuration (seconds : num) : option String.string :=
  let m := Math_floor (seconds / Num.of_Z 60) in
  let s := Math_floor (Num_rem seconds (Num.of_Z 60)) in
  match toString m, toString s with
  | Some m_text, Some s_text =>
      Some (String.append m_text
              (String.append Text.colon (padStart s_text 2 Text.zero)))
  | _, _ => None
  end.

(** * Properties *)

(** ** Arithmetic on canonical rationals *)

Section QcFacts.

Local Open Scope Qc_scope.

Lemma Qcltb_lt x y : Qcltb x y = true <-> x < y.
Proof.
  unfold Qcltb. rewrite Qclt_alt. destruct (x ?= y); split; congruence.
Qed.

Lemma Qcltb_ge x y : Qcltb x y = false <-> y <= x.
Proof.
  unfold Qcltb. rewrite Qcle_alt. unfold Qccompare.
  rewrite <- (Qcompare_antisym x y).
  destruct (Qcompare x y); simpl; split; congruence.
Qed.

Lemma Qceqb_eq x y : Qceqb x y = true <-> x = y.
Proof.
  unfold Qceqb. rewrite Qceq_alt. destruct (x ?= y); split; congruence.
Qed.

Lemma Qceqb_refl x : Qceqb x x = true.
Proof. now apply Qceqb_eq. Qed.

Lemma Qceqb_neq x y : Qceqb x y = false <-> x <> y.
Proof.
  rewrite <- Qceqb_eq. destruct (Qceqb x y); split; congruence.
Qed.

Lemma Qcleb_le x y : Qcleb x y = true <-> x <= y.
Proof.
  unfold Qcleb. rewrite Qcle_alt. destruct (x ?= y); split; congruence.
Qed.

Lemma Qcltb_irrefl x : Qcltb x x = false.
Proof. apply Qcltb_ge, Qcle_refl. Qed.

End QcFacts.

(** Goals of linear arithmetic over [Qc] are moved to [Q], where [lra]
    decides them. *)
Ltac qc2q :=
  repeat (progress
    (unfold Qcle, Qclt, Qcplus, Qcminus, Qcmult, Qcdiv, Qcopp, Qcinv,
            Qc_of_nat, Q2Qc in *;
     cbn [this] in *; rewrite ?Qred_correct in *));
  change (inject_Z 0) with 0%Q in *;
  change (inject_Z 1) with 1%Q in *.

Ltac qclra :=
  try match goal with |- @eq Qc _ _ => apply Qc_is_canon end;
  qc2q; lra.

(** Comparisons of [Qc] in hypotheses and goals, as propositions. *)
Ltac qcbool :=
  repeat match goal with
  | H : Qcltb _ _ = true |- _ => apply Qcltb_lt in H
  | H : Qcltb _ _ = false |- _ => apply Qcltb_ge in H
  | H : Qceqb _ _ = true |- _ => apply Qceqb_eq in H
  | H : Qceqb _ _ = false |- _ => apply Qceqb_neq in H
  | H : Qcleb _ _ = true |- _ => apply Qcleb_le in H
  | |- Qcltb _ _ = true => apply Qcltb_lt
  | |- Qcltb _ _ = false => apply Qcltb_ge
  | |- Qceqb _ _ = true => apply Qceqb_eq
  | |- Qceqb _ _ = false => apply Qceqb_neq
  | |- Qcleb _ _ = true => apply Qcleb_le
  end.

(** ** Arithmetic on numbers *)

Section NumFacts.

Local Open Scope Qc_scope.

Lemma num_eqb_eq a b : Num.eqb a b = true -> a = b.
Proof.
  destruct a, b; simpl; try congruence.
  intros H. apply Qceqb_eq in H. now subst.
Qed.

Lemma min_comm a b : Num.min a b = Num.min b a.
Proof.
  destruct a as [| | |x], b as [| | |y]; simpl; try reflexivity.
  destruct (Qcltb y x) eqn:Hyx, (Qcltb x y) eqn:Hxy; try reflexivity;
    qcbool.
  - exfalso. qclra.
  - f_equal. apply Qcle_antisym; assumption.
Qed.

Lemma min3_swap a b c : Num.min3 a b c = Num.min3 b a c.
Proof. unfold Num.min3. now rewrite (min_comm a b). Qed.

Lemma max_comm a b : Num.max a b = Num.max b a.
Proof.
  destruct a as [| | |x], b as [| | |y]; simpl; try reflexivity.
  destruct (Qcltb y x) eqn:Hyx, (Qcltb x y) eqn:Hxy; try reflexivity;
    qcbool.
  - exfalso. qclra.
  - f_equal. apply Qcle_antisym; assumption.
Qed.

Lemma Qcabs_minus_sym (x y : Qc) : Qcabs (x - y) = Qcabs (y - x).
Proof.
  rewrite <- (Qcabs_opp (x - y)). f_equal. ring.
Qed.

Lemma abs_sub_sym a b : Num.abs (a - b) = Num.abs (b - a).
Proof.
  destruct a as [| | |x], b as [| | |y]; simpl; try reflexivity.
  f_equal. apply Qcabs_minus_sym.
Qed.

End NumFacts.

(** ** Arrays *)

Section ArrayFacts.

Context {A : Type}.

Lemma length_list_set (l : list A) i v : length (list_set l i v) = length l.
Proof.
  revert i; induction l as [|h t IH]; intros [|i]; simpl; auto.
Qed.

Lemma nth_list_set_eq (l : list A) i v d :
  (i < length l)%nat -> nth i (list_set l i v) d = v.
Proof.
  revert i; induction l as [|h t IH]; intros [|i] Hi; simpl in *;
    try lia; auto.
  apply IH. lia.
Qed.

Lemma nth_list_set_neq (l : list A) i j v d :
  i <> j -> nth j (list_set l i v) d = nth j l d.
Proof.
  revert i j; induction l as [|h t IH]; intros [|i] [|j] Hij; simpl;
    try congruence; auto.
Qed.

Lemma fold_left_snoc {B : Type} (f : B -> A -> B) l x b :
  fold_left f (l ++ [x]) b = f (fold_left f l b) x.
Proof. now rewrite fold_left_app. Qed.

Lemma Forall_list_set (P : A -> Prop) (l : list A) i v :
  Forall P l -> P v -> Forall P (list_set l i v).
Proof.
  intros Hl Hv. revert i.
  induction Hl as [|h t Hh Ht IH]; intros [|i]; simpl; auto.
Qed.

End ArrayFacts.

Section MatrixFacts.

Lemma has_dims_row dtw rows cols i :
  has_dims dtw rows cols -> (i < rows)%nat -> length (nth i dtw []) = cols.
Proof.
  intros [Hl Hr] Hi. rewrite Forall_forall in Hr.
  apply Hr, nth_In. lia.
Qed.

Lemma has_dims_set_cell dtw rows cols i j v :
  has_dims dtw rows cols -> (i < rows)%nat ->
  has_dims (set_cell dtw i j v) rows cols.
Proof.
  intros Hd Hi. pose proof (has_dims_row dtw rows cols i Hd Hi) as Hrow.
  destruct Hd as [Hl Hr]. split.
  - unfold set_cell. now rewrite length_list_set.
  - unfold set_cell. apply Forall_list_set; auto.
    now rewrite length_list_set.
Qed.

Lemma cell_set_cell_eq dtw rows cols i j v :
  has_dims dtw rows cols -> (i < rows)%nat -> (j < cols)%nat ->
  cell (set_cell dtw i j v) i j = v.
Proof.
  intros Hd Hi Hj. pose proof (has_dims_row dtw rows cols i Hd Hi) as Hrow.
  destruct Hd as [Hl Hr]. unfold cell, set_cell, Num.get.
  rewrite nth_list_set_eq by lia.
  apply nth_list_set_eq. lia.
Qed.

Lemma cell_set_cell_neq dtw rows cols i j i' j' v :
  has_dims dtw rows cols -> (i < rows)%nat ->
  (i, j) <> (i', j') ->
  cell (set_cell dtw i j v) i' j' = cell dtw i' j'.
Proof.
  intros Hd Hi Hne. destruct Hd as [Hl Hr]. unfold cell, set_cell, Num.get.
  destruct (Nat.eq_dec i i') as [->|Hii].
  - rewrite nth_list_set_eq by lia.
    apply nth_list_set_neq. congruence.
  - now rewrite nth_list_set_neq.
Qed.

Lemma has_dims_repeat rows cols :
  has_dims (repeat (repeat PosInf cols) rows) rows cols.
Proof.
  split.
  - apply repeat_length.
  - apply Forall_forall. intros r Hr. apply repeat_spec in Hr. subst.
    apply repeat_length.
Qed.

Lemma cell_repeat rows cols i j :
  (i < rows)%nat -> (j < cols)%nat ->
  cell (repeat (repeat PosInf cols) rows) i j = PosInf.
Proof.
  intros Hi Hj. unfold cell, Num.get.
  rewrite nth_repeat_lt by exact Hi. now apply nth_repeat_lt.
Qed.

Lemma has_dims_init n m : has_dims (dtw_init n m) (S n) (S m).
Proof.
  unfold dtw_init. apply has_dims_set_cell; [apply has_dims_repeat | lia].
Qed.

Lemma cell_init n m i j :
  (i <= n)%nat -> (j <= m)%nat ->
  cell (dtw_init n m) i j =
  match i, j with O, O => Num.zero | _, _ => PosInf end.
Proof.
  intros Hi Hj. unfold dtw_init.
  destruct i as [|i], j as [|j].
  - rewrite cell_set_cell_eq with (rows := S n) (cols := S m);
      [reflexivity | apply has_dims_repeat | lia | lia].
  - rewrite cell_set_cell_neq with (rows := S n) (cols := S m);
      [| apply has_dims_repeat | lia | intros [=]].
    apply cell_repeat; lia.
  - rewrite cell_set_cell_neq with (rows := S n) (cols := S m);
      [| apply has_dims_repeat | lia | intros [=]].
    apply cell_repeat; lia.
  - rewrite cell_set_cell_neq with (rows := S n) (cols := S m);
      [| apply has_dims_repeat | lia | intros [=]].
    apply cell_repeat; lia.
Qed.

Lemma dtw_cost_col0 ns1 ns2 i : dtw_cost ns1 ns2 (S i) 0 = PosInf.
Proof. reflexivity. Qed.

Lemma dtw_cost_step ns1 ns2 i j :
  dtw_cost ns1 ns2 (S i) (S j) =
  Num.abs (Num.get ns1 i - Num.get ns2 j)
  + Num.min3 (dtw_cost ns1 ns2 i (S j)) (dtw_cost ns1 ns2 (S i) j)
             (dtw_cost ns1 ns2 i j).
Proof. reflexivity. Qed.

(** The inner loop fills row [i] from row [i - 1]. *)
Lemma dtw_inner_loop ns1 ns2 rows cols i k dtw :
  has_dims dtw rows cols ->
  (i < rows)%nat -> (k < cols)%nat ->
  (forall j, (j < cols)%nat ->
             cell dtw i j = dtw_cost ns1 ns2 i j) ->
  cell dtw (S i) 0 = PosInf ->
  (S i < rows)%nat ->
  let dtw' := fold_left (dtw_step ns1 ns2 (S i)) (seq 1 k) dtw in
  has_dims dtw' rows cols
  /\ (forall i' j, i' <> S i -> cell dtw' i' j = cell dtw i' j)
  /\ (forall j, (j <= k)%nat -> cell dtw' (S i) j = dtw_cost ns1 ns2 (S i) j)
  /\ (forall j, (k < j)%nat -> cell dtw' (S i) j = cell dtw (S i) j).
Proof.
  intros Hd Hi Hk Hprev H0 HSi.
  induction k as [|k IH]; cbn zeta.
  - simpl. split; [|split; [|split]]; auto.
    intros j Hj. assert (j = 0%nat) by lia. subst. now rewrite H0.
  - rewrite seq_S, fold_left_snoc.
    destruct IH as (Hd' & Hother & Hrow & Hrest); [lia|].
    set (dtwk := fold_left (dtw_step ns1 ns2 (S i)) (seq 1 k) dtw) in *.
    unfold dtw_step. replace (1 + k - 1)%nat with k by lia.
    replace (S i - 1)%nat with i by lia. simpl (1 + k)%nat.
    split; [|split; [|split]].
    + apply has_dims_set_cell; auto.
    + intros i' j Hi'.
      rewrite cell_set_cell_neq with (rows := rows) (cols := cols); auto.
      intros [=]. congruence.
    + intros j Hj. destruct (Nat.eq_dec j (S k)) as [->|Hne].
      * rewrite cell_set_cell_eq with (rows := rows) (cols := cols); auto.
        rewrite dtw_cost_step.
        rewrite (Hother i (S k)), (Hother i k) by lia.
        rewrite !Hprev by lia. rewrite Hrow by lia. reflexivity.
      * rewrite cell_set_cell_neq with (rows := rows) (cols := cols); auto.
        -- apply Hrow. lia.
        -- intros [=]. congruence.
    + intros j Hj.
      rewrite cell_set_cell_neq with (rows := rows) (cols := cols); auto.
      * apply Hrest. lia.
      * intros [=]. lia.
Qed.

(** The outer loop fills rows [1 .. k]. *)
Lemma dtw_outer_loop ns1 ns2 n m k :
  (k <= n)%nat ->
  let dtw' :=
    fold_left
      (fun dtw i => fold_left (dtw_step ns1 ns2 i) (seq 1 m) dtw)
      (seq 1 k) (dtw_init n m) in
  has_dims dtw' (S n) (S m)
  /\ (forall i j, (i <= k)%nat -> (j <= m)%nat ->
                  cell dtw' i j = dtw_cost ns1 ns2 i j)
  /\ (forall i j, (k < i)%nat -> cell dtw' i j = cell (dtw_init n m) i j).
Proof.
  induction k as [|k IH]; intros Hk; cbn zeta.
  - simpl. split; [|split]; auto using has_dims_init.
    intros i j Hi Hj. assert (i = 0%nat) by lia. subst.
    rewrite cell_init by lia. now destruct j.
  - rewrite seq_S, fold_left_snoc.
    destruct IH as (Hd & Hdone & Hrest); [lia|].
    set (dtwk := fold_left _ (seq 1 k) (dtw_init n m)) in *.
    simpl (1 + k)%nat.
    destruct (dtw_inner_loop ns1 ns2 (S n) (S m) k m dtwk)
      as (Hd' & Hother & Hrow & _); auto; try lia.
    + intros j Hj. apply Hdone; lia.
    + rewrite Hrest by lia. now rewrite cell_init by lia.
    + split; [|split]; auto.
      * intros i j Hi Hj. destruct (Nat.eq_dec i (S k)) as [->|Hne].
        -- now apply Hrow.
        -- rewrite Hother by assumption. apply Hdone; lia.
      * intros i j Hi. rewrite Hother by lia. apply Hrest. lia.
Qed.

(** The loops compute the recurrence. *)
Lemma dtw_fill_cost ns1 ns2 n m :
  cell (dtw_fill ns1 ns2 n m) n m = dtw_cost ns1 ns2 n m.
Proof.
  unfold dtw_fill.
  destruct (dtw_outer_loop ns1 ns2 n m n (le_n n)) as (_ & H & _).
  now apply H.
Qed.

End MatrixFacts.

(** ** The cost recurrence *)

Section CostFacts.

Local Open Scope Qc_scope.

Lemma zero_Fin : Num.zero = Fin 0.
Proof. reflexivity. Qed.

Lemma one_Fin : Num.one = Fin 1.
Proof. reflexivity. Qed.

Lemma finite_inv a : Num.finite a -> exists q, a = Fin q.
Proof. destruct a; simpl; try tauto. eauto. Qed.

Lemma Forall_finite_get arr i :
  Forall Num.finite arr -> (i < length arr)%nat ->
  Num.finite (Num.get arr i).
Proof.
  intros H Hi. rewrite Forall_forall in H. apply H.
  unfold Num.get. now apply nth_In.
Qed.

Lemma nonneg_min a b : nonneg a -> nonneg b -> nonneg (Num.min a b).
Proof.
  destruct a as [| | |x], b as [| | |y]; simpl; try tauto.
  intros Hx Hy. now destruct (Qcltb y x).
Qed.

Lemma nonneg_min3 a b c :
  nonneg a -> nonneg b -> nonneg c -> nonneg (Num.min3 a b c).
Proof. intros. unfold Num.min3. auto using nonneg_min. Qed.

Lemma nonneg_add a b : nonneg a -> nonneg b -> nonneg (a + b).
Proof.
  destruct a as [| | |x], b as [| | |y]; simpl; try tauto.
  intros Hx Hy. qclra.
Qed.

Lemma Qcabs_nonneg' (x : Qc) : 0 <= Qcabs x.
Proof. apply Qcabs_nonneg. Qed.

Lemma nonneg_abs_sub a b :
  Num.finite a -> Num.finite b -> nonneg (Num.abs (a - b)).
Proof.
  destruct a as [| | |x], b as [| | |y]; simpl; try tauto.
  intros _ _. apply Qcabs_nonneg.
Qed.

Lemma abs_sub_self a : Num.finite a -> Num.abs (a - a) = Num.zero.
Proof.
  destruct a as [| | |x]; simpl; try tauto. intros _.
  rewrite zero_Fin. f_equal.
  replace (x + - x) with 0 by ring. now apply Qc_is_canon.
Qed.

Lemma min_zero_r a : nonneg a -> Num.min a Num.zero = Num.zero.
Proof.
  destruct a as [| | |x]; simpl; try tauto; intros Hx.
  change (Q2Qc (inject_Z 0)) with 0.
  destruct (Qcltb 0 x) eqn:E; [reflexivity|].
  qcbool. rewrite zero_Fin. f_equal. now apply Qcle_antisym.
Qed.

Lemma min3_zero a b : nonneg a -> nonneg b -> Num.min3 a b Num.zero = Num.zero.
Proof.
  intros Ha Hb. unfold Num.min3. apply min_zero_r. now apply nonneg_min.
Qed.

Lemma add_zero_zero : (Num.zero + Num.zero)%num = Num.zero.
Proof. apply num_eqb_eq. reflexivity. Qed.

(** The recurrence is symmetric: exchanging the two sequences transposes
    the matrix. *)
Lemma dtw_cost_sym ns1 ns2 i :
  forall j, dtw_cost ns1 ns2 i j = dtw_cost ns2 ns1 j i.
Proof.
  induction i as [|i IHi]; intros j.
  - destruct j; reflexivity.
  - induction j as [|j IHj]; [reflexivity|].
    rewrite !dtw_cost_step.
    rewrite (IHi (S j)), (IHi j), IHj.
    rewrite abs_sub_sym. f_equal. apply min3_swap.
Qed.

(** Costs are never negative (nor [NaN]) on finite sequences. *)
Lemma dtw_cost_nonneg ns1 ns2 i :
  Forall Num.finite ns1 -> Forall Num.finite ns2 ->
  (i <= length ns1)%nat ->
  forall j, (j <= length ns2)%nat -> nonneg (dtw_cost ns1 ns2 i j).
Proof.
  intros H1 H2. induction i as [|i IHi]; intros Hi j Hj.
  - destruct j; simpl; auto. apply Qcle_refl.
  - induction j as [|j IHj]; [exact I|].
    rewrite dtw_cost_step. apply nonneg_add.
    + apply nonneg_abs_sub; apply Forall_finite_get; auto.
    + apply nonneg_min3.
      * apply IHi; lia.
      * apply IHj; lia.
      * apply IHi; lia.
Qed.

(** A sequence aligned with itself costs nothing. *)
Lemma dtw_cost_diag ns i :
  Forall Num.finite ns -> (i <= length ns)%nat ->
  dtw_cost ns ns i i = Num.zero.
Proof.
  intros H. induction i as [|i IHi]; intros Hi; [reflexivity|].
  rewrite dtw_cost_step.
  rewrite abs_sub_self by (apply Forall_finite_get; auto).
  rewrite IHi by lia.
  rewrite min3_zero; [apply add_zero_zero | |];
    apply dtw_cost_nonneg; auto; lia.
Qed.

End CostFacts.

(** ** Resampling and normalisation keep sequences finite *)

Section SequenceFacts.

Local Open Scope Qc_scope.

Lemma length_normalize arr : length (normalize arr) = length arr.
Proof. unfold normalize. apply length_map. Qed.

Lemma length_resample arr n : length (resample arr n) = n.
Proof.
  unfold resample. destruct (Nat.eqb_spec (length arr) n) as [E|E]; auto.
  now rewrite length_map, length_seq.
Qed.

Lemma finite_add a b : Num.finite a -> Num.finite b -> Num.finite (a + b).
Proof. destruct a, b; simpl; tauto. Qed.

Lemma finite_sub a b : Num.finite a -> Num.finite b -> Num.finite (a - b).
Proof. destruct a, b; simpl; tauto. Qed.

Lemma finite_mul a b : Num.finite a -> Num.finite b -> Num.finite (a * b).
Proof. destruct a, b; simpl; tauto. Qed.

Lemma finite_div a q : q <> 0 -> Num.finite a -> Num.finite (a / Fin q).
Proof.
  intros Hq. destruct a; simpl; try tauto. intros _.
  apply Qceqb_neq in Hq. now rewrite Hq.
Qed.

Lemma finite_min a b : Num.finite a -> Num.finite b -> Num.finite (Num.min a b).
Proof.
  destruct a as [| | |x], b as [| | |y]; simpl; try tauto.
  now destruct (Qcltb y x).
Qed.

Lemma finite_max a b : Num.finite a -> Num.finite b -> Num.finite (Num.max a b).
Proof.
  destruct a as [| | |x], b as [| | |y]; simpl; try tauto.
  now destruct (Qcltb x y).
Qed.

Lemma finite_fold_min l a :
  Forall Num.finite l -> Num.finite a -> Num.finite (fold_left Num.min l a).
Proof.
  intros H. revert a. induction H as [|h t Hh Ht IH]; intros a Ha; simpl; auto.
  apply IH. now apply finite_min.
Qed.

Lemma finite_fold_max l a :
  Forall Num.finite l -> Num.finite a -> Num.finite (fold_left Num.max l a).
Proof.
  intros H. revert a. induction H as [|h t Hh Ht IH]; intros a Ha; simpl; auto.
  apply IH. now apply finite_max.
Qed.

Lemma finite_min_list h t :
  Forall Num.finite (h :: t) -> Num.finite (Num.min_list (h :: t)).
Proof.
  intros H. inversion H as [|? ? Hh Ht]; subst.
  unfold Num.min_list. simpl fold_left. apply finite_fold_min; auto.
  destruct h; simpl in *; tauto.
Qed.

Lemma finite_max_list h t :
  Forall Num.finite (h :: t) -> Num.finite (Num.max_list (h :: t)).
Proof.
  intros H. inversion H as [|? ? Hh Ht]; subst.
  unfold Num.max_list. simpl fold_left. apply finite_fold_max; auto.
  destruct h; simpl in *; tauto.
Qed.

(** The range [max - min || 1] is finite and not zero. *)
Lemma or_else_one_nonzero a :
  Num.finite a -> exists q, Num.or_else a Num.one = Fin q /\ q <> 0.
Proof.
  destruct a as [| | |x]; simpl; try tauto. intros _.
  unfold Num.or_else, Num.truthy.
  destruct (Qceqb x 0) eqn:E; simpl.
  - exists 1. split; [reflexivity|]. intros H. discriminate H.
  - exists x. split; [reflexivity|]. now apply Qceqb_neq.
Qed.

Lemma normalize_finite arr :
  Forall Num.finite arr -> Forall Num.finite (normalize arr).
Proof.
  intros H. destruct arr as [|h t]; [constructor|].
  unfold normalize.
  pose proof (finite_min_list h t H) as Hmin.
  pose proof (finite_max_list h t H) as Hmax.
  destruct (or_else_one_nonzero
              (Num.max_list (h :: t) - Num.min_list (h :: t))%num)
    as (q & -> & Hq); [now apply finite_sub|].
  apply Forall_map. eapply Forall_impl; [|exact H].
  intros v Hv. simpl. apply finite_div; auto. now apply finite_sub.
Qed.

Lemma Qc_of_nat_this n : (this (Qc_of_nat n) == inject_Z (Z.of_nat n))%Q.
Proof. unfold Qc_of_nat, Q2Qc. cbn [this]. apply Qred_correct. Qed.

(** The interpolation of [resample] reads inside the array. *)
Lemma resample_lower_lt len target i :
  (i < target)%nat -> (0 < len)%nat ->
  (Z.to_nat
     (Qc_floor (Qc_of_nat i * (Qc_of_nat len / Qc_of_nat target))) < len)%nat.
Proof.
  intros Hi Hlen.
  set (x := Qc_of_nat i * (Qc_of_nat len / Qc_of_nat target)).
  assert (Hx : (this x < inject_Z (Z.of_nat len))%Q).
  { unfold x. qc2q.
    assert (Ht : (0 < inject_Z (Z.of_nat target))%Q).
    { change 0%Q with (inject_Z 0). rewrite <- Zlt_Qlt. lia. }
    setoid_replace
      (inject_Z (Z.of_nat i)
       * (inject_Z (Z.of_nat len) * / inject_Z (Z.of_nat target)))%Q
      with ((inject_Z (Z.of_nat i) * inject_Z (Z.of_nat len))
            / inject_Z (Z.of_nat target))%Q
      by (unfold Qdiv; ring).
    apply Qlt_shift_div_r; [exact Ht|].
    rewrite <- !inject_Z_mult, <- Zlt_Qlt. nia. }
  unfold Qc_floor.
  pose proof (Qfloor_le (this x)) as Hfl.
  assert (Hz : (Qfloor (this x) < Z.of_nat len)%Z).
  { rewrite Zlt_Qlt. eapply Qle_lt_trans; eauto. }
  lia.
Qed.

Lemma resample_finite arr target :
  Forall Num.finite arr -> (target <= length arr)%nat ->
  Forall Num.finite (resample arr target).
Proof.
  intros H Ht. unfold resample.
  destruct (Nat.eqb_spec (length arr) target) as [E|E]; auto.
  apply Forall_map, Forall_forall. intros i Hin.
  apply in_seq in Hin.
  assert (Hlow := resample_lower_lt (length arr) target i ltac:(lia) ltac:(lia)).
  apply finite_add; apply finite_mul; try exact I;
    apply Forall_finite_get; auto; lia.
Qed.

End SequenceFacts.

(** ** [dtwSimilarity] *)

Section SimilarityFacts.

Local Open Scope Qc_scope.

Lemma dtwSimilarity_nonempty seq1 seq2 :
  seq1 <> [] -> seq2 <> [] ->
  dtwSimilarity seq1 seq2 = similarity_of seq1 seq2.
Proof.
  intros H1 H2. unfold dtwSimilarity, similarity_of.
  destruct seq1 as [|a1 t1]; [congruence|].
  destruct seq2 as [|a2 t2]; [congruence|].
  cbn [length Nat.eqb orb]. cbv zeta.
  now rewrite dtw_fill_cost.
Qed.

Lemma dtwSimilarity_empty_l seq2 : dtwSimilarity [] seq2 = Num.zero.
Proof. reflexivity. Qed.

Lemma dtwSimilarity_empty_r seq1 : dtwSimilarity seq1 [] = Num.zero.
Proof.
  unfold dtwSimilarity. cbn [length Nat.eqb]. now rewrite orb_true_r.
Qed.

Lemma Qc_of_nat_pos k : (0 < k)%nat -> 0 < Qc_of_nat k.
Proof.
  intros Hk. unfold Qclt. rewrite Qc_of_nat_this.
  change (this 0) with (inject_Z 0). rewrite <- Zlt_Qlt. lia.
Qed.

Lemma Qcdiv_nonneg q k : 0 <= q -> 0 < k -> 0 <= q / k.
Proof.
  intros Hq Hk. qc2q.
  apply Qmult_le_0_compat; [exact Hq|].
  apply Qinv_le_0_compat. now apply Qlt_le_weak.
Qed.

Lemma in_unit_zero : in_unit Num.zero.
Proof. simpl. split; intros H; discriminate H. Qed.

Lemma in_unit_one : in_unit Num.one.
Proof. simpl. split; intros H; discriminate H. Qed.

(** [1 - Math.min(1, x)] is in [[0, 1]] as soon as [x] is not negative. *)
Lemma one_minus_min_in_unit x :
  nonneg x -> in_unit (Num.one - Num.min Num.one x).
Proof.
  destruct x as [| | |q]; simpl; try tauto; intros Hq.
  - split; intros H; discriminate H.
  - change (Q2Qc (inject_Z 1)) with 1.
    destruct (Qcltb q 1) eqn:E; qcbool; simpl; split; qclra.
Qed.

Lemma nonneg_div_nat c k : nonneg c -> (0 < k)%nat -> nonneg (c / Num.of_nat k).
Proof.
  intros Hc Hk. pose proof (Qc_of_nat_pos k Hk) as Hpos.
  destruct c as [| | |q]; simpl in *; try tauto.
  - destruct (Qcltb (Qc_of_nat k) 0) eqn:E; [|exact I].
    qcbool. exfalso. qclra.
  - destruct (Qceqb (Qc_of_nat k) 0) eqn:E; qcbool.
    + exfalso. rewrite E in Hpos. now apply Qclt_not_eq in Hpos.
    + now apply Qcdiv_nonneg.
Qed.

Lemma similarity_of_in_unit seq1 seq2 :
  Forall Num.finite seq1 -> Forall Num.finite seq2 ->
  seq1 <> [] -> seq2 <> [] ->
  in_unit (similarity_of seq1 seq2).
Proof.
  intros F1 F2 H1 H2. unfold similarity_of.
  assert (L1 : (0 < length seq1)%nat) by (destruct seq1; simpl; [congruence|lia]).
  assert (L2 : (0 < length seq2)%nat) by (destruct seq2; simpl; [congruence|lia]).
  apply one_minus_min_in_unit, nonneg_div_nat; [|lia].
  apply dtw_cost_nonneg.
  - apply normalize_finite, resample_finite; auto; lia.
  - apply normalize_finite, resample_finite; auto; lia.
  - rewrite length_normalize, length_resample. lia.
  - rewrite length_normalize, length_resample. lia.
Qed.

(** Every similarity of two finite sequences is in [[0, 1]]. *)
Lemma dtwSimilarity_in_unit seq1 seq2 :
  Forall Num.finite seq1 -> Forall Num.finite seq2 ->
  in_unit (dtwSimilarity seq1 seq2).
Proof.
  intros F1 F2.
  destruct seq1 as [|a1 t1]; [apply in_unit_zero|].
  destruct seq2 as [|a2 t2];
    [rewrite dtwSimilarity_empty_r; apply in_unit_zero|].
  rewrite dtwSimilarity_nonempty by congruence.
  apply similarity_of_in_unit; auto; congruence.
Qed.

Lemma zero_div_nat k : (0 < k)%nat -> (Num.zero / Num.of_nat k)%num = Num.zero.
Proof.
  intros Hk. pose proof (Qc_of_nat_pos k Hk) as Hpos.
  unfold Num.zero, Num.of_Z, Num.of_nat, Num.div.
  destruct (Qceqb (Qc_of_nat k) 0) eqn:E; qcbool.
  - exfalso. rewrite E in Hpos. now apply Qclt_not_eq in Hpos.
  - f_equal. change (Q2Qc (inject_Z 0)) with 0. field.
    intros H. now apply E.
Qed.

(** A finite sequence that is not empty is fully similar to itself. *)
Lemma dtwSimilarity_self seq :
  Forall Num.finite seq -> seq <> [] -> dtwSimilarity seq seq = Num.one.
Proof.
  intros F H. rewrite dtwSimilarity_nonempty by assumption.
  unfold similarity_of.
  assert (L : (0 < length seq)%nat) by (destruct seq; simpl; [congruence|lia]).
  rewrite dtw_cost_diag.
  - rewrite zero_div_nat by lia. apply num_eqb_eq. reflexivity.
  - apply normalize_finite, resample_finite; auto; lia.
  - rewrite length_normalize, length_resample. lia.
Qed.

(** Exchanging the two sequences does not change their similarity. *)
Lemma dtwSimilarity_sym seq1 seq2 :
  dtwSimilarity seq1 seq2 = dtwSimilarity seq2 seq1.
Proof.
  destruct seq1 as [|a1 t1].
  { now rewrite dtwSimilarity_empty_l, dtwSimilarity_empty_r. }
  destruct seq2 as [|a2 t2].
  { now rewrite dtwSimilarity_empty_l, dtwSimilarity_empty_r. }
  rewrite !dtwSimilarity_nonempty by congruence.
  unfold similarity_of. rewrite dtw_cost_sym. now rewrite Nat.max_comm.
Qed.


End SimilarityFacts.

(** ** [compareProsody] *)

Section ComparatorFacts.

Local Open Scope Qc_scope.

Lemma in_unit_inv a : in_unit a -> exists q, a = Fin q /\ 0 <= q /\ q <= 1.
Proof. destruct a; simpl; try tauto. eauto. Qed.

Lemma nonneg_div_pos c k : nonneg c -> 0 < k -> nonneg (c / Fin k).
Proof.
  intros Hc Hk. destruct c as [| | |q]; simpl in *; try tauto.
  - destruct (Qcltb k 0) eqn:E; [|exact I]. qcbool. exfalso. qclra.
  - destruct (Qceqb k 0) eqn:E; qcbool.
    + exfalso. rewrite E in Hk. now apply Qclt_not_eq in Hk.
    + now apply Qcdiv_nonneg.
Qed.

Lemma nonneg_abs a : a <> NaN -> nonneg (Num.abs a).
Proof.
  destruct a; simpl; try tauto; intros _. apply Qcabs_nonneg.
Qed.

(** [1 - Math.min(1, |x - y| / k)] *)
Lemma closeness_in_unit x y k :
  Num.finite x -> Num.finite y -> 0 < k ->
  in_unit (Num.one - Num.min Num.one (Num.abs (x - y) / Fin k)).
Proof.
  intros Hx Hy Hk. apply one_minus_min_in_unit, nonneg_div_pos; auto.
  now apply nonneg_abs_sub.
Qed.

Lemma half_sum_in_unit a b :
  in_unit a -> in_unit b -> in_unit ((a + b) / Num.of_Z 2).
Proof.
  intros Ha Hb.
  apply in_unit_inv in Ha as (x & -> & Hx0 & Hx1).
  apply in_unit_inv in Hb as (y & -> & Hy0 & Hy1).
  simpl. change (Qceqb (Q2Qc (inject_Z 2)) 0) with false. cbn iota.
  change (Q2Qc (inject_Z 2)) with (Q2Qc 2).
  split; qc2q; change (/ 2)%Q with (1 # 2)%Q; lra.
Qed.

(** [Math.max(0, 1 - d / k)] *)
Lemma penalty_in_unit d k :
  nonneg d -> 0 < k -> in_unit (Num.max Num.zero (Num.one - d / Fin k)).
Proof.
  intros Hd Hk. pose proof (nonneg_div_pos d k Hd Hk) as Hn.
  destruct (d / Fin k)%num as [| | |q]; simpl in *; try tauto.
  - split; intros H; discriminate H.
  - change (Q2Qc (inject_Z 0)) with 0. change (Q2Qc (inject_Z 1)) with 1.
    destruct (Qcltb 0 (1 + - q)) eqn:E; qcbool; simpl; split; qclra.
Qed.

Lemma Qcdiv_le_1 t u : 0 < t -> t <= u -> t / u <= 1.
Proof.
  intros Ht Htu. qc2q.
  apply Qle_shift_div_r; [eapply Qlt_le_trans; eauto | lra].
Qed.

Lemma Qcdiv_pos t u : 0 < t -> 0 < u -> 0 < t / u.
Proof.
  intros Ht Hu. qc2q. apply Qlt_shift_div_l; [exact Hu | lra].
Qed.

(** The ratio of the shorter duration to the longer. *)
Lemma duration_ratio_in_unit t u :
  0 < t -> 0 < u ->
  in_unit (Num.min (Fin t / Fin u) (Fin u / Fin t)).
Proof.
  intros Ht Hu.
  assert (Et : Qceqb t 0 = false).
  { qcbool. intros E. rewrite E in Ht. now apply Qclt_not_eq in Ht. }
  assert (Eu : Qceqb u 0 = false).
  { qcbool. intros E. rewrite E in Hu. now apply Qclt_not_eq in Hu. }
  unfold Num.div. rewrite Et, Eu. unfold Num.min, Num.ltb.
  pose proof (Qcdiv_pos t u Ht Hu) as P1.
  pose proof (Qcdiv_pos u t Hu Ht) as P2.
  destruct (Qcltb (u / t) (t / u)) eqn:E; qcbool; simpl.
  - split; [now apply Qclt_le_weak|].
    destruct (Qclt_le_dec t u) as [L|L].
    + exfalso.
      pose proof (Qcdiv_le_1 t u Ht (Qclt_le_weak _ _ L)) as B.
      assert (1 <= u / t).
      { clear E P1 P2 B. qc2q. apply Qle_shift_div_l; [exact Ht | lra]. }
      apply (Qclt_not_le _ _ E). eapply Qcle_trans; eauto.
    + now apply Qcdiv_le_1.
  - split; [now apply Qclt_le_weak|].
    destruct (Qclt_le_dec u t) as [L|L].
    + eapply Qcle_trans; [exact E|].
      apply Qcdiv_le_1; auto. now apply Qclt_le_weak.
    + now apply Qcdiv_le_1.
Qed.

End ComparatorFacts.

Section ScoreFacts.

Local Open Scope Qc_scope.

(** The weighted sum, as the source writes it. *)
Lemma overall_sum t u :
  score_overall (compareProsody t u) =
  (score_f0 (compareProsody t u) * Num.of_Q (25 # 100)
   + score_formants (compareProsody t u) * Num.of_Q (20 # 100)
   + score_intensity (compareProsody t u) * Num.of_Q (15 # 100)
   + score_speakingRate (compareProsody t u) * Num.of_Q (15 # 100)
   + score_pitchRange (compareProsody t u) * Num.of_Q (15 # 100)
   + score_duration (compareProsody t u) * Num.of_Q (10 # 100))%num.
Proof. reflexivity. Qed.


Lemma in_unit_half : in_unit (Num.of_Q (5 # 10)).
Proof. simpl. split; intros H; discriminate H. Qed.

Lemma pitchRange_score_in_unit (tr ur : option PitchRange) :
  match tr with
  | Some r => Num.finite (pr_min r) /\ Num.finite (pr_max r)
  | None => True
  end ->
  match ur with
  | Some r => Num.finite (pr_min r) /\ Num.finite (pr_max r)
  | None => True
  end ->
  in_unit
    match tr, ur with
    | Some tr, Some ur =>
        Num.max Num.zero
          (Num.one
           - Num.abs ((pr_max tr - pr_min tr) - (pr_max ur - pr_min ur))
             / Num.of_Z 100)
    | _, _ => Num.of_Q (5 # 10)
    end.
Proof.
  destruct tr as [tr|], ur as [ur|]; intros Ht Hu;
    try apply in_unit_half.
  destruct Ht, Hu. apply penalty_in_unit; [|reflexivity].
  apply nonneg_abs_sub; now apply finite_sub.
Qed.

(** Every score of two valid bundles is in [[0, 1]]. *)
Lemma compareProsody_in_unit t u :
  valid_bundle t -> valid_bundle u ->
  in_unit (score_f0 (compareProsody t u))
  /\ in_unit (score_formants (compareProsody t u))
  /\ in_unit (score_intensity (compareProsody t u))
  /\ in_unit (score_speakingRate (compareProsody t u))
  /\ in_unit (score_pitchRange (compareProsody t u))
  /\ in_unit (score_duration (compareProsody t u)).
Proof.
  intros Vt Vu. destruct Vt, Vu.
  repeat apply conj.
  - apply dtwSimilarity_in_unit; assumption.
  - apply half_sum_in_unit; apply closeness_in_unit; auto; reflexivity.
  - apply dtwSimilarity_in_unit; now apply normalize_finite.
  - apply penalty_in_unit; [|reflexivity]. now apply nonneg_abs_sub.
  - now apply pitchRange_score_in_unit.
  - destruct valid_duration0 as (dt & Et & Ht).
    destruct valid_duration1 as (du & Eu & Hu).
    cbn [score_duration compareProsody]. rewrite Et, Eu.
    now apply duration_ratio_in_unit.
Qed.

(** The comparator does not depend on the order of its arguments. *)
Lemma compareProsody_sym t u : compareProsody t u = compareProsody u t.
Proof.
  unfold compareProsody.
  rewrite (dtwSimilarity_sym (voiced (f0_values (f0 t)))).
  rewrite (dtwSimilarity_sym (normalize (int_values (intensity t)))).
  rewrite (abs_sub_sym (fs_mean (f1 (formants t)))).
  rewrite (abs_sub_sym (fs_mean (f2 (formants t)))).
  rewrite (abs_sub_sym (syllablesPerSecond (speakingRate t))).
  rewrite (min_comm (duration t / duration u)).
  destruct (pitchRange t) as [tr|], (pitchRange u) as [ur|];
    try reflexivity.
  now rewrite (abs_sub_sym (pr_max tr - pr_min tr)).
Qed.

End ScoreFacts.

Section SelfComparison.

Local Open Scope Qc_scope.

Lemma zero_div_Fin k : k <> 0 -> (Num.zero / Fin k)%num = Num.zero.
Proof.
  intros Hk. unfold Num.zero, Num.of_Z, Num.div.
  apply Qceqb_neq in Hk. rewrite Hk. f_equal.
  change (Q2Qc (inject_Z 0)) with 0. field. now apply Qceqb_neq.
Qed.

Lemma closeness_self x k :
  Num.finite x -> k <> 0 ->
  (Num.one - Num.min Num.one (Num.abs (x - x) / Fin k))%num = Num.one.
Proof.
  intros Hx Hk. rewrite abs_sub_self, zero_div_Fin by assumption.
  apply num_eqb_eq. reflexivity.
Qed.

Lemma penalty_self x k :
  Num.finite x -> k <> 0 ->
  Num.max Num.zero (Num.one - Num.abs (x - x) / Fin k) = Num.one.
Proof.
  intros Hx Hk. rewrite abs_sub_self, zero_div_Fin by assumption.
  apply num_eqb_eq. reflexivity.
Qed.

Lemma duration_ratio_self d :
  d <> 0 -> Num.min (Fin d / Fin d) (Fin d / Fin d) = Num.one.
Proof.
  intros Hd. unfold Num.div.
  pose proof Hd as Hd'. apply Qceqb_neq in Hd'. rewrite Hd'.
  replace (d / d) with 1 by (field; exact Hd).
  apply num_eqb_eq. reflexivity.
Qed.

Lemma Qc_nonzero (k : Qc) : Qceqb k 0 = false -> k <> 0.
Proof. apply Qceqb_neq. Qed.

(** A valid bundle with a voiced frame, an intensity frame and a pitch
    range is scored 1 against itself on every dimension. *)
Lemma compareProsody_self b :
  valid_bundle b ->
  voiced (f0_values (f0 b)) <> [] ->
  int_values (intensity b) <> [] ->
  pitchRange b <> None ->
  compareProsody b b =
  mkScores Num.one Num.one Num.one Num.one Num.one Num.one Num.one.
Proof.
  intros V Hv Hi Hp. destruct V.
  destruct valid_duration0 as (d & Ed & Hd).
  unfold compareProsody.
  rewrite dtwSimilarity_self by assumption.
  rewrite dtwSimilarity_self;
    [| now apply normalize_finite
     | intros E; apply Hi;
       apply length_zero_iff_nil; rewrite <- length_normalize;
       now rewrite E].
  unfold Num.of_Z.
  rewrite !closeness_self by (auto; apply Qc_nonzero; reflexivity).
  rewrite penalty_self by (auto; apply Qc_nonzero; reflexivity).
  rewrite Ed, duration_ratio_self
    by (intros E; rewrite E in Hd; now apply Qclt_not_eq in Hd).
  destruct (pitchRange b) as [r|]; [|congruence].
  destruct valid_pitchRange0.
  rewrite penalty_self
    by (try apply finite_sub; auto; apply Qc_nonzero; reflexivity).
  f_equal; apply num_eqb_eq; reflexivity.
Qed.

End SelfComparison.

(** ** The frame grid *)

Section GridFacts.

Lemma frame_loop_spec fs hop len :
  (0 < hop)%nat ->
  forall fuel i, (len <= i + fuel)%nat ->
  exists n,
    frame_loop fuel i fs hop len
      = Some (map (fun k => (i + k * hop)%nat) (seq 0 n))
    /\ (forall k, (k < n)%nat -> (i + k * hop + fs < len)%nat)
    /\ (len <= i + n * hop + fs)%nat.
Proof.
  intros Hhop. induction fuel as [|fuel IH]; intros i Hfuel.
  - exists 0%nat. simpl.
    destruct (Nat.ltb_spec (i + fs) len); [lia|].
    repeat split; [lia | lia].
  - simpl. destruct (Nat.ltb_spec (i + fs) len) as [Hlt|Hge].
    + destruct (IH (i + hop)%nat) as (n & E & Hin & Hout); [lia|].
      exists (S n). rewrite E. split; [|split].
      * f_equal. cbn [seq map]. f_equal; [lia|].
        rewrite <- seq_shift, map_map. apply map_ext. intros k. lia.
      * intros k Hk. destruct k as [|k]; [lia|].
        specialize (Hin k). lia.
      * lia.
    + exists 0%nat. repeat split; [lia | lia].
Qed.

(** With a hop of zero samples and room for one frame the loop never
    ends. *)
Lemma frame_loop_diverges fs len fuel i :
  (i + fs < len)%nat -> frame_loop fuel i fs 0 len = None.
Proof.
  revert i. induction fuel as [|fuel IH]; intros i Hlt; simpl;
    destruct (Nat.ltb_spec (i + fs) len); try lia; auto.
  rewrite Nat.add_0_r. now rewrite IH.
Qed.

Lemma grid_count len fs hop n :
  (forall k, (k < n)%nat -> (k * hop + fs < len)%nat) ->
  (len <= n * hop + fs)%nat ->
  n = frame_count len fs hop.
Proof.
  intros Hin Hout. unfold frame_count.
  destruct (Nat.ltb_spec fs len) as [Hlt|Hge].
  - destruct n as [|n]; [simpl in Hout; lia|].
    f_equal. specialize (Hin n (Nat.lt_succ_diag_r n)).
    simpl in Hout.
    destruct hop as [|hop]; [lia|].
    apply Nat.div_unique with (r := (len - fs - 1 - n * S hop)%nat); nia.
  - destruct n as [|n]; [reflexivity|].
    specialize (Hin 0%nat). simpl in Hin. lia.
Qed.

(** Whatever the hop, a loop that ends has visited a grid. *)
Lemma frame_loop_some fs hop len :
  forall fuel i l,
    frame_loop fuel i fs hop len = Some l ->
    exists n,
      l = map (fun k => (i + k * hop)%nat) (seq 0 n)
      /\ (forall k, (k < n)%nat -> (i + k * hop + fs < len)%nat)
      /\ (len <= i + n * hop + fs)%nat.
Proof.
  induction fuel as [|fuel IH]; intros i l; simpl;
    destruct (Nat.ltb_spec (i + fs) len) as [Hlt|Hge];
    try discriminate.
  - intros [= <-]. exists 0%nat. repeat split; [lia | lia].
  - destruct (frame_loop fuel (i + hop) fs hop len) as [rest|] eqn:E;
      [|discriminate].
    intros [= <-]. destruct (IH _ _ E) as (n & -> & Hin & Hout).
    exists (S n). split; [|split].
    + cbn [seq map]. f_equal; [lia|].
      rewrite <- seq_shift, map_map. apply map_ext. intros k. lia.
    + intros k Hk. destruct k as [|k]; [lia|].
      specialize (Hin k). lia.
    + lia.
  - intros [= <-]. exists 0%nat. repeat split; [lia | lia].
Qed.

Lemma frame_starts_some samples sr starts :
  frame_starts samples sr = Some starts ->
  starts = grid (hopSize_of sr)
                (frame_count (length samples) (frameSize_of sr)
                             (hopSize_of sr)).
Proof.
  unfold frame_starts. intros E.
  apply frame_loop_some in E as (n & -> & Hin & Hout).
  simpl in Hin, Hout.
  now rewrite <- (grid_count (length samples) (frameSize_of sr)
                             (hopSize_of sr) n Hin Hout).
Qed.

(** The loop fails to end only with a hop of zero samples. *)
Lemma frame_starts_none samples sr :
  frame_starts samples sr = None ->
  hopSize_of sr = 0%nat /\ (frameSize_of sr < length samples)%nat.
Proof.
  intros E. unfold frame_starts in E.
  destruct (Nat.eq_dec (hopSize_of sr) 0) as [H0|Hpos].
  - split; [exact H0|].
    destruct (Nat.ltb_spec (frameSize_of sr) (length samples)); [assumption|].
    exfalso. cbn [frame_loop] in E. rewrite Nat.add_0_l in E.
    destruct (Nat.ltb_spec (frameSize_of sr) (length samples));
      [lia | discriminate].
  - exfalso.
    destruct (frame_loop_spec (frameSize_of sr) (hopSize_of sr)
                (length samples) ltac:(lia) (S (length samples)) 0)
      as (n & E' & _); [lia|].
    congruence.
Qed.

(** More fuel changes nothing: the loop has ended, or never ends. *)
Lemma frame_loop_fuel fs hop len fuel :
  (S len <= fuel)%nat ->
  frame_loop fuel 0 fs hop len = frame_loop (S len) 0 fs hop len.
Proof.
  intros Hfuel. destruct (Nat.eq_dec hop 0) as [->|Hpos].
  - destruct (Nat.lt_ge_cases fs len) as [Hlt|Hge].
    + now rewrite !frame_loop_diverges by lia.
    + destruct fuel as [|fuel]; [lia|]. cbn [frame_loop].
      rewrite Nat.add_0_l.
      destruct (Nat.ltb_spec fs len); [lia | reflexivity].
  - destruct (frame_loop_spec fs hop len ltac:(lia) fuel 0)
      as (n1 & E1 & Hin1 & Hout1); [lia|].
    destruct (frame_loop_spec fs hop len ltac:(lia) (S len) 0)
      as (n2 & E2 & Hin2 & Hout2); [lia|].
    rewrite E1, E2. simpl in *.
    rewrite (grid_count len fs hop n1 Hin1 Hout1).
    now rewrite (grid_count len fs hop n2 Hin2 Hout2).
Qed.

(** With a hop of at least one sample the loop returns the grid. *)
Lemma frame_starts_grid samples sr :
  (0 < hopSize_of sr)%nat ->
  frame_starts samples sr
  = Some (grid (hopSize_of sr)
               (frame_count (length samples) (frameSize_of sr)
                            (hopSize_of sr)))
  /\ (forall i,
        In i (grid (hopSize_of sr)
                   (frame_count (length samples) (frameSize_of sr)
                                (hopSize_of sr))) ->
        (i + frameSize_of sr < length samples)%nat).
Proof.
  intros Hhop. unfold frame_starts.
  destruct (frame_loop_spec (frameSize_of sr) (hopSize_of sr)
              (length samples) Hhop (S (length samples)) 0)
    as (n & E & Hin & Hout); [lia|].
  simpl in Hin, Hout.
  assert (En : n = frame_count (length samples) (frameSize_of sr)
                               (hopSize_of sr))
    by (apply grid_count; auto).
  rewrite E, <- En. split; [reflexivity|].
  unfold grid. intros i Hi. apply in_map_iff in Hi as (k & <- & Hk).
  apply in_seq in Hk. apply Hin. lia.
Qed.

(** A sample rate of 100 Hz or more gives a hop of at least one sample. *)
Lemma hopSize_positive sr :
  (Q2Qc (inject_Z 100) <= sr)%Qc -> (0 < hopSize_of sr)%nat.
Proof.
  intros Hsr. unfold hopSize_of, floor_nat, Qc_floor.
  assert (H1 : (inject_Z 1 <= this (sr * Q2Qc (10 # 1000))%Qc)%Q).
  { qc2q. change (inject_Z 100) with (100 # 1)%Q in Hsr. lra. }
  apply Qfloor_resp_le in H1. rewrite Qfloor_Z in H1. lia.
Qed.

End GridFacts.

(** ** The pitch tracker on silence *)

Section SilenceFacts.

Lemma all_zero_get frame i :
  all_zero frame -> (i < length frame)%nat -> Num.get frame i = Num.zero.
Proof.
  intros H Hi. unfold all_zero in H. rewrite Forall_forall in H.
  apply H. unfold Num.get. now apply nth_In.
Qed.






Lemma get_list_set_eq c i v :
  (i < length c)%nat -> Num.get (list_set c i v) i = v.
Proof. intros. unfold Num.get. now apply nth_list_set_eq. Qed.

Lemma get_list_set_neq c i j v :
  i <> j -> Num.get (list_set c i v) j = Num.get c j.
Proof. intros. unfold Num.get. now apply nth_list_set_neq. Qed.






End SilenceFacts.

(** ** Sorting and selecting the formant candidates *)

Section FormantFacts.

Variable Math : MathLib.

Lemma sort_insert_perm {A : Type} (cmp : A -> A -> num) x l :
  Permutation (x :: l) (sort_insert cmp x l).
Proof.
  induction l as [|y t IH]; cbn [sort_insert]; [reflexivity|].
  destruct (cmp y x >? Num.zero); [reflexivity|].
  rewrite perm_swap. now apply perm_skip.
Qed.

Lemma js_sort_perm_acc {A : Type} (cmp : A -> A -> num) l :
  forall acc,
    Permutation (acc ++ l)
                (fold_left (fun acc x => sort_insert cmp x acc) l acc).
Proof.
  induction l as [|x t IH]; intros acc; cbn [fold_left].
  - now rewrite app_nil_r.
  - rewrite <- IH. rewrite <- sort_insert_perm.
    symmetry. apply Permutation_middle.
Qed.

Lemma js_sort_perm {A : Type} (cmp : A -> A -> num) l :
  Permutation l (js_sort cmp l).
Proof. apply (js_sort_perm_acc cmp l []). Qed.

(** On finite frequencies the comparator [a.freq - b.freq] orders as
    [<=] does. *)
Lemma freq_cmp_gt a b :
  Num.finite (freq a) -> Num.finite (freq b) ->
  (freq a - freq b >? Num.zero) = true -> (freq b <=? freq a) = true.
Proof.
  destruct (freq a) as [| | |x], (freq b) as [| | |y]; simpl; try tauto.
  intros _ _ H. unfold Num.gtb in H. simpl in H.
  change (Q2Qc (inject_Z 0)) with 0%Qc in H. qcbool. qclra.
Qed.

Lemma freq_cmp_le a b :
  Num.finite (freq a) -> Num.finite (freq b) ->
  (freq a - freq b >? Num.zero) = false -> (freq a <=? freq b) = true.
Proof.
  destruct (freq a) as [| | |x], (freq b) as [| | |y]; simpl; try tauto.
  intros _ _ H. unfold Num.gtb in H. simpl in H.
  change (Q2Qc (inject_Z 0)) with 0%Qc in H. qcbool. qclra.
Qed.

Lemma sort_insert_hd (x y : Candidate) l :
  (freq y <=? freq x) = true ->
  HdRel (fun a b => (freq a <=? freq b) = true) y l ->
  HdRel (fun a b => (freq a <=? freq b) = true) y
        (sort_insert (fun a b => freq a - freq b) x l).
Proof.
  intros Hyx Hl. destruct l as [|z t]; cbn [sort_insert].
  - now constructor.
  - destruct (freq z - freq x >? Num.zero); constructor; auto.
    now inversion Hl.
Qed.

Lemma sort_insert_ascending x l :
  Num.finite (freq x) -> Forall (fun c => Num.finite (freq c)) l ->
  ascending l ->
  ascending (sort_insert (fun a b => freq a - freq b) x l).
Proof.
  intros Hx Hl Hs. unfold ascending in *.
  induction Hs as [|y t Ht IH Hhd]; cbn [sort_insert].
  - repeat constructor.
  - inversion Hl as [|? ? Hy Hl']; subst.
    destruct (freq y - freq x >? Num.zero) eqn:E.
    + constructor; [now constructor|].
      constructor. now apply freq_cmp_gt.
    + constructor; [now apply IH|].
      apply sort_insert_hd; auto. now apply freq_cmp_le.
Qed.

Lemma js_sort_ascending_acc l :
  Forall (fun c => Num.finite (freq c)) l ->
  forall acc,
    Forall (fun c => Num.finite (freq c)) acc -> ascending acc ->
    ascending
      (fold_left
         (fun acc x => sort_insert (fun a b => freq a - freq b) x acc)
         l acc).
Proof.
  induction 1 as [|x t Hx Ht IH]; intros acc Hacc Hs; cbn [fold_left];
    auto.
  apply IH.
  - eapply Permutation_Forall; [apply sort_insert_perm|].
    now constructor.
  - now apply sort_insert_ascending.
Qed.

Lemma js_sort_ascending l :
  Forall (fun c => Num.finite (freq c)) l ->
  ascending (js_sort (fun a b => freq a - freq b) l).
Proof.
  intros H. apply js_sort_ascending_acc; auto. constructor.
Qed.

(** What the filter keeps. *)
Lemma root_candidates_In sr root c :
  In c (root_candidates Math sr root) <->
  (imag root >? Num.zero) = true
  /\ c = candidate_of_root Math sr root
  /\ survives c = true.
Proof.
  split.
  - unfold root_candidates. intros H.
    destruct (imag root >? Num.zero); [|destruct H].
    match type of H with
    | In _ (if ?cond then _ else _) => destruct cond eqn:E; [|destruct H]
    end.
    destruct H as [<-|[]]. repeat split. exact E.
  - intros (Hi & -> & Hs). unfold root_candidates. rewrite Hi.
    unfold survives, candidate_of_root in Hs. cbn [freq bandwidth] in Hs.
    rewrite Hs. now left.
Qed.

Lemma formant_candidates_In lpc sr c :
  In c (formant_candidates Math lpc sr) <->
  exists root,
    In root (findPolynomialRoots Math lpc)
    /\ (imag root >? Num.zero) = true
    /\ c = candidate_of_root Math sr root
    /\ survives c = true.
Proof.
  unfold formant_candidates. rewrite in_flat_map.
  split; intros (root & Hin & H); exists root; split; auto;
    now apply root_candidates_In.
Qed.

(** A surviving frequency is a finite number strictly between 200 and
    5000, so it is truthy. *)
Lemma survives_freq c :
  survives c = true ->
  exists q, freq c = Fin q
            /\ (Q2Qc (inject_Z 200) < q)%Qc /\ (q < Q2Qc (inject_Z 5000))%Qc.
Proof.
  unfold survives. intros H.
  apply andb_prop in H as [H Hb]. apply andb_prop in H as [Hlo Hhi].
  unfold Num.gtb in Hlo.
  destruct (freq c) as [| | |q]; simpl in *; try discriminate.
  exists q. qcbool. auto.
Qed.

Lemma survives_truthy c :
  survives c = true -> Num.or_else (freq c) Num.zero = freq c.
Proof.
  intros H. apply survives_freq in H as (q & E & Hlo & _).
  rewrite E. unfold Num.or_else, Num.truthy.
  replace (Qceqb q 0%Qc) with false; [reflexivity|].
  symmetry. qcbool. intros ->. revert Hlo. apply Qcle_not_lt.
  intros H. discriminate H.
Qed.

End FormantFacts.

(** ** The extractors on the frame grid *)

Section ExtractorFacts.

Variable Math : MathLib.

Lemma formant_candidates_finite lpc sr :
  Forall (fun c => Num.finite (freq c)) (formant_candidates Math lpc sr).
Proof.
  apply Forall_forall. intros c Hc.
  apply formant_candidates_In in Hc as (root & _ & _ & _ & Hs).
  apply survives_freq in Hs as (q & -> & _). exact I.
Qed.

(** [formants[k] || 0] is the [k]-th sorted candidate, or 0. *)
Lemma lpcToFormants_slot lpc sr k :
  (k < 3)%nat ->
  formant_slot (lpcToFormants Math lpc sr) k
  = slot_of (js_sort (fun a b => freq a - freq b)
                     (formant_candidates Math lpc sr)) k.
Proof.
  intros Hk. unfold formant_slot, lpcToFormants, slot_of, slice, Num.get.
  cbn [skipn Nat.sub].
  set (sorted := js_sort _ _).
  destruct (nth_error sorted k) as [c|] eqn:E.
  - rewrite nth_error_nth with (x := freq c).
    + apply survives_truthy.
      apply nth_error_In in E.
      apply (Permutation_in _ (Permutation_sym (js_sort_perm _ _))) in E.
      now apply formant_candidates_In in E as (_ & _ & _ & _ & Hs).
    + rewrite nth_error_map, nth_error_firstn.
      apply Nat.ltb_lt in Hk. now rewrite Hk, E.
  - rewrite nth_error_nth_None; [reflexivity|].
    rewrite nth_error_map, nth_error_firstn.
    apply Nat.ltb_lt in Hk. now rewrite Hk, E.
Qed.

Lemma get_map_grid (f : nat -> num) hop n k :
  (k < n)%nat -> Num.get (map f (grid hop n)) k = f (k * hop)%nat.
Proof.
  intros Hk. unfold Num.get, grid.
  rewrite nth_error_nth with (x := f (k * hop)%nat); [reflexivity|].
  rewrite !nth_error_map, nth_error_nth' with (d := 0%nat)
    by now rewrite length_seq.
  now rewrite seq_nth.
Qed.

Lemma length_grid hop n : length (grid hop n) = n.
Proof. unfold grid. now rewrite length_map, length_seq. Qed.

End ExtractorFacts.

(** ** [analyzeAudio] *)

Section AggregatorFacts.

Variable Math : MathLib.
Variable max_spread : nat.
Variable new_AudioContext : AudioContext.

Lemma spread_returns f args :
  (length args <= max_spread)%nat -> spread max_spread f args = inr (f args).
Proof.
  intros H. unfold spread.
  destruct (Nat.ltb_spec max_spread (length args)); [lia | reflexivity].
Qed.

Lemma length_voiced l : (length (voiced l) <= length l)%nat.
Proof. unfold voiced. apply filter_length_le. Qed.

(** The call is rejected when the decoder rejects, and with the decoder's
    error; a decoded buffer is analysed. *)
Lemma analyzeAudio_outcome this blob :
  snd (analyzeAudio Math max_spread new_AudioContext this blob)
  = match decodeAudioData (context_in_use new_AudioContext this) blob with
    | inl e => Rejected e
    | inr audioBuffer =>
        analyzeSamples Math max_spread (channelData0 audioBuffer)
          (rate_in_use new_AudioContext this)
          (buffer_duration audioBuffer)
    end.
Proof.
  unfold analyzeAudio, context_in_use, rate_in_use, initialize.
  destruct this as [[ctx|] rate]; cbn [audioContext sampleRate].
  - now destruct (decodeAudioData ctx blob) as [e|ab].
  - now destruct (decodeAudioData new_AudioContext blob) as [e|ab].
Qed.

(** [extractIntensity] on a grid that ends: it returns when its values can
    be spread, and throws otherwise. *)
Lemma extractIntensity_outcome samples sr :
  (0 < hopSize_of sr)%nat ->
  let n := frame_count (length samples) (frameSize_of sr) (hopSize_of sr) in
  let starts := grid (hopSize_of sr) n in
  let values :=
    map (fun i => frame_dB Math (frame_at samples sr i)) starts in
  extractIntensity Math max_spread samples sr
  = if (max_spread <? n)%nat then Rejected RangeError
    else Resolved (mkIntensityContour values (map (time_of sr) starts)
                     (mean values)
                     (Num.max_list values - Num.min_list values)).
Proof.
  intros Hhop n starts values.
  destruct (frame_starts_grid samples sr Hhop) as [E _].
  unfold extractIntensity, spread. rewrite E. fold n starts values.
  replace (length values) with n
    by (unfold values, starts, grid; now rewrite !length_map, length_seq).
  now destruct (max_spread <? n)%nat.
Qed.

(** On a grid that ends with no more frames than a call takes arguments,
    the four extractors return and the bundle is assembled from them. *)
Lemma analyzeSamples_returns samples sr d :
  (0 < hopSize_of sr)%nat ->
  (frame_count (length samples) (frameSize_of sr) (hopSize_of sr)
   <= max_spread)%nat ->
  exists c_f0 c_fm c_int rate prange,
    extractF0Contour samples sr = Some c_f0
    /\ extractFormants Math samples sr = Some c_fm
    /\ extractIntensity Math max_spread samples sr = Resolved c_int
    /\ estimateSpeakingRate Math max_spread samples sr = Resolved rate
    /\ pitchRange_of max_spread (f0_values c_f0) = inr prange
    /\ analyzeSamples Math max_spread samples sr d
       = Resolved (mkFeatures c_f0 c_fm c_int d rate prange).
Proof.
  intros Hhop Hn.
  pose proof (extractIntensity_outcome samples sr Hhop) as Ei.
  cbv zeta in Ei.
  destruct (Nat.ltb_spec max_spread
              (frame_count (length samples) (frameSize_of sr)
                 (hopSize_of sr))) as [Hlt|_]; [lia|].
  destruct (frame_starts_grid samples sr Hhop) as [E _].
  unfold analyzeSamples, estimateSpeakingRate. rewrite Ei.
  unfold extractF0Contour, extractFormants. rewrite E.
  cbv beta iota zeta. cbn [f0_values].
  set (f0v := map (fun i => yinPitchDetection _ _ _ _) (grid _ _)).
  assert (Hv : (length (voiced f0v) <= max_spread)%nat).
  { eapply Nat.le_trans; [apply length_voiced|].
    unfold f0v, grid. now rewrite !length_map, length_seq. }
  assert (Ep : exists prange, pitchRange_of max_spread f0v = inr prange).
  { unfold pitchRange_of.
    destruct (0 <? length (voiced f0v))%nat; [|eauto].
    rewrite !spread_returns by exact Hv. eauto. }
  destruct Ep as [prange Ep]. rewrite Ep.
  do 5 eexists. repeat split; try reflexivity. exact Ep.
Qed.




(** What every returned bundle satisfies. *)
Lemma analyzeSamples_shape samples sr d b :
  analyzeSamples Math max_spread samples sr d = Resolved b ->
  pitchRange_of max_spread (f0_values (f0 b)) = inr (pitchRange b)
  /\ length (int_values (intensity b)) = length (f0_values (f0 b))
  /\ duration b = d.
Proof.
  unfold analyzeSamples, estimateSpeakingRate, extractF0Contour,
    extractFormants, extractIntensity.
  destruct (frame_starts samples sr) as [starts|]; [|discriminate].
  destruct (spread _ Num.max_list _) as [e|mx]; [discriminate|].
  destruct (spread _ Num.min_list _) as [e|mn]; [discriminate|].
  cbn [f0_values].
  destruct (pitchRange_of _ _) as [e|prange] eqn:Ep; [discriminate|].
  intros [= <-]. cbn. repeat split; [exact Ep|]. now rewrite !length_map.
Qed.

Lemma pitchRange_of_voiced values :
  voiced values <> [] -> pitchRange_of max_spread values <> inr None.
Proof.
  intros H. unfold pitchRange_of, spread.
  destruct (voiced values) as [|v t]; [congruence|].
  cbn [length Nat.ltb Nat.leb].
  destruct (Nat.leb _ _); discriminate.
Qed.

Lemma pitchRange_of_unvoiced values :
  voiced values = [] -> pitchRange_of max_spread values = inr None.
Proof. intros H. unfold pitchRange_of. now rewrite H. Qed.

(** The pitch prange of a bundle, when there is one. *)
Lemma pitchRange_of_some values r :
  pitchRange_of max_spread values = inr (Some r) ->
  voiced values <> []
  /\ r = mkPitchRange
           (Num.min_list (voiced values))
           (Num.max_list (voiced values))
           (fold_left Num.add (voiced values) Num.zero
            / Num.of_nat (length (voiced values)))
           (calculateVariance (voiced values)).
Proof.
  unfold pitchRange_of, spread.
  destruct (voiced values) as [|v t]; [discriminate|].
  cbn [length]. change (0 <? S (length t))%nat with true. cbv beta iota.
  destruct (max_spread <? S (length t))%nat; [discriminate|].
  intros [= <-]. split; [discriminate | reflexivity].
Qed.



End AggregatorFacts.

(** ** Which numbers of a bundle are finite by construction *)

Section BundleFacts.

Local Open Scope Qc_scope.

Variable Math : MathLib.
Variable max_spread : nat.

Lemma finite_fold_add l a :
  Forall Num.finite l -> Num.finite a ->
  Num.finite (fold_left Num.add l a).
Proof.
  intros H. revert a. induction H as [|h t Hh Ht IH]; intros a Ha; simpl; auto.
  apply IH. now apply finite_add.
Qed.

Lemma mean_finite l : Forall Num.finite l -> Num.finite (mean l).
Proof.
  intros H. unfold mean.
  destruct (Nat.eqb_spec (length l) 0) as [E|E]; [exact I|].
  apply finite_div.
  - intros E0. pose proof (Qc_of_nat_pos (length l) ltac:(lia)) as P.
    rewrite E0 in P. now apply Qclt_not_eq in P.
  - apply finite_fold_add; [assumption | exact I].
Qed.

Lemma voiced_finite l : Forall Num.finite l -> Forall Num.finite (voiced l).
Proof.
  intros H. unfold voiced. apply Forall_forall. intros x Hx.
  apply filter_In in Hx as [Hx _]. rewrite Forall_forall in H. auto.
Qed.

Lemma slot_of_finite lpc sr k :
  Num.finite
    (slot_of (js_sort (fun a b => (freq a - freq b)%num)
                      (formant_candidates Math lpc sr)) k).
Proof.
  unfold slot_of.
  destruct (nth_error _ k) as [c|] eqn:E; [|exact I].
  apply nth_error_In in E.
  apply (Permutation_in _ (Permutation_sym (js_sort_perm _ _))) in E.
  pose proof (formant_candidates_finite Math lpc sr) as F.
  rewrite Forall_forall in F. now apply F.
Qed.

(** A formant series has a finite mean, whatever [Math] answers. *)
Lemma formant_mean_finite (starts : list nat) samples sr k :
  (k < 3)%nat ->
  Num.finite
    (mean (voiced (map (fun fm => formant_slot fm k)
                       (map (frame_formants Math samples sr) starts)))).
Proof.
  intros Hk. apply mean_finite, voiced_finite.
  rewrite map_map. apply Forall_map, Forall_forall. intros i _.
  unfold frame_formants. rewrite lpcToFormants_slot by exact Hk.
  apply slot_of_finite.
Qed.

Lemma div_Fin q k : k <> 0 -> (Fin q / Fin k)%num = Fin (q / k).
Proof.
  intros Hk. unfold Num.div. apply Qceqb_neq in Hk. now rewrite Hk.
Qed.

(** [peaks.length / (samples.length / sampleRate)] *)
Lemma rate_finite peaks len sr :
  0 < sr -> (0 < len)%nat ->
  Num.finite (Num.of_nat peaks / (Num.of_nat len / Fin sr)).
Proof.
  intros Hhop Hlen.
  assert (Hsr : sr <> 0).
  { intros E0. rewrite E0 in Hhop. now apply Qclt_not_eq in Hhop. }
  unfold Num.of_nat. rewrite (div_Fin _ sr Hsr).
  apply finite_div; [|exact I].
  intros E0. apply Qcmult_integral in E0 as [E0|E0].
  - pose proof (Qc_of_nat_pos len Hlen) as P.
    rewrite E0 in P. now apply Qclt_not_eq in P.
  - pose proof (Qcmult_inv_r sr Hsr) as Hinv.
    rewrite E0, Qcmult_0_r in Hinv. discriminate Hinv.
Qed.

(** A positive hop needs a positive sample rate. *)
Lemma hop_positive_rate sr : (0 < hopSize_of sr)%nat -> 0 < sr.
Proof.
  unfold hopSize_of, floor_nat, Qc_floor. intros H.
  assert (Hz : (0 < Qfloor (this (sr * Q2Qc (10 # 1000))))%Z) by lia.
  pose proof (Qfloor_le (this (sr * Q2Qc (10 # 1000)))) as Hle.
  assert (Hq : (0 < this (sr * Q2Qc (10 # 1000)))%Q).
  { eapply Qlt_le_trans; [|exact Hle].
    change 0%Q with (inject_Z 0). now rewrite <- Zlt_Qlt. }
  clear Hle Hz H. qc2q. lra.
Qed.

(** The bundle of a buffer with a frame is valid as soon as its voiced F0
    values and its intensities are finite and its duration is positive. *)
Lemma analyzeSamples_valid samples sr d b :
  analyzeSamples Math max_spread samples sr d = Resolved b ->
  f0_values (f0 b) <> [] ->
  Forall Num.finite (voiced (f0_values (f0 b))) ->
  Forall Num.finite (int_values (intensity b)) ->
  (exists q, d = Fin q /\ 0 < q) ->
  valid_bundle b.
Proof.
  unfold analyzeSamples, estimateSpeakingRate, extractF0Contour,
    extractFormants, extractIntensity.
  destruct (frame_starts samples sr) as [starts|] eqn:E; [|discriminate].
  destruct (spread _ Num.max_list _) as [e|mx]; [discriminate|].
  destruct (spread _ Num.min_list _) as [e|mn]; [discriminate|].
  cbn [f0_values].
  destruct (pitchRange_of _ _) as [e|prange] eqn:Ep; [discriminate|].
  intros [= <-]. cbn [f0 f0_values intensity int_values].
  intros Hne Hf0 Hint Hd.
  assert (Hstarts : starts <> []) by (intros ->; now apply Hne).
  assert (Hhop : (0 < hopSize_of sr)%nat /\ (0 < length samples)%nat).
  { pose proof (frame_starts_some _ _ _ E) as Eg.
    unfold frame_count in Eg.
    destruct (Nat.ltb_spec (frameSize_of sr) (length samples)) as [Hlt|Hge];
      [|subst starts; now contradiction Hstarts].
    split; [|lia].
    destruct (Nat.eq_dec (hopSize_of sr) 0) as [H0|]; [|lia].
    exfalso. unfold frame_starts in E. rewrite H0 in E.
    rewrite frame_loop_diverges in E by lia. discriminate E. }
  destruct Hhop as [Hhop Hlen]. apply hop_positive_rate in Hhop.
  constructor; cbn [f0 f0_values formants f1 f2 fs_mean intensity int_values
                    speakingRate syllablesPerSecond pitchRange duration].
  - exact Hf0.
  - apply formant_mean_finite. lia.
  - apply formant_mean_finite. lia.
  - exact Hint.
  - now apply rate_finite.
  - destruct prange as [r|]; [|exact I].
    apply pitchRange_of_some in Ep as [Hv ->]. cbn [pr_min pr_max].
    destruct (voiced _) as [|v t]; [congruence|].
    split; [now apply finite_min_list | now apply finite_max_list].
  - exact Hd.
Qed.

End BundleFacts.

(** ** Bundles without a voiced frame *)

Section UnvoicedFacts.

Local Open Scope Qc_scope.

(** A bundle of [analyzeAudio] without a voiced frame has no pitch range:
    compared with itself it scores 0 on f0 and 0.5 on pitchRange, and at
    most 0.675 overall. *)
Lemma unvoiced_self_comparison (Math : MathLib) (max_spread : nat)
  (ctx : AudioContext) (this : ProsodyAnalyzer) (blob : list Byte.byte)
  (b : Features) :
  snd (analyzeAudio Math max_spread ctx this blob) = Resolved b ->
  voiced (f0_values (f0 b)) = [] ->
  valid_bundle b ->
  score_f0 (compareProsody b b) = Num.zero
  /\ score_pitchRange (compareProsody b b) = Num.of_Q (5 # 10)
  /\ exists q,
       score_overall (compareProsody b b) = Fin q
       /\ q <= Q2Qc (675 # 1000).
Proof.
  intros Hres Hv V. rewrite analyzeAudio_outcome in Hres.
  destruct (decodeAudioData _ blob) as [e|ab]; [discriminate|].
  apply analyzeSamples_shape in Hres as (Hp & _ & _).
  rewrite (pitchRange_of_unvoiced _ _ Hv) in Hp.
  injection Hp as Hp. symmetry in Hp.
  assert (E0 : score_f0 (compareProsody b b) = Num.zero).
  { cbn [compareProsody score_f0]. now rewrite Hv. }
  assert (E5 : score_pitchRange (compareProsody b b) = Num.of_Q (5 # 10)).
  { cbn [compareProsody score_pitchRange]. now rewrite Hp. }
  split; [exact E0|]. split; [exact E5|].
  destruct (compareProsody_in_unit b b V V)
    as (_ & H2 & H3 & H4 & _ & H6).
  rewrite overall_sum, E0, E5.
  apply in_unit_inv in H2 as (q2 & -> & ? & ?).
  apply in_unit_inv in H3 as (q3 & -> & ? & ?).
  apply in_unit_inv in H4 as (q4 & -> & ? & ?).
  apply in_unit_inv in H6 as (q6 & -> & ? & ?).
  eexists. split; [reflexivity|]. qclra.
Qed.

End UnvoicedFacts.

(** ** The loops of the pitch tracker end *)

Section LoopFacts.

(** Fuel beyond the last lag changes nothing. *)
Lemma yin_descend_fuel cmndf maxLag :
  forall fuel1 fuel2 tau,
    (maxLag <= tau + 1 + fuel1)%nat -> (maxLag <= tau + 1 + fuel2)%nat ->
    yin_descend fuel1 cmndf maxLag tau = yin_descend fuel2 cmndf maxLag tau.
Proof.
  induction fuel1 as [|fuel1 IH]; intros fuel2 tau H1 H2.
  - destruct fuel2 as [|fuel2]; [reflexivity|]. cbn [yin_descend].
    destruct (Nat.ltb_spec (tau + 1) maxLag); [lia | reflexivity].
  - cbn [yin_descend].
    destruct (Nat.ltb_spec (tau + 1) maxLag) as [Hlt|Hge].
    + destruct fuel2 as [|fuel2]; [lia|]. cbn [yin_descend].
      destruct (Nat.ltb_spec (tau + 1) maxLag); [|lia]. cbn [andb].
      destruct (Num.get cmndf (tau + 1) <? Num.get cmndf tau);
        [|reflexivity].
      apply IH; lia.
    + destruct fuel2 as [|fuel2]; [reflexivity|]. cbn [yin_descend].
      destruct (Nat.ltb_spec (tau + 1) maxLag); [lia | reflexivity].
Qed.

Lemma yin_scan_fuel cmndf threshold maxLag :
  forall fuel1 fuel2 tau,
    (maxLag <= tau + 1 + fuel1)%nat -> (maxLag <= tau + 1 + fuel2)%nat ->
    yin_scan fuel1 cmndf threshold maxLag tau
    = yin_scan fuel2 cmndf threshold maxLag tau.
Proof.
  induction fuel1 as [|fuel1 IH]; intros fuel2 tau H1 H2.
  - destruct fuel2 as [|fuel2]; [reflexivity|]. cbn [yin_scan].
    destruct (Nat.ltb_spec (tau + 1) maxLag); [lia | reflexivity].
  - cbn [yin_scan].
    destruct (Nat.ltb_spec (tau + 1) maxLag) as [Hlt|Hge].
    + destruct fuel2 as [|fuel2]; [lia|]. cbn [yin_scan].
      destruct (Nat.ltb_spec (tau + 1) maxLag); [|lia].
      destruct (Num.get cmndf tau <? threshold); [reflexivity|].
      apply IH; lia.
    + destruct fuel2 as [|fuel2]; [reflexivity|]. cbn [yin_scan].
      destruct (Nat.ltb_spec (tau + 1) maxLag); [lia | reflexivity].
Qed.

End LoopFacts.

(** ** Formant slots *)

Lemma extractFormants_grid (Math : MathLib) (samples : list num) (sr : Qc)
  (fc : FormantContour) :
  extractFormants Math samples sr = Some fc ->
  let starts :=
    grid (hopSize_of sr)
         (frame_count (length samples) (frameSize_of sr) (hopSize_of sr)) in
  fs_values (f1 fc)
  = map (fun i => formant_slot (frame_formants Math samples sr i) 0) starts
  /\ fs_values (f2 fc)
     = map (fun i => formant_slot (frame_formants Math samples sr i) 1)
           starts
  /\ fs_values (f3 fc)
     = map (fun i => formant_slot (frame_formants Math samples sr i) 2)
           starts.
Proof.
  unfold extractFormants.
  destruct (frame_starts samples sr) as [starts|] eqn:E; [|discriminate].
  apply frame_starts_some in E. subst starts.
  intros [= <-]. cbn [fs_values f1 f2 f3]. now rewrite !map_map.
Qed.

Section SlotOrder.

Lemma leb_trans a b c :
  (a <=? b) = true -> (b <=? c) = true -> (a <=? c) = true.
Proof.
  destruct a as [| | |x], b as [| | |y], c as [| | |z]; simpl;
    try congruence.
  intros H1 H2. qcbool. eapply Qcle_trans; eauto.
Qed.

Lemma ascending_nth_error l :
  ascending l ->
  forall j1 j2 a b,
    (j1 < j2)%nat -> nth_error l j1 = Some a -> nth_error l j2 = Some b ->
    (freq a <=? freq b) = true.
Proof.
  intros Hs. apply Sorted_StronglySorted in Hs;
    [|intros x y z; apply leb_trans].
  induction Hs as [|h t Ht IH Hh]; intros j1 j2 a b Hlt H1 H2.
  - destruct j1; discriminate.
  - destruct j2 as [|j2]; [lia|]. cbn [nth_error] in H2.
    destruct j1 as [|j1]; cbn [nth_error] in H1.
    + injection H1 as <-. rewrite Forall_forall in Hh.
      apply Hh. eapply nth_error_In; eauto.
    + apply (IH j1 j2 a b); [lia | assumption | assumption].
Qed.

Lemma slot_of_nonzero l j :
  slot_of l j <> Num.zero -> exists c, nth_error l j = Some c.
Proof.
  unfold slot_of. destruct (nth_error l j) as [c|]; [eauto|congruence].
Qed.

Lemma nth_error_below {A : Type} (l : list A) j1 j2 b :
  (j1 < j2)%nat -> nth_error l j2 = Some b ->
  exists a, nth_error l j1 = Some a.
Proof.
  intros Hlt H. destruct (nth_error l j1) as [a|] eqn:E; [eauto|].
  apply nth_error_None in E.
  assert (nth_error l j2 = None) by (apply nth_error_None; lia).
  congruence.
Qed.

End SlotOrder.

(** ** The concrete bundles *)

Lemma tone_bundle_valid : valid_bundle tone_bundle.
Proof.
  constructor.
  - vm_compute. repeat constructor.
  - vm_compute. exact I.
  - vm_compute. exact I.
  - vm_compute. repeat constructor.
  - vm_compute. exact I.
  - vm_compute. split; exact I.
  - exists (Q2Qc (3 # 100)). split; [|reflexivity].
    apply num_eqb_eq. vm_compute. reflexivity.
Qed.


(** ** The model at work *)

Section Examples.

(** At 44100 Hz a frame is 1102 samples and the hop 441. *)
Example frame_grid_44100 :
  frameSize_of (Q2Qc (inject_Z 44100)) = 1102%nat
  /\ hopSize_of (Q2Qc (inject_Z 44100)) = 441%nat.
Proof. split; vm_compute; reflexivity. Qed.

(** 2000 samples at 44100 Hz: frames at samples 0, 441 and 882. *)
Example frame_starts_2000 :
  frame_starts (repeat Num.zero 2000) (Q2Qc (inject_Z 44100))
  = Some [0; 441; 882]%nat.
Proof. vm_compute. reflexivity. Qed.

(** A ramp against its reverse. *)
Example dtwSimilarity_reversed :
  dtwSimilarity [Num.of_Z 1; Num.of_Z 2; Num.of_Z 3]
                [Num.of_Z 3; Num.of_Z 2; Num.of_Z 1]
  = Num.of_Q (1 # 3).
Proof. apply num_eqb_eq. vm_compute. reflexivity. Qed.

(** The tone of [tone_blob] is tracked between 100 and 101 Hz. *)
Example tone_is_voiced :
  (Num.of_Z 100 <? Num.get (f0_values (f0 tone_bundle)) 0) = true
  /\ (Num.get (f0_values (f0 tone_bundle)) 0 <? Num.of_Z 101) = true
  /\ length (f0_values (f0 tone_bundle)) = 1%nat.
Proof. repeat split; vm_compute; reflexivity. Qed.

(** Under 100 Hz the analysis of three samples never ends. *)
Example analyzeAudio_diverges_at_50Hz :
  snd (analyzeAudio Math_standin spread_standin
                    (pcm_context (Q2Qc (inject_Z 50)))
                    new_ProsodyAnalyzer [b_zero; b_zero; b_zero])
  = Diverged.
Proof. vm_compute. reflexivity. Qed.

End Examples.

(** * The claims of the specification *)

(** ** Time-series alignment *)




(** C7. If either sequence given to [dtwSimilarity] is empty the similarity
    is 0; so in [compareProsody], when the voiced F0 values of either
    bundle are empty, the f0 score is 0, and a score set is returned. *)
Theorem empty_sequence_scores_zero (seq1 seq2 : list num) :
  seq1 = [] \/ seq2 = [] ->
  dtwSimilarity seq1 seq2 = Num.zero
  /\ forall t u : Features,
       voiced (f0_values (f0 t)) = seq1 ->
       voiced (f0_values (f0 u)) = seq2 ->
       exists scores,
         compareProsody t u = scores /\ score_f0 scores = Num.zero.
Proof.
  intros H.
  assert (E : dtwSimilarity seq1 seq2 = Num.zero).
  { destruct H as [-> | ->];
      [apply dtwSimilarity_empty_l | apply dtwSimilarity_empty_r]. }
  split; [exact E|].
  intros t u Ht Hu. eexists. split; [reflexivity|].
  cbn [compareProsody score_f0]. now rewrite Ht, Hu.
Qed.

Lemma empty_sequence_scores_zero_witness :
  dtwSimilarity [] [Num.of_Z 120; Num.of_Z 130] = Num.zero
  /\ forall t u : Features,
       voiced (f0_values (f0 t)) = [] ->
       voiced (f0_values (f0 u)) = [Num.of_Z 120; Num.of_Z 130] ->
       exists scores,
         compareProsody t u = scores /\ score_f0 scores = Num.zero.
Proof.
  apply (empty_sequence_scores_zero [] [Num.of_Z 120; Num.of_Z 130]).
  left. reflexivity.
Defined.

(** ** The comparator *)

(** C10. [compareProsody] is symmetric: exchanging the two bundles changes
    no per-dimension score and not the overall score. *)
Theorem compareProsody_symmetric (a b : Features) :
  score_f0 (compareProsody a b) = score_f0 (compareProsody b a)
  /\ score_formants (compareProsody a b)
     = score_formants (compareProsody b a)
  /\ score_intensity (compareProsody a b)
     = score_intensity (compareProsody b a)
  /\ score_speakingRate (compareProsody a b)
     = score_speakingRate (compareProsody b a)
  /\ score_pitchRange (compareProsody a b)
     = score_pitchRange (compareProsody b a)
  /\ score_duration (compareProsody a b)
     = score_duration (compareProsody b a)
  /\ score_overall (compareProsody a b)
     = score_overall (compareProsody b a).
Proof.
  rewrite (compareProsody_sym a b). repeat split.
Qed.



(** C1, as the specification states it, fails: the bundle of a buffer
    shorter than one frame has no voiced frame and no pitch range, so f0
    scores 0, pitchRange scores the neutral 0.5, and the bundle compared
    with itself gets 0.525 overall. *)
Lemma self_similarity_counterexample :
  ~ (forall (Math : MathLib) (max_spread : nat) (ctx : AudioContext)
            (this : ProsodyAnalyzer) (blob : list Byte.byte) (b : Features),
        snd (analyzeAudio Math max_spread ctx this blob) = Resolved b ->
        (Num.of_Q (95 # 100) <=? score_overall (compareProsody b b)) = true).
Proof.
  intros H.
  specialize (H Math_standin spread_standin
                (pcm_context (Q2Qc (inject_Z 44100)))
                new_ProsodyAnalyzer tiny_blob tiny_bundle).
  assert (E : score_overall (compareProsody tiny_bundle tiny_bundle)
              = Num.of_Q (525 # 1000))
    by (apply num_eqb_eq; vm_compute; reflexivity).
  rewrite E in H.
  assert (R : snd (analyzeAudio Math_standin spread_standin
                     (pcm_context (Q2Qc (inject_Z 44100)))
                     new_ProsodyAnalyzer tiny_blob)
              = Resolved tiny_bundle)
    by (vm_compute; reflexivity).
  specialize (H R). vm_compute in H. discriminate H.
Qed.

(** C1, amended.  For every bundle that [analyzeAudio] produces with at
    least one voiced frame, finite voiced F0 values, finite intensities and
    a positive duration, [compareProsody] of the bundle with itself gives
    an overall score of exactly 1, which is at least 0.95. *)
Theorem self_similarity_of_voiced_bundle (Math : MathLib)
  (max_spread : nat) (ctx : AudioContext) (this : ProsodyAnalyzer)
  (blob : list Byte.byte) (b : Features) :
  snd (analyzeAudio Math max_spread ctx this blob) = Resolved b ->
  voiced (f0_values (f0 b)) <> [] ->
  Forall Num.finite (voiced (f0_values (f0 b))) ->
  Forall Num.finite (int_values (intensity b)) ->
  (exists d, duration b = Fin d /\ (0 < d)%Qc) ->
  score_overall (compareProsody b b) = Num.one
  /\ (Num.of_Q (95 # 100) <=? score_overall (compareProsody b b)) = true.
Proof.
  intros Hres Hv Ff0 Fint Hd. rewrite analyzeAudio_outcome in Hres.
  destruct (decodeAudioData _ blob) as [e|ab]; [discriminate|].
  pose proof (analyzeSamples_shape _ _ _ _ _ _ Hres) as (Hp & Hlen & Hdur).
  assert (Hf0 : f0_values (f0 b) <> []).
  { intros E. apply Hv. now rewrite E. }
  assert (V : valid_bundle b).
  { apply (analyzeSamples_valid _ _ _ _ _ _ Hres); auto.
    now rewrite <- Hdur. }
  assert (Hpr : pitchRange b <> None).
  { intros E. rewrite E in Hp.
    now apply (pitchRange_of_voiced max_spread _ Hv). }
  assert (Hint : int_values (intensity b) <> []).
  { intros E. apply Hf0. apply length_zero_iff_nil.
    rewrite <- Hlen, E. reflexivity. }
  rewrite compareProsody_self by assumption.
  split; reflexivity.
Qed.

Lemma self_similarity_of_voiced_bundle_witness :
  score_overall (compareProsody tone_bundle tone_bundle) = Num.one
  /\ (Num.of_Q (95 # 100)
      <=? score_overall (compareProsody tone_bundle tone_bundle)) = true.
Proof.
  apply (self_similarity_of_voiced_bundle
           Math_standin spread_standin (pcm_context (Q2Qc (inject_Z 400)))
           new_ProsodyAnalyzer tone_blob tone_bundle).
  - vm_compute. reflexivity.
  - vm_compute. discriminate.
  - vm_compute. repeat constructor.
  - vm_compute. repeat constructor.
  - exists (Q2Qc (3 # 100)). split; [|reflexivity].
    apply num_eqb_eq. vm_compute. reflexivity.
Defined.

(** ** The feature aggregator *)







(** ** The extractors *)

(** C6. For every sample buffer and every sample rate, the contours that
    are extracted have the same number of frames and the same time grid:
    frame [k] starts at sample [k * hopSize] and is stamped
    [k * hopSize / sampleRate], with
    [frameSize = floor(0.025 * sampleRate)] and
    [hopSize = floor(0.010 * sampleRate)].  The F0 contour and the three
    formant series are extracted together; the intensity contour is
    extracted with them unless there are more frames than the engine lets
    a call spread, and then [extractIntensity] throws a [RangeError].  No
    contour is returned when the frame loop does not end, which happens
    only under 100 Hz, where the hop is zero samples. *)
Theorem contours_share_frame_grid (Math : MathLib) (max_spread : nat)
  (samples : list num) (sr : Qc) :
  let n := frame_count (length samples) (frameSize_of sr) (hopSize_of sr) in
  let times := map (time_of sr) (grid (hopSize_of sr) n) in
  match extractF0Contour samples sr,
        extractFormants Math samples sr,
        extractIntensity Math max_spread samples sr with
  | Some c_f0, Some c_fm, Resolved c_int =>
      (n <= max_spread)%nat
      /\ length (f0_values c_f0) = n
      /\ length (fs_values (f1 c_fm)) = n
      /\ length (fs_values (f2 c_fm)) = n
      /\ length (fs_values (f3 c_fm)) = n
      /\ length (int_values c_int) = n
      /\ f0_times c_f0 = times
      /\ formant_times c_fm = times
      /\ int_times c_int = times
  | Some c_f0, Some c_fm, Rejected e =>
      e = RangeError
      /\ (max_spread < n)%nat
      /\ length (f0_values c_f0) = n
      /\ length (fs_values (f1 c_fm)) = n
      /\ length (fs_values (f2 c_fm)) = n
      /\ length (fs_values (f3 c_fm)) = n
      /\ f0_times c_f0 = times
      /\ formant_times c_fm = times
  | None, None, Diverged => (sr < Q2Qc (inject_Z 100))%Qc
  | _, _, _ => False
  end.
Proof.
  intros n times.
  unfold extractF0Contour, extractFormants, extractIntensity.
  destruct (frame_starts samples sr) as [starts|] eqn:E.
  - apply frame_starts_some in E. subst starts.
    unfold spread. rewrite !length_map, length_grid. fold n.
    destruct (Nat.ltb_spec max_spread n) as [Hlt|Hge];
      cbn [f0_values fs_values f1 f2 f3 int_values f0_times formant_times
           int_times];
      rewrite !length_map, length_grid; repeat split; assumption.
  - apply frame_starts_none in E as [H0 _].
    apply Qcnot_le_lt. intros Hsr. apply hopSize_positive in Hsr. lia.
Qed.

(** C8. For every array of LPC coefficients, and so for the coefficients
    of every frame, each reported formant F1, F2, F3 is 0 (missing slot) or
    the frequency of a candidate computed from a root with positive
    imaginary part, strictly between 200 and 5000 Hz and with a bandwidth
    under 500 Hz; a reported formant that is not 0 is at least the ones
    before it; and F1, F2, F3 are the first three of the surviving
    candidates sorted by ascending frequency.  The values of frame [k] in
    the three formant series are the F1, F2, F3 of the coefficients of the
    frame that starts at sample [k * hopSize]. *)
Theorem formants_are_lowest_surviving_candidates (Math : MathLib) (sr : Qc)
  (lpc : list num) :
  let sorted :=
    js_sort (fun a b => freq a - freq b) (formant_candidates Math lpc sr) in
  let F := fun j => formant_slot (lpcToFormants Math lpc sr) j in
  Permutation (formant_candidates Math lpc sr) sorted
  /\ ascending sorted
  /\ (forall c,
        In c sorted <->
        exists root,
          In root (findPolynomialRoots Math lpc)
          /\ (imag root >? Num.zero) = true
          /\ c = candidate_of_root Math sr root
          /\ (freq c >? Num.of_Z 200) = true
          /\ (freq c <? Num.of_Z 5000) = true
          /\ (bandwidth c <? Num.of_Z 500) = true)
  /\ (forall j, (j < 3)%nat -> F j = slot_of sorted j)
  /\ (forall j, (j < 3)%nat ->
        F j = Num.zero \/ exists c, In c sorted /\ F j = freq c)
  /\ (forall j1 j2, (j1 < j2 < 3)%nat -> F j2 <> Num.zero ->
        (F j1 <=? F j2) = true)
  /\ (forall samples fc k,
        extractFormants Math samples sr = Some fc ->
        (k < frame_count (length samples) (frameSize_of sr)
                         (hopSize_of sr))%nat ->
        lpc = frame_lpc Math samples sr (k * hopSize_of sr) ->
        Num.get (fs_values (f1 fc)) k = F 0%nat
        /\ Num.get (fs_values (f2 fc)) k = F 1%nat
        /\ Num.get (fs_values (f3 fc)) k = F 2%nat).
Proof.
  intros sorted F.
  assert (HF : forall j, (j < 3)%nat -> F j = slot_of sorted j).
  { intros j Hj. now apply lpcToFormants_slot. }
  assert (Hperm : Permutation (formant_candidates Math lpc sr) sorted)
    by apply js_sort_perm.
  assert (Hasc : ascending sorted)
    by apply js_sort_ascending, formant_candidates_finite.
  split; [exact Hperm|]. split; [exact Hasc|].
  split; [|split; [|split; [|split]]].
  - intros c. split.
    + intros Hc. apply (Permutation_in _ (Permutation_sym Hperm)) in Hc.
      destruct (proj1 (formant_candidates_In Math lpc sr c) Hc)
        as (root & Hin & Him & Ec & Hs).
      exists root. unfold survives in Hs.
      apply andb_prop in Hs as [Hs Hb]. apply andb_prop in Hs as [Hlo Hhi].
      repeat (split; [assumption|]). assumption.
    + intros (root & Hin & Him & Ec & Hlo & Hhi & Hb).
      apply (Permutation_in _ Hperm).
      apply (proj2 (formant_candidates_In Math lpc sr c)).
      exists root. unfold survives. rewrite Hlo, Hhi, Hb.
      repeat (split; [assumption|]). reflexivity.
  - exact HF.
  - intros j Hj. rewrite (HF j Hj). unfold slot_of.
    destruct (nth_error sorted j) as [c|] eqn:Ej; [|left; reflexivity].
    right. exists c. split; [|reflexivity].
    exact (nth_error_In sorted j Ej).
  - intros j1 j2 [Hj1 Hj2] Hnz.
    rewrite (HF j2 Hj2) in Hnz.
    rewrite (HF j2 Hj2), (HF j1 (Nat.lt_trans _ _ _ Hj1 Hj2)).
    apply slot_of_nonzero in Hnz as (b & Eb).
    destruct (nth_error_below sorted j1 j2 b Hj1 Eb) as (a & Ea).
    unfold slot_of. rewrite Ea, Eb.
    exact (ascending_nth_error sorted Hasc j1 j2 a b Hj1 Ea Eb).
  - intros samples fc k E Hk ->.
    destruct (extractFormants_grid Math samples sr fc E) as (E1 & E2 & E3).
    unfold F. rewrite E1, E2, E3, !get_map_grid by exact Hk.
    unfold frame_formants, frame_lpc. cbv zeta.
    split; [reflexivity|]. split; reflexivity.
Qed.

(** With [Math_rational] at 2000 Hz, the coefficients [start_lpc] have
    five roots above the real axis, at 30, 60, 90, 120 and 150 degrees.
    The first gives 166 Hz and is filtered out; the others give 334, 500,
    666 and 834 Hz, of which the first three are reported.  And the one
    frame of [tone_samples] reports the formants of its coefficients. *)
Lemma formants_are_lowest_surviving_candidates_witness :
  (let fs :=
     lpcToFormants Math_rational start_lpc (Q2Qc (inject_Z 2000)) in
   (Num.of_Z 334 <? formant_slot fs 0) && (formant_slot fs 0 <? Num.of_Z 335)
   && Num.eqb (formant_slot fs 1) (Num.of_Z 500)
   && (Num.of_Z 665 <? formant_slot fs 2)
   && (formant_slot fs 2 <? Num.of_Z 666)) = true
  /\ (let sorted :=
        js_sort (fun a b => freq a - freq b)
          (formant_candidates Math_rational start_lpc
             (Q2Qc (inject_Z 2000))) in
      let F := fun j =>
        formant_slot
          (lpcToFormants Math_rational start_lpc (Q2Qc (inject_Z 2000))) j in
      ascending sorted
      /\ (forall j, (j < 3)%nat -> F j = slot_of sorted j)
      /\ (forall j1 j2, (j1 < j2 < 3)%nat -> F j2 <> Num.zero ->
            (F j1 <=? F j2) = true))
  /\ Num.get (fs_values (f1 tone_formants)) 0
     = formant_slot
         (lpcToFormants Math_standin
            (frame_lpc Math_standin tone_samples (Q2Qc (inject_Z 400)) 0)
            (Q2Qc (inject_Z 400))) 0.
Proof.
  split; [vm_compute; reflexivity|]. split.
  - destruct (formants_are_lowest_surviving_candidates
                Math_rational (Q2Qc (inject_Z 2000)) start_lpc)
      as (_ & Hasc & _ & HF & _ & Hord & _).
    cbv zeta. split; [exact Hasc|]. split; [exact HF | exact Hord].
  - destruct (formants_are_lowest_surviving_candidates
                Math_standin (Q2Qc (inject_Z 400))
                (frame_lpc Math_standin tone_samples
                   (Q2Qc (inject_Z 400)) 0))
      as (_ & _ & _ & _ & _ & _ & Hframe).
    destruct (Hframe tone_samples tone_formants 0%nat) as (H1 & _).
    + vm_compute. reflexivity.
    + vm_compute. lia.
    + reflexivity.
    + exact H1.
Defined.

(** * Further properties of the code *)

(** ** Minimum, maximum and sum of a finite array *)

Section ExtremaFacts.

Local Open Scope Qc_scope.

Lemma min_Fin x y : Num.min (Fin x) (Fin y) = Fin (if Qcltb y x then y else x).
Proof. simpl. now destruct (Qcltb y x). Qed.

Lemma max_Fin x y : Num.max (Fin x) (Fin y) = Fin (if Qcltb x y then y else x).
Proof. simpl. now destruct (Qcltb x y). Qed.

Lemma fold_min_spec t :
  forall q, Forall Num.finite t ->
  exists m, fold_left Num.min t (Fin q) = Fin m /\ m <= q /\
            (forall x, In (Fin x) t -> m <= x) /\ (m = q \/ In (Fin m) t).
Proof.
  induction t as [|a t IH]; intros q H.
  - exists q. simpl. repeat split; auto using Qcle_refl. intros x [].
  - inversion H as [|? ? Ha Ht]; subst.
    destruct a as [| | |h]; simpl in Ha; try tauto.
    cbn [fold_left]. rewrite min_Fin.
    destruct (Qcltb h q) eqn:E; qcbool;
      [destruct (IH h Ht) as (m & Hm & Hle & Hall & Hin)
      |destruct (IH q Ht) as (m & Hm & Hle & Hall & Hin)];
      exists m; (split; [exact Hm|]).
    + split; [apply Qcle_trans with h; auto using Qclt_le_weak|].
      split.
      * intros x [Hx|Hx]; [injection Hx as <-; exact Hle|now apply Hall].
      * right. destruct Hin as [->|Hin]; [now left|now right].
    + split; [exact Hle|]. split.
      * intros x [Hx|Hx]; [injection Hx as <-|now apply Hall].
        now apply Qcle_trans with q.
      * destruct Hin as [->|Hin]; [now left|right; now right].
Qed.

Lemma fold_max_spec t :
  forall q, Forall Num.finite t ->
  exists m, fold_left Num.max t (Fin q) = Fin m /\ q <= m /\
            (forall x, In (Fin x) t -> x <= m) /\ (m = q \/ In (Fin m) t).
Proof.
  induction t as [|a t IH]; intros q H.
  - exists q. simpl. repeat split; auto using Qcle_refl. intros x [].
  - inversion H as [|? ? Ha Ht]; subst.
    destruct a as [| | |h]; simpl in Ha; try tauto.
    cbn [fold_left]. rewrite max_Fin.
    destruct (Qcltb q h) eqn:E; qcbool;
      [destruct (IH h Ht) as (m & Hm & Hle & Hall & Hin)
      |destruct (IH q Ht) as (m & Hm & Hle & Hall & Hin)];
      exists m; (split; [exact Hm|]).
    + split; [apply Qcle_trans with h; auto using Qclt_le_weak|].
      split.
      * intros x [Hx|Hx]; [injection Hx as <-; exact Hle|now apply Hall].
      * right. destruct Hin as [->|Hin]; [now left|now right].
    + split; [exact Hle|]. split.
      * intros x [Hx|Hx]; [injection Hx as <-|now apply Hall].
        now apply Qcle_trans with q.
      * destruct Hin as [->|Hin]; [now left|right; now right].
Qed.

(** [Math.min(...arr)] of a finite array that is not empty is its least
    element. *)
Lemma min_list_spec arr :
  Forall Num.finite arr -> arr <> [] ->
  exists m, Num.min_list arr = Fin m /\
            (forall x, In (Fin x) arr -> m <= x) /\ In (Fin m) arr.
Proof.
  intros H Hne. destruct arr as [|a t]; [congruence|].
  inversion H as [|? ? Ha Ht]; subst.
  destruct a as [| | |h]; simpl in Ha; try tauto.
  unfold Num.min_list. cbn [fold_left].
  change (Num.min PosInf (Fin h)) with (Fin h).
  destruct (fold_min_spec t h Ht) as (m & Hm & Hle & Hall & Hin).
  exists m. split; [exact Hm|]. split.
  - intros x [Hx|Hx]; [injection Hx as <-; exact Hle|now apply Hall].
  - destruct Hin as [->|Hin]; [now left|now right].
Qed.

Lemma max_list_spec arr :
  Forall Num.finite arr -> arr <> [] ->
  exists m, Num.max_list arr = Fin m /\
            (forall x, In (Fin x) arr -> x <= m) /\ In (Fin m) arr.
Proof.
  intros H Hne. destruct arr as [|a t]; [congruence|].
  inversion H as [|? ? Ha Ht]; subst.
  destruct a as [| | |h]; simpl in Ha; try tauto.
  unfold Num.max_list. cbn [fold_left].
  change (Num.max NegInf (Fin h)) with (Fin h).
  destruct (fold_max_spec t h Ht) as (m & Hm & Hle & Hall & Hin).
  exists m. split; [exact Hm|]. split.
  - intros x [Hx|Hx]; [injection Hx as <-; exact Hle|now apply Hall].
  - destruct Hin as [->|Hin]; [now left|now right].
Qed.

Lemma Qc_of_nat_S n : Qc_of_nat (S n) = Qc_of_nat n + 1.
Proof.
  apply Qc_is_canon. unfold Qc_of_nat, Qcplus, Q2Qc. cbn [this].
  rewrite !Qred_correct, Nat2Z.inj_succ. unfold Z.succ.
  rewrite inject_Z_plus. reflexivity.
Qed.

Lemma Qc_of_nat_0 : Qc_of_nat 0 = 0.
Proof. now apply Qc_is_canon. Qed.

(** A sum of finite numbers, and bounds on it from bounds on the terms. *)
Lemma fold_add_spec l :
  forall a, Forall Num.finite l ->
  exists s, fold_left Num.add l (Fin a) = Fin s /\
    (forall m, (forall x, In (Fin x) l -> m <= x) ->
               a + Qc_of_nat (length l) * m <= s) /\
    (forall M, (forall x, In (Fin x) l -> x <= M) ->
               s <= a + Qc_of_nat (length l) * M).
Proof.
  induction l as [|h t IH]; intros a H.
  - exists a. cbn [fold_left length]. rewrite Qc_of_nat_0.
    repeat split; intros; qclra.
  - inversion H as [|? ? Hh Ht]; subst.
    destruct h as [| | |h]; simpl in Hh; try tauto.
    cbn [fold_left length]. change (Fin a + Fin h)%num with (Fin (a + h)).
    destruct (IH (a + h) Ht) as (s & Hs & Hlo & Hhi).
    exists s. split; [exact Hs|]. rewrite Qc_of_nat_S. split.
    + intros m Hm.
      assert (H1 := Hlo m (fun x Hx => Hm x (or_intror Hx))).
      assert (H2 := Hm h (or_introl eq_refl)).
      clear - H1 H2. qclra.
    + intros M HM.
      assert (H1 := Hhi M (fun x Hx => HM x (or_intror Hx))).
      assert (H2 := HM h (or_introl eq_refl)).
      clear - H1 H2. qclra.
Qed.

End ExtremaFacts.

(** ** Means and variances *)

Section AveragingFacts.

Local Open Scope Qc_scope.

Lemma Qc_div_lower k m s : 0 < k -> k * m <= s -> m <= s / k.
Proof.
  intros Hk H. qc2q. apply Qle_shift_div_l; [exact Hk|].
  rewrite Qmult_comm. exact H.
Qed.

Lemma Qc_div_upper k M s : 0 < k -> s <= k * M -> s / k <= M.
Proof.
  intros Hk H. qc2q. apply Qle_shift_div_r; [exact Hk|].
  rewrite Qmult_comm. exact H.
Qed.

Lemma Qc_pos_nonzero k : 0 < k -> k <> 0.
Proof. intros H E. rewrite E in H. now apply Qclt_not_eq in H. Qed.

(** The mean of finite numbers lies between any two bounds of them. *)
Lemma mean_bounds l lo hi :
  Forall Num.finite l -> l <> [] ->
  (forall x, In (Fin x) l -> lo <= x) ->
  (forall x, In (Fin x) l -> x <= hi) ->
  exists mu, mean l = Fin mu /\ lo <= mu /\ mu <= hi.
Proof.
  intros H Hne Hlo Hhi. unfold mean.
  destruct (Nat.eqb_spec (length l) 0) as [E|E].
  { destruct l; [congruence|discriminate E]. }
  destruct (fold_add_spec l 0 H) as (s & Hs & Hl & Hu).
  rewrite zero_Fin, Hs.
  assert (Hk : 0 < Qc_of_nat (length l)) by (apply Qc_of_nat_pos; lia).
  unfold Num.of_nat. rewrite div_Fin by now apply Qc_pos_nonzero.
  eexists. split; [reflexivity|]. split.
  - apply Qc_div_lower; [exact Hk|].
    specialize (Hl lo Hlo). rewrite Qcplus_0_l in Hl. exact Hl.
  - apply Qc_div_upper; [exact Hk|].
    specialize (Hu hi Hhi). rewrite Qcplus_0_l in Hu. exact Hu.
Qed.

Lemma leb_Fin x y : (Fin x <=? Fin y)%num = true <-> x <= y.
Proof. simpl. apply Qcleb_le. Qed.

Lemma sq_nonneg (x : Qc) : 0 <= x * x.
Proof. qc2q. nra. Qed.

Lemma sq_zero (x y : Qc) : (x - y) * (x - y) <= 0 -> x = y.
Proof. intros H. apply Qc_is_canon. qc2q. nra. Qed.

(** The sum of squared deviations from [mu], on top of [a]. *)
Lemma fold_sq_spec mu l :
  forall a, Forall Num.finite l ->
  exists s,
    fold_left (fun sum v => (sum + (v - Fin mu) * (v - Fin mu))%num) l (Fin a)
    = Fin s /\
    a <= s /\ (s = a <-> forall x, In (Fin x) l -> x = mu).
Proof.
  induction l as [|h t IH]; intros a H.
  - exists a. cbn [fold_left]. split; [reflexivity|].
    split; [apply Qcle_refl|]. split; [intros _ x []|reflexivity].
  - inversion H as [|? ? Hh Ht]; subst.
    destruct h as [| | |h]; simpl in Hh; try tauto.
    cbn [fold_left].
    change (Fin a + (Fin h - Fin mu) * (Fin h - Fin mu))%num
      with (Fin (a + (h + - mu) * (h + - mu))).
    destruct (IH (a + (h + - mu) * (h + - mu)) Ht) as (s & Hs & Hle & Hiff).
    exists s. split; [exact Hs|].
    pose proof (sq_nonneg (h + - mu)) as Hsq.
    split; [clear - Hle Hsq; qclra|]. split.
    + intros E.
      assert (Hh0 : h = mu).
      { apply sq_zero. unfold Qcminus. clear - Hle Hsq E. subst s. qclra. }
      intros x [Hx|Hx]; [injection Hx as <-; exact Hh0|].
      apply (proj1 Hiff); [|exact Hx].
      subst h. rewrite E. clear. qclra.
    + intros Hall.
      assert (Hh0 : h = mu) by (apply Hall; now left).
      rewrite (proj2 Hiff (fun x Hx => Hall x (or_intror Hx))).
      subst h. clear. qclra.
Qed.

(** The variance of finite numbers is finite and not negative. *)
Lemma variance_nonneg l :
  Forall Num.finite l -> l <> [] ->
  exists v, calculateVariance l = Fin v /\ 0 <= v.
Proof.
  intros H Hne. unfold calculateVariance.
  destruct (min_list_spec l H Hne) as (m & _ & Hlo & _).
  destruct (max_list_spec l H Hne) as (M & _ & Hhi & _).
  destruct (mean_bounds l m M H Hne Hlo Hhi) as (mu & Hmu & _ & _).
  cbv zeta. rewrite Hmu, zero_Fin.
  destruct (fold_sq_spec mu l 0 H) as (s & Hs & Hle & _).
  rewrite Hs.
  assert (Hk : 0 < Qc_of_nat (length l)).
  { apply Qc_of_nat_pos. destruct l; [congruence|simpl; lia]. }
  unfold Num.of_nat. rewrite div_Fin by now apply Qc_pos_nonzero.
  eexists. split; [reflexivity|].
  apply Qc_div_lower; [exact Hk|]. rewrite Qcmult_0_r. exact Hle.
Qed.

End AveragingFacts.

(** ** The statistics helpers *)

(** X2.  The variance of a non-empty array of finite numbers is not
    negative, and it is a number. *)
Theorem variance_is_not_negative (arr : list num) :
  Forall Num.finite arr -> arr <> [] ->
  (Num.zero <=? calculateVariance arr) = true.
Proof.
  intros H Hne.
  destruct (variance_nonneg arr H Hne) as (v & -> & Hv).
  rewrite zero_Fin. now apply leb_Fin.
Qed.

Lemma variance_is_not_negative_witness :
  (Num.zero <=? calculateVariance [Num.of_Z 4; Num.of_Z 6]) = true.
Proof.
  apply (variance_is_not_negative [Num.of_Z 4; Num.of_Z 6]).
  - repeat constructor.
  - discriminate.
Defined.

(** ** Min-max normalisation *)

Section NormalizeFacts.

Local Open Scope Qc_scope.

(** The range that [normalize] divides by. *)
Lemma or_else_one_Fin x :
  Num.or_else (Fin x) Num.one = Fin (if Qceqb x 0 then 1 else x).
Proof.
  unfold Num.or_else, Num.truthy. now destruct (Qceqb x 0).
Qed.

Lemma Qcminus_eq0 x y : x + - y = 0 -> x = y.
Proof. intros H. rewrite <- (Qcplus_0_l y), <- H. ring. Qed.

(** What [normalize] computes on a finite array that is not empty. *)
Lemma normalize_shape arr :
  Forall Num.finite arr -> arr <> [] ->
  exists m M r,
    normalize arr = map (fun v => ((v - Fin m) / Fin r)%num) arr
    /\ (forall x, In (Fin x) arr -> m <= x /\ x <= M)
    /\ In (Fin m) arr /\ In (Fin M) arr
    /\ 0 < r /\ (M = m \/ r = M - m).
Proof.
  intros H Hne.
  destruct (min_list_spec arr H Hne) as (m & Hm & Hlo & Hmin).
  destruct (max_list_spec arr H Hne) as (M & HM & Hhi & Hmax).
  exists m, M, (if Qceqb (M + - m) 0 then 1 else M + - m).
  split.
  { unfold normalize. rewrite Hm, HM.
    change (Fin M - Fin m)%num with (Fin (M + - m)).
    rewrite or_else_one_Fin. reflexivity. }
  split; [intros x Hx; split; [now apply Hlo|now apply Hhi]|].
  split; [exact Hmin|]. split; [exact Hmax|].
  pose proof (Hlo M Hmax) as HmM.
  destruct (Qceqb (M + - m) 0) eqn:E; qcbool.
  - split; [reflexivity|]. left. now apply Qcminus_eq0.
  - split; [|now right].
    assert (Hd : 0 <= M + - m) by (clear - HmM; qclra).
    destruct (Qcle_lt_or_eq _ _ Hd) as [Hlt|Heq]; [exact Hlt|].
    now symmetry in Heq.
Qed.

Lemma normalize_value m M r x :
  m <= x -> x <= M -> 0 < r -> (M = m \/ r = M - m) ->
  ((Fin x - Fin m) / Fin r)%num = Fin ((x - m) / r)
  /\ 0 <= (x - m) / r /\ (x - m) / r <= 1.
Proof.
  intros H1 H2 Hr HM.
  change (Fin x - Fin m)%num with (Fin (x - m)).
  rewrite div_Fin by now apply Qc_pos_nonzero.
  split; [reflexivity|]. split.
  - apply Qc_div_lower; [exact Hr|]. clear - H1. qclra.
  - apply Qc_div_upper; [exact Hr|].
    destruct HM as [->| ->].
    + assert (x = m) by now apply Qcle_antisym. subst x.
      clear - Hr. qclra.
    + clear - H2. qclra.
Qed.

Lemma normalize_forall_in_unit arr :
  Forall Num.finite arr -> Forall in_unit (normalize arr).
Proof.
  intros H. destruct arr as [|h t]; [constructor|].
  destruct (normalize_shape (h :: t) H ltac:(discriminate))
    as (m & M & r & -> & Hb & _ & _ & Hr & HM).
  apply Forall_map, Forall_forall. intros v Hv.
  pose proof (proj1 (Forall_forall _ _) H v Hv) as Fv.
  destruct v as [| | |x]; simpl in Fv; try tauto.
  destruct (Hb x Hv) as [H1 H2].
  destruct (normalize_value m M r x H1 H2 Hr HM) as (-> & H3 & H4).
  split; assumption.
Qed.

Lemma in_unit_finite l : Forall in_unit l -> Forall Num.finite l.
Proof.
  intros H. eapply Forall_impl; [|exact H].
  intros [| | |x]; simpl; tauto.
Qed.

(** A normalised array has least element 0. *)
Lemma normalize_has_zero arr :
  Forall Num.finite arr -> arr <> [] -> In (Fin 0) (normalize arr).
Proof.
  intros H Hne.
  destruct (normalize_shape arr H Hne)
    as (m & M & r & -> & Hb & Hmin & _ & Hr & HM).
  apply in_map_iff. exists (Fin m). split; [|exact Hmin].
  change (Fin m - Fin m)%num with (Fin (m - m)).
  rewrite div_Fin by now apply Qc_pos_nonzero.
  f_equal. field. now apply Qc_pos_nonzero.
Qed.

(** Its greatest element is 1, or 0 when the array is constant. *)
Lemma normalize_max arr :
  Forall Num.finite arr -> arr <> [] ->
  Num.max_list (normalize arr) = Fin 1
  \/ Num.max_list (normalize arr) = Fin 0.
Proof.
  intros H Hne.
  pose proof (normalize_forall_in_unit arr H) as Hu.
  assert (Hne' : normalize arr <> []).
  { intros E. apply Hne. apply length_zero_iff_nil.
    rewrite <- length_normalize, E. reflexivity. }
  destruct (max_list_spec (normalize arr) (in_unit_finite _ Hu) Hne')
    as (M' & HM' & Hhi & Hin).
  rewrite HM'.
  destruct (normalize_shape arr H Hne)
    as (m & M & r & E & Hb & Hmin & Hmax & Hr & HM).
  destruct HM as [HM|HM].
  - right. f_equal. rewrite E in Hin. apply in_map_iff in Hin.
    destruct Hin as (v & Hv & Hvin).
    pose proof (proj1 (Forall_forall _ _) H v Hvin) as Fv.
    destruct v as [| | |x]; simpl in Fv; try tauto.
    destruct (Hb x Hvin) as [H1 H2]. subst M.
    assert (x = m) by now apply Qcle_antisym. subst x.
    change (Fin m - Fin m)%num with (Fin (m - m)) in Hv.
    rewrite div_Fin in Hv by now apply Qc_pos_nonzero.
    injection Hv as <-. field. now apply Qc_pos_nonzero.
  - left. f_equal. apply Qcle_antisym.
    + pose proof (proj1 (Forall_forall _ _) Hu (Fin M') Hin) as [_ H1].
      exact H1.
    + apply Hhi. rewrite E. apply in_map_iff. exists (Fin M).
      split; [|exact Hmax].
      change (Fin M - Fin m)%num with (Fin (M - m)).
      rewrite div_Fin by now apply Qc_pos_nonzero.
      f_equal. subst r. field. now apply Qc_pos_nonzero.
Qed.

Lemma normalize_min arr :
  Forall Num.finite arr -> arr <> [] ->
  Num.min_list (normalize arr) = Fin 0.
Proof.
  intros H Hne.
  pose proof (normalize_forall_in_unit arr H) as Hu.
  assert (Hne' : normalize arr <> []).
  { intros E. apply Hne. apply length_zero_iff_nil.
    rewrite <- length_normalize, E. reflexivity. }
  destruct (min_list_spec (normalize arr) (in_unit_finite _ Hu) Hne')
    as (m' & Hm' & Hlo & Hin).
  rewrite Hm'. f_equal. apply Qcle_antisym.
  - apply Hlo. now apply normalize_has_zero.
  - pose proof (proj1 (Forall_forall _ _) Hu (Fin m') Hin) as [H1 _].
    exact H1.
Qed.

(** An array with least element 0 and greatest element 0 or 1 is left as
    it is. *)
Lemma normalize_fixed l :
  Forall Num.finite l ->
  Num.min_list l = Fin 0 ->
  (Num.max_list l = Fin 1 \/ Num.max_list l = Fin 0) ->
  normalize l = l.
Proof.
  intros H Hmin Hmax. unfold normalize. rewrite Hmin.
  assert (Hr : Num.or_else (Num.max_list l - Fin 0)%num Num.one = Fin 1).
  { destruct Hmax as [-> | ->]; now apply num_eqb_eq. }
  rewrite Hr. clear Hmin Hmax Hr.
  induction H as [|v t Hv Ht IH]; [reflexivity|].
  cbn [map]. rewrite IH. f_equal.
  destruct v as [| | |x]; simpl in Hv; try tauto.
  change (Fin x - Fin 0)%num with (Fin (x - 0)).
  rewrite div_Fin by discriminate. f_equal. field; discriminate.
Qed.

End NormalizeFacts.

(** X4.  [normalize] is idempotent on finite arrays: an array that has
    been normalised is not changed by normalising it again, as happens to
    the intensity contours, which [compareProsody] normalises before
    [dtwSimilarity] does. *)
Theorem normalize_idempotent (arr : list num) :
  Forall Num.finite arr -> normalize (normalize arr) = normalize arr.
Proof.
  intros H. destruct arr as [|h t]; [reflexivity|].
  apply normalize_fixed.
  - now apply normalize_finite.
  - apply normalize_min; [exact H|discriminate].
  - apply normalize_max; [exact H|discriminate].
Qed.

Lemma normalize_idempotent_witness :
  normalize (normalize [Num.of_Z 3; Num.of_Z (-1); Num.of_Z 7])
  = normalize [Num.of_Z 3; Num.of_Z (-1); Num.of_Z 7].
Proof.
  apply (normalize_idempotent [Num.of_Z 3; Num.of_Z (-1); Num.of_Z 7]).
  repeat constructor.
Defined.

(** ** Interpolation and smoothing stay between the extrema *)

Section InterpolationFacts.

Local Open Scope Qc_scope.

Lemma get_in_finite arr i :
  Forall Num.finite arr -> (i < length arr)%nat ->
  exists x, Num.get arr i = Fin x /\ In (Fin x) arr.
Proof.
  intros H Hi.
  assert (Hin : In (Num.get arr i) arr) by (unfold Num.get; now apply nth_In).
  pose proof (proj1 (Forall_forall _ _) H _ Hin) as F.
  destruct (Num.get arr i) as [| | |x]; simpl in F; try tauto.
  now exists x.
Qed.

Lemma Qc_of_nat_nonneg n : 0 <= Qc_of_nat n.
Proof.
  unfold Qcle. rewrite Qc_of_nat_this.
  change (this 0) with (inject_Z 0). rewrite <- Zle_Qle. lia.
Qed.

Lemma Qcmult_nonneg (x y : Qc) : 0 <= x -> 0 <= y -> 0 <= x * y.
Proof. intros Hx Hy. qc2q. now apply Qmult_le_0_compat. Qed.

(** The fractional part that [resample] interpolates with. *)
Lemma frac_bounds (x : Qc) :
  0 <= x ->
  0 <= x - Qc_of_nat (Z.to_nat (Qc_floor x))
  /\ x - Qc_of_nat (Z.to_nat (Qc_floor x)) <= 1.
Proof.
  intros Hx. unfold Qc_floor.
  assert (H0 : (0 <= Qfloor x)%Z).
  { change 0%Z with (Qfloor 0). apply Qfloor_resp_le. exact Hx. }
  pose proof (Qfloor_le x) as H1.
  pose proof (Qlt_floor x) as H2.
  rewrite inject_Z_plus in H2.
  unfold Qcle, Qcminus, Qcplus, Qcopp, Qc_of_nat, Q2Qc. cbn [this].
  rewrite !Qred_correct, Z2Nat.id by exact H0.
  change (inject_Z 1) with 1%Q in H2. change (this 1) with 1%Q.
  change (this 0) with 0%Q. split; lra.
Qed.

Lemma convex_lower (a b f m : Qc) :
  m <= a -> m <= b -> 0 <= f -> f <= 1 -> m <= a * (1 - f) + b * f.
Proof. intros. qc2q. nra. Qed.

Lemma convex_upper (a b f M : Qc) :
  a <= M -> b <= M -> 0 <= f -> f <= 1 -> a * (1 - f) + b * f <= M.
Proof. intros. qc2q. nra. Qed.

(** Every value of [resample] lies between two bounds of the array. *)
Lemma resample_bounds arr target lo hi :
  Forall Num.finite arr -> arr <> [] ->
  (forall x, In (Fin x) arr -> lo <= x /\ x <= hi) ->
  forall v, In v (resample arr target) ->
  exists y, v = Fin y /\ lo <= y /\ y <= hi.
Proof.
  intros H Hne Hb v Hv. unfold resample in Hv.
  assert (Hlen : (0 < length arr)%nat).
  { destruct arr; [congruence|simpl; lia]. }
  destruct (Nat.eqb_spec (length arr) target) as [E|E].
  - pose proof (proj1 (Forall_forall _ _) H v Hv) as F.
    destruct v as [| | |y]; simpl in F; try tauto.
    exists y. split; [reflexivity|]. now apply Hb.
  - apply in_map_iff in Hv. destruct Hv as (i & Hv & Hi).
    apply in_seq in Hi.
    set (srcIdx := Qc_of_nat i * (Qc_of_nat (length arr) / Qc_of_nat target))
      in *.
    assert (Hsrc : 0 <= srcIdx).
    { unfold srcIdx. apply Qcmult_nonneg.
      - apply Qc_of_nat_nonneg.
      - apply Qcdiv_nonneg; [apply Qc_of_nat_nonneg|].
        apply Qc_of_nat_pos. lia. }
    destruct (frac_bounds srcIdx Hsrc) as [Hf0 Hf1].
    pose proof (resample_lower_lt (length arr) target i ltac:(lia) Hlen)
      as Hlow.
    fold srcIdx in Hlow.
    destruct (get_in_finite arr (Z.to_nat (Qc_floor srcIdx)) H Hlow)
      as (a & Ha & Hain).
    destruct (get_in_finite arr
                (Nat.min (Z.to_nat (Qc_floor srcIdx) + 1) (length arr - 1))
                H ltac:(lia))
      as (b & Hb' & Hbin).
    rewrite Ha, Hb' in Hv. subst v.
    eexists. split; [reflexivity|].
    destruct (Hb a Hain), (Hb b Hbin).
    split; [now apply convex_lower|now apply convex_upper].
Qed.




End InterpolationFacts.

(** ** What the alignment does not see *)

Section AlignmentFacts.

Local Open Scope Qc_scope.

Lemma min3_zero_l b c :
  nonneg b -> nonneg c -> Num.min3 Num.zero b c = Num.zero.
Proof.
  intros Hb Hc. unfold Num.min3.
  rewrite (min_comm Num.zero b), min_zero_r by exact Hb.
  rewrite min_comm. now apply min_zero_r.
Qed.

Lemma min3_zero_m a c :
  nonneg a -> nonneg c -> Num.min3 a Num.zero c = Num.zero.
Proof.
  intros Ha Hc. rewrite min3_swap. now apply min3_zero_l.
Qed.

(** Two sequences of zeros align at no cost. *)
Lemma dtw_cost_zeros ns1 ns2 :
  all_zero ns1 -> all_zero ns2 ->
  forall i, (1 <= i <= length ns1)%nat ->
  forall j, (1 <= j <= length ns2)%nat ->
  dtw_cost ns1 ns2 i j = Num.zero.
Proof.
  intros Z1 Z2.
  assert (F1 : Forall Num.finite ns1).
  { eapply Forall_impl; [|exact Z1]. intros x ->. exact I. }
  assert (F2 : Forall Num.finite ns2).
  { eapply Forall_impl; [|exact Z2]. intros x ->. exact I. }
  induction i as [|i IHi]; intros Hi; [lia|].
  induction j as [|j IHj]; intros Hj; [lia|].
  rewrite dtw_cost_step.
  rewrite (all_zero_get ns1 i Z1) by lia.
  rewrite (all_zero_get ns2 j Z2) by lia.
  rewrite abs_sub_self by exact I.
  assert (N : forall i' j', (i' <= length ns1)%nat -> (j' <= length ns2)%nat ->
                            nonneg (dtw_cost ns1 ns2 i' j')).
  { intros. now apply dtw_cost_nonneg. }
  destruct i as [|i'].
  - destruct j as [|j'].
    + rewrite min3_zero; [apply add_zero_zero|exact I|exact I].
    + rewrite (IHj ltac:(lia)).
      rewrite min3_zero_m; [apply add_zero_zero| |]; apply N; lia.
  - rewrite (IHi ltac:(lia) (S j) ltac:(lia)).
    rewrite min3_zero_l; [apply add_zero_zero| |]; apply N; lia.
Qed.

(** A flat array, resampled, is the same flat array. *)
Lemma resample_flat arr target c :
  arr <> [] -> (forall x, In x arr -> x = Fin c) ->
  forall v, In v (resample arr target) -> v = Fin c.
Proof.
  intros Hne Hall v Hv.
  assert (Hfin : Forall Num.finite arr).
  { apply Forall_forall. intros x Hx. now rewrite (Hall x Hx). }
  destruct (resample_bounds arr target c c Hfin Hne) with (v := v)
    as (y & -> & H1 & H2); [|exact Hv|].
  - intros x Hx. apply Hall in Hx. injection Hx as ->.
    split; apply Qcle_refl.
  - f_equal. now apply Qcle_antisym.
Qed.

(** A flat array is normalised to zeros. *)
Lemma normalize_flat arr c :
  (forall x, In x arr -> x = Fin c) -> all_zero (normalize arr).
Proof.
  intros Hall. destruct arr as [|h t]; [constructor|].
  assert (Hfin : Forall Num.finite (h :: t)).
  { apply Forall_forall. intros x Hx. now rewrite (Hall x Hx). }
  destruct (normalize_shape (h :: t) Hfin ltac:(discriminate))
    as (m & M & r & -> & Hb & Hmin & _ & Hr & _).
  apply Hall in Hmin. injection Hmin as ->.
  apply Forall_map, Forall_forall. intros v Hv.
  rewrite (Hall v Hv).
  change (Fin c - Fin c)%num with (Fin (c - c)).
  rewrite div_Fin by now apply Qc_pos_nonzero.
  rewrite zero_Fin. f_equal. field. now apply Qc_pos_nonzero.
Qed.

End AlignmentFacts.

(** X7.  Two flat sequences of at most 100 values are fully similar
    whatever their levels: when every value of a sequence is the same
    finite number, the normalisation maps it to zeros (its range of zero
    counts as one), so a monotone contour at one level matches a monotone
    contour at any other with similarity 1. *)
Theorem flat_sequences_fully_similar (seq1 seq2 : list num) (c1 c2 : Qc) :
  seq1 <> [] -> seq2 <> [] ->
  (length seq1 <= 100)%nat -> (length seq2 <= 100)%nat ->
  (forall x, In x seq1 -> x = Fin c1) ->
  (forall x, In x seq2 -> x = Fin c2) ->
  dtwSimilarity seq1 seq2 = Num.one.
Proof.
  intros N1 N2 _ _ H1 H2.
  rewrite dtwSimilarity_nonempty by assumption.
  unfold similarity_of.
  assert (L1 : (0 < length seq1)%nat) by (destruct seq1; simpl; [congruence|lia]).
  assert (L2 : (0 < length seq2)%nat) by (destruct seq2; simpl; [congruence|lia]).
  rewrite dtw_cost_zeros.
  - rewrite zero_div_nat by lia. apply num_eqb_eq. reflexivity.
  - apply normalize_flat with c1. now apply resample_flat.
  - apply normalize_flat with c2. now apply resample_flat.
  - rewrite length_normalize, length_resample. lia.
  - rewrite length_normalize, length_resample. lia.
Qed.

Lemma flat_sequences_fully_similar_witness :
  dtwSimilarity [Num.of_Z 100; Num.of_Z 100; Num.of_Z 100]
                [Num.of_Z 300; Num.of_Z 300]
  = Num.one.
Proof.
  apply (flat_sequences_fully_similar
           [Num.of_Z 100; Num.of_Z 100; Num.of_Z 100]
           [Num.of_Z 300; Num.of_Z 300]
           (Q2Qc (inject_Z 100)) (Q2Qc (inject_Z 300))).
  - discriminate.
  - discriminate.
  - simpl. lia.
  - simpl. lia.
  - intros x [<-|[<-|[<-|[]]]]; reflexivity.
  - intros x [<-|[<-|[]]]; reflexivity.
Defined.

(** ** The pitch tracker and a constant offset *)

Section OffsetFacts.

Local Open Scope Qc_scope.

Variable c : Qc.


Lemma fold_left_ext_in {A B : Type} (f g : A -> B -> A) (l : list B) :
  (forall a x, In x l -> f a x = g a x) ->
  forall a, fold_left f l a = fold_left g l a.
Proof.
  induction l as [|h t IH]; intros H a; [reflexivity|].
  cbn [fold_left]. rewrite (H a h) by now left.
  apply IH. intros a' x Hx. apply H. now right.
Qed.







End OffsetFacts.



(** ** Linear prediction *)

Section LpcFacts.

Lemma fold_left_invariant {A B : Type} (P : A -> Prop) (f : A -> B -> A)
  (l : list B) :
  (forall a x, In x l -> P a -> P (f a x)) ->
  forall a, P a -> P (fold_left f l a).
Proof.
  induction l as [|h t IH]; intros H a Ha; [exact Ha|].
  cbn [fold_left]. apply IH.
  - intros a' x Hx. apply H. now right.
  - apply H; [now left|exact Ha].
Qed.

(** Writes at indices other than 0 keep the length and element 0. *)
Lemma fold_list_set_keeps (v : nat -> num) (l : list nat) (a : list num) :
  (forall j, In j l -> j <> 0%nat) ->
  length (fold_left (fun a j => list_set a j (v j)) l a) = length a
  /\ Num.get (fold_left (fun a j => list_set a j (v j)) l a) 0
     = Num.get a 0.
Proof.
  intros Hl.
  apply (fold_left_invariant
           (fun a' => length a' = length a /\ Num.get a' 0 = Num.get a 0)).
  - intros a' j Hj [H1 H2]. split.
    + now rewrite length_list_set.
    + rewrite get_list_set_neq; [exact H2|now apply Hl].
  - split; reflexivity.
Qed.

End LpcFacts.

(** X10.  The linear-prediction polynomial is monic: [levinson] returns
    [order + 1] coefficients and the first is 1, whatever the
    autocorrelation it is given (on a silent frame all the others are
    [NaN]). *)
Theorem levinson_returns_monic_polynomial (r : list num) (order : nat) :
  length (levinson r order) = (order + 1)%nat
  /\ Num.get (levinson r order) 0 = Num.one.
Proof.
  unfold levinson.
  apply (fold_left_invariant
           (fun st : list num * list num =>
              length (fst st) = (order + 1)%nat
              /\ Num.get (fst st) 0 = Num.one)).
  - intros [a e] i Hi [H1 H2]. cbn [fst snd] in *.
    destruct (fold_list_set_keeps
                (fun j =>
                   Num.get a j
                   + - fold_left
                         (fun lambda j0 =>
                            lambda + Num.get a j0 * Num.get r (i - j0))
                         (seq 0 i) Num.zero
                     / Num.get e (i - 1) * Num.get a (i - j))
                (seq 1 i) a) as [L G].
    { intros j Hj. apply in_seq in Hj. lia. }
    split; [now rewrite L|now rewrite G].
  - cbn [fst]. split.
    + now rewrite length_list_set, repeat_length.
    + apply get_list_set_eq. rewrite repeat_length. lia.
Qed.

(** ** Envelope peaks *)

Section PeakFacts.

Lemma ltb_asym a b : (a <? b) = true -> (b <? a) = false.
Proof.
  destruct a as [| | |x], b as [| | |y]; simpl; try congruence.
  intros H. qcbool. now apply Qclt_le_weak.
Qed.

(** A predicate that never holds at two consecutive indices holds at no
    more than every other index of a range. *)
Lemma sparse_filter_count (p : nat -> bool) :
  (forall i, p i = true -> p (S i) = false) ->
  forall n s,
    (2 * length (filter p (seq s n)) <= n + 1)%nat
    /\ (p s = false -> (2 * length (filter p (seq s n)) <= n)%nat).
Proof.
  intros Hp. induction n as [|n IH]; intros s.
  - cbn. split; intros; lia.
  - cbn [seq filter]. destruct (IH (S s)) as [H1 H2].
    destruct (p s) eqn:E.
    + specialize (H2 (Hp s E)). cbn [length]. split; [lia|discriminate].
    + split; intros; lia.
Qed.

Lemma envelope_peaks_sparse smoothed threshold :
  (2 * length (envelope_peaks smoothed threshold)
   <= length smoothed - 1)%nat.
Proof.
  unfold envelope_peaks.
  set (p := fun i : nat =>
              (Num.get smoothed i >? Num.get smoothed (i - 1))
              && (Num.get smoothed i >? Num.get smoothed (i + 1))
              && (Num.get smoothed i >? threshold)).
  assert (Hp : forall i, p i = true -> p (S i) = false).
  { intros i Hi. unfold p in *.
    apply andb_true_iff in Hi. destruct Hi as [Hi _].
    apply andb_true_iff in Hi. destruct Hi as [_ Hi].
    unfold Num.gtb in *. replace (S i - 1)%nat with i by lia.
    replace (i + 1)%nat with (S i) in Hi by lia.
    now rewrite (ltb_asym _ _ Hi). }
  destruct (sparse_filter_count p Hp (length smoothed - 2) 1) as [H _].
  destruct (length smoothed) as [|[|n]]; cbn in *; lia.
Qed.

End PeakFacts.

(** X12.  Syllable nuclei are strict local maxima of the smoothed
    envelope, so no two neighbouring frames both count: on a buffer of [n]
    frames, with a hop that is not zero and no more frames than the engine
    lets a call spread, [estimateSpeakingRate] returns, it counts at most
    [(n - 1) / 2] syllables, and the rate it reports is that count divided
    by the length of the buffer in seconds. *)
Theorem syllable_count_is_bounded (Math : MathLib) (max_spread : nat)
  (samples : list num) (sr : Qc) :
  (0 < hopSize_of sr)%nat ->
  (frame_count (length samples) (frameSize_of sr) (hopSize_of sr)
   <= max_spread)%nat ->
  exists r,
    estimateSpeakingRate Math max_spread samples sr = Resolved r
    /\ (2 * estimatedSyllables r
        <= frame_count (length samples) (frameSize_of sr) (hopSize_of sr) - 1)%nat
    /\ syllablesPerSecond r
       = Num.of_nat (estimatedSyllables r)
         / (Num.of_nat (length samples) / Fin sr).
Proof.
  intros Hhop Hn.
  pose proof (extractIntensity_outcome Math max_spread samples sr Hhop)
    as Ei.
  cbv zeta in Ei.
  destruct (Nat.ltb_spec max_spread
              (frame_count (length samples) (frameSize_of sr)
                 (hopSize_of sr))) as [Hlt|_]; [lia|].
  unfold estimateSpeakingRate. rewrite Ei.
  eexists. split; [reflexivity|].
  cbn [estimatedSyllables syllablesPerSecond int_values int_mean].
  split; [|reflexivity].
  etransitivity; [apply envelope_peaks_sparse|].
  unfold movingAverage. rewrite length_map, length_seq, length_map, length_grid.
  reflexivity.
Qed.

(** A burst between two silences, 13 frames at 400 Hz: one syllable. *)
Lemma syllable_count_is_bounded_witness :
  exists r,
    estimateSpeakingRate Math_standin spread_standin burst_samples
                         (Q2Qc (inject_Z 400))
    = Resolved r
    /\ estimatedSyllables r = 1%nat
    /\ (2 * estimatedSyllables r
        <= frame_count (length burst_samples)
                       (frameSize_of (Q2Qc (inject_Z 400)))
                       (hopSize_of (Q2Qc (inject_Z 400))) - 1)%nat
    /\ syllablesPerSecond r
       = Num.of_nat (estimatedSyllables r)
         / (Num.of_nat (length burst_samples) / Fin (Q2Qc (inject_Z 400))).
Proof.
  destruct (syllable_count_is_bounded Math_standin spread_standin
              burst_samples (Q2Qc (inject_Z 400)))
    as (r & Er & Hb & Hr).
  - vm_compute. lia.
  - vm_compute. lia.
  - exists r. split; [exact Er|]. split; [|split; assumption].
    vm_compute in Er. injection Er as <-. reflexivity.
Defined.

(** ** Recordings shorter than a frame *)

(** X13.  A recording that is not longer than one analysis frame has no
    frame at all: every contour of its bundle is empty, no syllable is
    counted, there is no pitch range, the mean intensity is 0, and the
    intensity range, [Math.max() - Math.min()] of no value, is
    [-Infinity]. *)
Theorem short_recording_has_no_frame (Math : MathLib) (max_spread : nat)
  (samples : list num) (sr : Qc) (d : num) :
  (0 < hopSize_of sr)%nat ->
  (length samples <= frameSize_of sr)%nat ->
  exists b,
    analyzeSamples Math max_spread samples sr d = Resolved b
    /\ f0_values (f0 b) = []
    /\ fs_values (f1 (formants b)) = []
    /\ int_values (intensity b) = []
    /\ int_mean (intensity b) = Num.zero
    /\ int_range (intensity b) = NegInf
    /\ estimatedSyllables (speakingRate b) = 0%nat
    /\ pitchRange b = None.
Proof.
  intros Hhop Hlen. destruct (frame_starts_grid samples sr Hhop) as [E _].
  assert (Hc : frame_count (length samples) (frameSize_of sr) (hopSize_of sr)
               = 0%nat).
  { unfold frame_count.
    destruct (Nat.ltb_spec (frameSize_of sr) (length samples)); [lia|].
    reflexivity. }
  rewrite Hc in E.
  unfold analyzeSamples, estimateSpeakingRate, extractF0Contour,
    extractFormants, extractIntensity.
  rewrite E. cbn [grid seq map]. unfold spread. cbn [length].
  destruct (Nat.ltb_spec max_spread 0); [lia|].
  cbv beta iota zeta. cbn [f0_values].
  unfold pitchRange_of, voiced. cbn [filter length Nat.ltb Nat.leb].
  eexists. split; [reflexivity|].
  cbn. repeat split; reflexivity.
Qed.

Lemma short_recording_has_no_frame_witness :
  exists b,
    analyzeSamples Math_standin spread_standin tone_samples
                   (Q2Qc (inject_Z 800)) (Num.of_Q (15 # 1000))
    = Resolved b
    /\ f0_values (f0 b) = []
    /\ fs_values (f1 (formants b)) = []
    /\ int_values (intensity b) = []
    /\ int_mean (intensity b) = Num.zero
    /\ int_range (intensity b) = NegInf
    /\ estimatedSyllables (speakingRate b) = 0%nat
    /\ pitchRange b = None.
Proof.
  apply (short_recording_has_no_frame Math_standin spread_standin
           tone_samples (Q2Qc (inject_Z 800)) (Num.of_Q (15 # 1000))).
  - vm_compute. lia.
  - vm_compute. lia.
Defined.

Section EmptyRecording.

Lemma add_NaN_r a : (a + NaN)%num = NaN.
Proof. now destruct a. Qed.

Lemma mul_NaN_l a : (NaN * a)%num = NaN.
Proof. reflexivity. Qed.

(** A speaking rate of [NaN] on either side makes the overall score
    [NaN]. *)
Lemma overall_NaN_of_rate t u :
  syllablesPerSecond (speakingRate t) = NaN
  \/ syllablesPerSecond (speakingRate u) = NaN ->
  score_overall (compareProsody t u) = NaN.
Proof.
  intros H. unfold compareProsody. cbn [score_overall].
  assert (E : Num.abs (syllablesPerSecond (speakingRate t)
                       - syllablesPerSecond (speakingRate u)) = NaN).
  { destruct H as [-> | ->]; [reflexivity|].
    now destruct (syllablesPerSecond (speakingRate t)). }
  rewrite E.
  change (Num.max Num.zero (Num.one - NaN / Num.of_Z 3)) with NaN.
  rewrite mul_NaN_l, add_NaN_r. reflexivity.
Qed.

End EmptyRecording.

(** X14.  A decoded buffer of no sample at all gives a speaking rate of
    [0 / 0], that is [NaN], and the overall score of any comparison with
    such a bundle, on either side, is [NaN]. *)
Theorem empty_recording_has_no_overall_score (Math : MathLib)
  (max_spread : nat) (sr : Qc) (d : num) :
  (0 < hopSize_of sr)%nat ->
  exists b,
    analyzeSamples Math max_spread [] sr d = Resolved b
    /\ syllablesPerSecond (speakingRate b) = NaN
    /\ forall other,
         score_overall (compareProsody other b) = NaN
         /\ score_overall (compareProsody b other) = NaN.
Proof.
  intros Hhop.
  assert (Hn : (frame_count (length (@nil num)) (frameSize_of sr)
                  (hopSize_of sr) <= max_spread)%nat).
  { unfold frame_count. cbn [length].
    destruct (Nat.ltb_spec (frameSize_of sr) 0); lia. }
  destruct (analyzeSamples_returns Math max_spread [] sr d Hhop Hn)
    as (c & fm & it & rate & prange & _ & _ & Eit & Erate & _ & Eb).
  assert (Hrate : syllablesPerSecond rate = NaN).
  { unfold estimateSpeakingRate in Erate. rewrite Eit in Erate.
    injection Erate as <-. cbn [syllablesPerSecond length].
    rewrite (extractIntensity_outcome Math max_spread [] sr Hhop) in Eit.
    cbv zeta in Eit.
    destruct (Nat.ltb_spec max_spread
                (frame_count (length (@nil num)) (frameSize_of sr)
                   (hopSize_of sr))) as [Hlt|_]; [lia|].
    injection Eit as <-. cbn.
    destruct (Qceqb sr (Q2Qc 0)); [reflexivity|].
    replace (Qc_of_nat 0 / sr)%Qc with 0%Qc; [reflexivity|].
    rewrite Qc_of_nat_0. unfold Qcdiv. now rewrite Qcmult_0_l. }
  eexists. split; [exact Eb|]. cbn [speakingRate].
  split; [exact Hrate|].
  intros other. split; apply overall_NaN_of_rate; cbn [speakingRate]; auto.
Qed.

Lemma empty_recording_has_no_overall_score_witness :
  exists b,
    analyzeSamples Math_standin spread_standin [] (Q2Qc (inject_Z 400))
                   Num.zero
    = Resolved b
    /\ syllablesPerSecond (speakingRate b) = NaN
    /\ forall other,
         score_overall (compareProsody other b) = NaN
         /\ score_overall (compareProsody b other) = NaN.
Proof.
  apply (empty_recording_has_no_overall_score Math_standin spread_standin
           (Q2Qc (inject_Z 400)) Num.zero).
  vm_compute. lia.
Defined.

(** ** The pitch range of a bundle *)

Section PitchRangeFacts.

Local Open Scope Qc_scope.

Lemma voiced_positive values x :
  In (Fin x) (voiced values) -> 0 < x.
Proof.
  unfold voiced. intros H. apply filter_In in H. destruct H as [_ H].
  unfold Num.gtb in H. simpl in H. now apply Qcltb_lt in H.
Qed.

End PitchRangeFacts.

(** X15.  The pitch range is present exactly when some F0 value is
    voiced and the voiced values are no more than the engine lets a call
    spread; with more of them the spread throws a [RangeError].  When the
    voiced values are finite, the statistics of a pitch range are ordered,
    [0 < min <= max], and its variance is not negative. *)
Theorem pitchRange_statistics_are_ordered (max_spread : nat)
  (values : list num) :
  Forall Num.finite (voiced values) ->
  match pitchRange_of max_spread values with
  | inl e =>
      e = RangeError /\ (max_spread < length (voiced values))%nat
  | inr None => voiced values = []
  | inr (Some r) =>
      voiced values <> []
      /\ (length (voiced values) <= max_spread)%nat
      /\ (Num.zero <? pr_min r) = true
      /\ (pr_min r <=? pr_max r) = true
      /\ (Num.zero <=? pr_variance r) = true
  end.
Proof.
  intros H. unfold pitchRange_of, spread.
  destruct (voiced values) as [|h t] eqn:E; [reflexivity|].
  change (0 <? length (h :: t))%nat with true. cbv beta iota.
  destruct (Nat.ltb_spec max_spread (length (h :: t))) as [Hlt|Hge];
    [now split|].
  cbn [pr_min pr_max pr_mean pr_variance].
  assert (Hne : h :: t <> []) by discriminate.
  split; [exact Hne|]. split; [exact Hge|].
  destruct (min_list_spec (h :: t) H Hne) as (m & Hm & Hlo & Hmin).
  destruct (max_list_spec (h :: t) H Hne) as (M & HM & Hhi & _).
  rewrite Hm, HM.
  split.
  { rewrite <- E in Hmin. apply voiced_positive in Hmin.
    rewrite zero_Fin. simpl. now apply Qcltb_lt. }
  split.
  { apply leb_Fin. apply Hhi. rewrite <- Hm.
    destruct (min_list_spec (h :: t) H Hne) as (m' & Hm' & _ & Hin').
    rewrite Hm in Hm'. injection Hm' as <-. now rewrite Hm. }
  destruct (variance_nonneg (h :: t) H Hne) as (v & -> & Hv).
  rewrite zero_Fin. now apply leb_Fin.
Qed.

Lemma pitchRange_statistics_are_ordered_witness :
  match pitchRange_of spread_standin
          [Num.of_Z 120; Num.zero; Num.of_Z 180] with
  | inl e =>
      e = RangeError
      /\ (spread_standin
          < length (voiced [Num.of_Z 120; Num.zero; Num.of_Z 180]))%nat
  | inr None => voiced [Num.of_Z 120; Num.zero; Num.of_Z 180] = []
  | inr (Some r) =>
      voiced [Num.of_Z 120; Num.zero; Num.of_Z 180] <> []
      /\ (length (voiced [Num.of_Z 120; Num.zero; Num.of_Z 180])
          <= spread_standin)%nat
      /\ (Num.zero <? pr_min r) = true
      /\ (pr_min r <=? pr_max r) = true
      /\ (Num.zero <=? pr_variance r) = true
  end.
Proof.
  apply (pitchRange_statistics_are_ordered spread_standin
           [Num.of_Z 120; Num.zero; Num.of_Z 180]).
  repeat constructor.
Defined.

(** ** The analyzer keeps its audio context *)

(** X16.  [analyzeAudio] creates the audio context on the first call only:
    after a call, whether it resolved or was rejected, the analyzer holds
    the context and the sample rate that the call worked with, and a later
    call works with them again, whatever context the platform would
    create then, and leaves the analyzer as it is. *)
Theorem analyzeAudio_initializes_once (Math : MathLib) (max_spread : nat)
  (ctx ctx' : AudioContext) (this : ProsodyAnalyzer)
  (blob blob' : list Byte.byte) :
  let this1 := fst (analyzeAudio Math max_spread ctx this blob) in
  audioContext this1 = Some (context_in_use ctx this)
  /\ sampleRate this1 = rate_in_use ctx this
  /\ context_in_use ctx' this1 = context_in_use ctx this
  /\ rate_in_use ctx' this1 = rate_in_use ctx this
  /\ fst (analyzeAudio Math max_spread ctx' this1 blob') = this1.
Proof.
  unfold analyzeAudio, context_in_use, rate_in_use, initialize.
  destruct this as [[c0|] rate]; cbn [audioContext sampleRate].
  - destruct (decodeAudioData c0 blob) as [e|ab];
      cbn [fst audioContext sampleRate];
      (repeat split; try reflexivity);
      now destruct (decodeAudioData c0 blob') as [e'|ab'].
  - destruct (decodeAudioData ctx blob) as [e|ab];
      cbn [fst audioContext sampleRate];
      (repeat split; try reflexivity);
      now destruct (decodeAudioData ctx blob') as [e'|ab'].
Qed.

(** ** The feedback generator *)

Section FeedbackFacts.

(** The encouragement is none of the eight pieces of advice. *)
Lemma great_work_is_no_advice m :
  In m [Feedback.higher_pitch; Feedback.lower_pitch;
        Feedback.more_variation; Feedback.vowel_sounds;
        Feedback.speak_faster; Feedback.slow_down;
        Feedback.stress_patterns; Feedback.intonation_patterns] ->
  m <> Feedback.great_work.
Proof.
  intros H E. subst m. cbn [In] in H.
  repeat (destruct H as [H|H]; [discriminate H|]). exact H.
Qed.

(** The messages, in the order in which [generateFeedback] can push
    them. *)
Lemma generateFeedback_cases scores t u :
  generateFeedback scores t u = [Feedback.great_work]
  \/ (generateFeedback scores t u <> []
      /\ (length (generateFeedback scores t u) <= 6)%nat
      /\ Forall (fun m =>
                   In m [Feedback.higher_pitch; Feedback.lower_pitch;
                         Feedback.more_variation; Feedback.vowel_sounds;
                         Feedback.speak_faster; Feedback.slow_down;
                         Feedback.stress_patterns;
                         Feedback.intonation_patterns])
                (generateFeedback scores t u)).
Proof.
  unfold generateFeedback.
  generalize Feedback.higher_pitch Feedback.lower_pitch
    Feedback.more_variation Feedback.vowel_sounds Feedback.speak_faster
    Feedback.slow_down Feedback.stress_patterns
    Feedback.intonation_patterns Feedback.great_work.
  intros m1 m2 m3 m4 m5 m6 m7 m8 m9.
  destruct (pitchRange t), (pitchRange u); cbv zeta;
    repeat match goal with
    | |- context [if ?c then _ else _] =>
        match c with
        | Nat.eqb _ _ => fail 1
        | _ => destruct c
        end
    end;
    cbn [push app length Nat.eqb];
    first [ left; reflexivity
          | right; split; [discriminate|]; split; [cbn [length]; lia|];
            repeat (apply Forall_cons;
                    [cbn [In];
                     solve [repeat (first [left; reflexivity | right])]|]);
            apply Forall_nil ].
Qed.

(** A pitch-range score under 0.6 always brings the advice on intonation
    patterns, as the last message. *)
Lemma low_pitchRange_score_advice scores t u :
  (score_pitchRange scores <? Num.of_Q (6 # 10)) = true ->
  In Feedback.intonation_patterns (generateFeedback scores t u).
Proof.
  intros H. unfold generateFeedback. rewrite H.
  generalize Feedback.higher_pitch Feedback.lower_pitch
    Feedback.more_variation Feedback.vowel_sounds Feedback.speak_faster
    Feedback.slow_down Feedback.stress_patterns
    Feedback.intonation_patterns Feedback.great_work.
  intros m1 m2 m3 m4 m5 m6 m7 m8 m9.
  destruct (pitchRange t), (pitchRange u); cbv zeta;
    repeat match goal with
    | |- context [if ?c then _ else _] =>
        match c with
        | Nat.eqb _ _ => fail 1
        | _ => destruct c
        end
    end;
    cbn [push app length Nat.eqb In];
    solve [repeat (first [left; reflexivity | right])].
Qed.

(** The neutral pitch-range score of a comparison with a bundle that has
    no pitch range. *)
Lemma neutral_pitchRange_score t u :
  pitchRange t = None \/ pitchRange u = None ->
  score_pitchRange (compareProsody t u) = Num.of_Q (5 # 10).
Proof.
  intros H. unfold compareProsody. cbn [score_pitchRange].
  destruct H as [-> | ->]; [reflexivity|].
  now destruct (pitchRange t).
Qed.

End FeedbackFacts.

(** X17.  [generateFeedback] always says something, and never more than
    six things: it returns between one and six messages, and the
    encouragement is returned only alone, when no advice applies. *)
Theorem feedback_is_advice_or_encouragement (scores : Scores)
  (targetFeatures userFeatures : Features) :
  let feedback := generateFeedback scores targetFeatures userFeatures in
  (1 <= length feedback <= 6)%nat
  /\ (In Feedback.great_work feedback <-> feedback = [Feedback.great_work]).
Proof.
  cbv zeta.
  destruct (generateFeedback_cases scores targetFeatures userFeatures)
    as [E|(Hne & Hlen & Hall)].
  - rewrite E. split; [cbn; lia|]. split; [reflexivity|now left].
  - split.
    + split; [|exact Hlen].
      destruct (generateFeedback _ _ _); [congruence|cbn; lia].
    + split.
      * intros Hin. exfalso.
        apply (great_work_is_no_advice Feedback.great_work);
          [|reflexivity].
        exact (proj1 (Forall_forall _ _) Hall _ Hin).
      * intros E. rewrite E. now left.
Qed.

(** X18.  A comparison in which either bundle has no pitch range, as when
    a recording has no voiced frame, scores the pitch range at the neutral
    0.5, which is under the threshold of the feedback: the feedback on such
    a comparison always contains the advice on intonation patterns, and is
    never the encouragement. *)
Theorem missing_pitch_range_brings_intonation_advice
  (targetFeatures userFeatures : Features) :
  pitchRange targetFeatures = None \/ pitchRange userFeatures = None ->
  let scores := compareProsody targetFeatures userFeatures in
  let feedback := generateFeedback scores targetFeatures userFeatures in
  In Feedback.intonation_patterns feedback
  /\ ~ In Feedback.great_work feedback.
Proof.
  intros H. cbv zeta.
  assert (Hin : In Feedback.intonation_patterns
                   (generateFeedback
                      (compareProsody targetFeatures userFeatures)
                      targetFeatures userFeatures)).
  { apply low_pitchRange_score_advice.
    now rewrite neutral_pitchRange_score. }
  split; [exact Hin|]. intros Hg.
  destruct (generateFeedback_cases
              (compareProsody targetFeatures userFeatures)
              targetFeatures userFeatures) as [E|(_ & _ & Hall)].
  - rewrite E in Hin. destruct Hin as [Hin|[]]. discriminate Hin.
  - apply (great_work_is_no_advice Feedback.great_work); [|reflexivity].
    exact (proj1 (Forall_forall _ _) Hall _ Hg).
Qed.

Lemma missing_pitch_range_brings_intonation_advice_witness :
  In Feedback.intonation_patterns
     (generateFeedback (compareProsody tone_bundle tiny_bundle)
                       tone_bundle tiny_bundle)
  /\ ~ In Feedback.great_work
          (generateFeedback (compareProsody tone_bundle tiny_bundle)
                            tone_bundle tiny_bundle).
Proof.
  apply (missing_pitch_range_brings_intonation_advice
           tone_bundle tiny_bundle).
  right. vm_compute. reflexivity.
Defined.

(** X19.  A bundle with a voiced frame, finite values and a positive
    duration, compared with itself, earns the encouragement and no
    advice. *)
Theorem perfect_match_earns_encouragement (b : Features) :
  valid_bundle b ->
  voiced (f0_values (f0 b)) <> [] ->
  int_values (intensity b) <> [] ->
  pitchRange b <> None ->
  generateFeedback (compareProsody b b) b b = [Feedback.great_work].
Proof.
  intros V Hv Hi Hp. rewrite compareProsody_self by assumption.
  reflexivity.
Qed.

Lemma perfect_match_earns_encouragement_witness :
  generateFeedback (compareProsody tone_bundle tone_bundle)
                   tone_bundle tone_bundle
  = [Feedback.great_work].
Proof.
  apply (perfect_match_earns_encouragement tone_bundle).
  - exact tone_bundle_valid.
  - vm_compute. discriminate.
  - vm_compute. discriminate.
  - vm_compute. discriminate.
Defined.

(** ** Session statistics *)

Section SessionFacts.

Local Open Scope Qc_scope.

Lemma record_score_Fin n T B x :
  record_score (mkSessionStats n (Fin T) (Fin B)) (Fin x)
  = mkSessionStats (n + 1) (Fin (T + x)) (Fin (if Qcltb B x then x else B)).
Proof.
  unfold record_score. cbn [attempts totalScore bestScore].
  unfold Num.gtb. cbn [Num.ltb Num.add]. now destruct (Qcltb B x).
Qed.

(** What the statistics are after the scores [qs], all in [[0, 1]]. *)
Lemma session_invariant (qs : list Qc) :
  (forall q, In q qs -> 0 <= q /\ q <= 1) ->
  exists T B,
    fold_left record_score (map Fin qs) new_SessionStats
    = mkSessionStats (length qs) (Fin T) (Fin B)
    /\ 0 <= B /\ B <= 1
    /\ (forall q, In q qs -> q <= B)
    /\ (qs <> [] -> In B qs)
    /\ 0 <= T /\ T <= Qc_of_nat (length qs) * B.
Proof.
  induction qs as [|x qs IH] using rev_ind; intros H.
  - exists 0, 0. cbn [map fold_left length]. rewrite Qc_of_nat_0.
    split; [reflexivity|].
    repeat split; try (intros; qclra); try discriminate.
    + intros q [].
    + congruence.
  - destruct IH as (T & B & E & HB0 & HB1 & Hall & Hin & HT0 & HT1).
    { intros q Hq. apply H. apply in_or_app. now left. }
    destruct (H x) as [Hx0 Hx1]; [apply in_or_app; right; now left|].
    rewrite map_app, fold_left_app, E. cbn [map fold_left].
    rewrite record_score_Fin, length_app. cbn [length].
    exists (T + x), (if Qcltb B x then x else B).
    split; [reflexivity|].
    replace (length qs + 1)%nat with (S (length qs)) by lia.
    rewrite Qc_of_nat_S.
    pose proof (Qc_of_nat_nonneg (length qs)) as Hn.
    destruct (Qcltb B x) eqn:Ex; qcbool.
    + split; [exact Hx0|]. split; [exact Hx1|]. split.
      { intros q Hq. apply in_app_or in Hq. destruct Hq as [Hq|[<-|[]]].
        - apply Qcle_trans with B; [now apply Hall|now apply Qclt_le_weak].
        - apply Qcle_refl. }
      split; [intros _; apply in_or_app; right; now left|].
      split; [clear - HT0 Hx0; qclra|].
      clear - HT1 Hn Ex HB0. qc2q. nra.
    + split; [exact HB0|]. split; [exact HB1|]. split.
      { intros q Hq. apply in_app_or in Hq. destruct Hq as [Hq|[<-|[]]].
        - now apply Hall.
        - exact Ex. }
      split.
      { intros _. apply in_or_app. destruct qs as [|q0 qs'].
        - right. left. cbn [length] in *. rewrite Qc_of_nat_0 in HT1.
          cbn [map fold_left] in E. injection E as E1 E2.
          apply Qcle_antisym; [exact Ex|rewrite <- E2; exact Hx0].
        - left. apply Hin. discriminate. }
      split; [clear - HT0 Hx0; qclra|].
      clear - HT1 Hn Ex HB0. qc2q. nra.
Qed.

Lemma in_unit_list_inv scores :
  Forall in_unit scores ->
  exists qs, scores = map Fin qs
             /\ forall q, In q qs -> 0 <= q /\ q <= 1.
Proof.
  induction 1 as [|s t Hs Ht (qs & -> & Hqs)].
  - exists []. split; [reflexivity|]. intros q [].
  - destruct s as [| | |q]; simpl in Hs; try tauto.
    exists (q :: qs). split; [reflexivity|].
    intros q' [<-|Hq']; [exact Hs|now apply Hqs].
Qed.

(** The best score of a session only depends on the best score so far. *)
Lemma bestScore_fold scores st :
  bestScore (fold_left record_score scores st)
  = fold_left (fun best s => if s >? best then s else best) scores
              (bestScore st).
Proof.
  revert st. induction scores as [|s t IH]; intros st; [reflexivity|].
  cbn [fold_left]. now rewrite IH.
Qed.

Lemma attempts_fold scores st :
  attempts (fold_left record_score scores st)
  = (attempts st + length scores)%nat.
Proof.
  revert st. induction scores as [|s t IH]; intros st; cbn [fold_left length].
  - lia.
  - rewrite IH. cbn [record_score attempts]. lia.
Qed.

Lemma totalScore_NaN scores st :
  totalScore st = NaN ->
  totalScore (fold_left record_score scores st) = NaN.
Proof.
  revert st. induction scores as [|s t IH]; intros st H; [exact H|].
  cbn [fold_left]. apply IH. cbn [record_score totalScore]. now rewrite H.
Qed.

End SessionFacts.

(** X20.  The statistics of a session count what they should: after any
    number of comparisons whose overall scores are in [[0, 1]], [attempts]
    is the number of comparisons, [bestScore] is the greatest of the scores
    (0 before the first), and the average that [getSessionStats] reports
    is in [[0, 1]]. *)
Theorem session_statistics_are_consistent (scores : list num) :
  Forall in_unit scores ->
  let stats := fold_left record_score scores new_SessionStats in
  attempts stats = length scores
  /\ in_unit (bestScore stats)
  /\ (forall s, In s scores -> (s <=? bestScore stats) = true)
  /\ (scores <> [] -> In (bestScore stats) scores)
  /\ in_unit (averageScore (getSessionStats stats)).
Proof.
  intros H. cbv zeta.
  destruct (in_unit_list_inv scores H) as (qs & -> & Hqs).
  destruct (session_invariant qs Hqs)
    as (T & B & -> & HB0 & HB1 & Hall & Hin & HT0 & HT1).
  cbn [attempts bestScore]. rewrite length_map.
  split; [reflexivity|]. split; [split; assumption|]. split.
  { intros s Hs. apply in_map_iff in Hs. destruct Hs as (q & <- & Hq).
    apply leb_Fin. now apply Hall. }
  split.
  { intros Hne. apply in_map. apply Hin. intros ->. now apply Hne. }
  unfold getSessionStats. cbn [averageScore attempts totalScore].
  destruct (Nat.ltb_spec 0 (length qs)) as [Hn|Hn].
  - assert (Hk : (0 < Qc_of_nat (length qs))%Qc) by now apply Qc_of_nat_pos.
    unfold Num.of_nat. rewrite div_Fin by now apply Qc_pos_nonzero.
    assert (Hlo : (0 <= T / Qc_of_nat (length qs))%Qc).
    { apply Qc_div_lower; [exact Hk|]. now rewrite Qcmult_0_r. }
    assert (Hhi : (T / Qc_of_nat (length qs) <= B)%Qc).
    { now apply Qc_div_upper. }
    split; [exact Hlo|]. now apply Qcle_trans with B.
  - apply in_unit_zero.
Qed.

Lemma session_statistics_are_consistent_witness :
  let stats :=
    fold_left record_score [Num.of_Q (1 # 2); Num.one; Num.of_Q (1 # 4)]
              new_SessionStats in
  attempts stats = length [Num.of_Q (1 # 2); Num.one; Num.of_Q (1 # 4)]
  /\ in_unit (bestScore stats)
  /\ (forall s, In s [Num.of_Q (1 # 2); Num.one; Num.of_Q (1 # 4)] ->
                (s <=? bestScore stats) = true)
  /\ ([Num.of_Q (1 # 2); Num.one; Num.of_Q (1 # 4)] <> [] ->
      In (bestScore stats) [Num.of_Q (1 # 2); Num.one; Num.of_Q (1 # 4)])
  /\ in_unit (averageScore (getSessionStats stats)).
Proof.
  apply (session_statistics_are_consistent
           [Num.of_Q (1 # 2); Num.one; Num.of_Q (1 # 4)]).
  repeat constructor; intros H; discriminate H.
Defined.

(** X21.  One overall score of [NaN] spoils the average for the rest of
    the session: from then on [totalScore] and the reported average are
    [NaN], while the attempt is counted and the best score is what it
    would be without it. *)
Theorem nan_score_spoils_the_average (before after : list num) :
  let stats :=
    fold_left record_score (before ++ NaN :: after) new_SessionStats in
  attempts stats = (length before + 1 + length after)%nat
  /\ totalScore stats = NaN
  /\ averageScore (getSessionStats stats) = NaN
  /\ bestScore stats
     = bestScore (fold_left record_score (before ++ after) new_SessionStats).
Proof.
  cbv zeta. rewrite !fold_left_app. cbn [fold_left].
  set (st := fold_left record_score before new_SessionStats).
  assert (HT : totalScore (fold_left record_score after (record_score st NaN))
               = NaN).
  { apply totalScore_NaN. cbn [record_score totalScore]. apply add_NaN_r. }
  assert (HA : attempts (fold_left record_score after (record_score st NaN))
               = (length before + 1 + length after)%nat).
  { rewrite attempts_fold. cbn [record_score attempts]. unfold st.
    rewrite attempts_fold. cbn [new_SessionStats attempts]. lia. }
  split; [exact HA|]. split; [exact HT|]. split.
  - unfold getSessionStats. cbn [averageScore]. rewrite HA, HT.
    destruct (Nat.ltb_spec 0 (length before + 1 + length after)); [|lia].
    reflexivity.
  - rewrite !bestScore_fold. cbn [record_score bestScore].
    unfold Num.gtb.
    replace (bestScore st <? NaN) with false by now destruct (bestScore st).
    reflexivity.
Qed.

(** ** The WAV encoder *)

Section WavFacts.

Lemma list_set_app_r {A : Type} (l1 l2 : list A) i v :
  list_set (l1 ++ l2) (length l1 + i) v = l1 ++ list_set l2 i v.
Proof.
  induction l1 as [|h t IH]; [reflexivity|].
  cbn [app length Nat.add list_set]. now rewrite IH.
Qed.

Lemma fold_left_map' {A B C : Type} (h : A -> C -> A) (f : B -> C) l a :
  fold_left h (map f l) a = fold_left (fun a b => h a (f b)) l a.
Proof.
  revert a. induction l as [|x t IH]; intros a; [reflexivity|].
  cbn [map fold_left]. apply IH.
Qed.

Lemma fold_left_flat_map {A B C : Type} (h : A -> C -> A) (f : B -> list C)
  l a :
  fold_left h (flat_map f l) a
  = fold_left (fun a b => fold_left h (f b) a) l a.
Proof.
  revert a. induction l as [|x t IH]; intros a; [reflexivity|].
  cbn [flat_map fold_left]. now rewrite fold_left_app, IH.
Qed.

(** Writing 16-bit values one after the other from the end of [pre]. *)
Lemma write_sequence (f : num -> Z) items :
  forall pre rest,
    (2 * length items <= length rest)%nat ->
    fold_left
      (fun (st : ArrayBuffer * nat) x =>
         (setInt16 (fst st) (snd st) (f x), (snd st + 2)%nat))
      items (pre ++ rest, length pre)
    = (pre ++ flat_map (fun x => bytes16 (f x)) items
           ++ skipn (2 * length items) rest,
       (length pre + 2 * length items)%nat).
Proof.
  induction items as [|x t IH]; intros pre rest Hlen.
  - cbn [fold_left flat_map length Nat.mul skipn app]. f_equal. lia.
  - cbn [length] in Hlen.
    destruct rest as [|a [|b rest]]; cbn [length] in Hlen; try lia.
    cbn [fold_left fst snd].
    assert (E : setInt16 (pre ++ a :: b :: rest) (length pre) (f x)
                = (pre ++ bytes16 (f x)) ++ rest).
    { unfold setInt16, setUint16, bytes16. cbv zeta.
      replace (length pre) with (length pre + 0)%nat at 1 by lia.
      rewrite list_set_app_r. cbn [list_set].
      replace (length pre + 1)%nat with (length pre + 1)%nat by lia.
      rewrite list_set_app_r. cbn [list_set].
      now rewrite <- app_assoc. }
    rewrite E.
    replace (length pre + 2)%nat with (length (pre ++ bytes16 (f x)))
      by (rewrite length_app; reflexivity).
    rewrite IH by lia.
    rewrite length_app. cbn [flat_map length].
    replace (2 * S (length t))%nat with (S (S (2 * length t))) by lia.
    cbn [skipn]. rewrite <- !app_assoc. f_equal. unfold bytes16. cbn. lia.
Qed.

Lemma length_wav_header C sr d : length (wav_header C sr d) = 44%nat.
Proof. reflexivity. Qed.

Lemma length_flat_map_rows {A B C : Type} (g : A -> B -> C) (cols : list B)
  (rows : list A) :
  length (flat_map (fun i => map (g i) cols) rows)
  = (length rows * length cols)%nat.
Proof.
  induction rows as [|i t IH]; [reflexivity|].
  cbn [flat_map length]. rewrite length_app, length_map, IH. reflexivity.
Qed.

Lemma length_interleaved b :
  length (interleaved b) = (rb_length b * numberOfChannels b)%nat.
Proof.
  unfold interleaved.
  rewrite (length_flat_map_rows
             (fun i ch => Num.get (getChannelData b ch) i)).
  now rewrite !length_seq.
Qed.

(** The header as the encoder writes it into a buffer of zeros. *)
Lemma header_written C sr d :
  setUint32
    (writeString
       (setUint16
          (setUint16
             (setUint32
                (setUint32
                   (setUint16
                      (setUint16
                         (setUint32
                            (writeString
                               (writeString
                                  (setUint32
                                     (writeString (repeat 0%Z (44 + d)) 0
                                                  Wav.RIFF)
                                     4 (Z.of_nat (36 + d)))
                                  8 Wav.WAVE)
                               12 Wav.fmt)
                            16 16)
                         20 (Z.of_nat 1))
                      22 (Z.of_nat C))
                   24 (to_integer sr))
                28 (to_integer (sr * Num.of_nat (C * (16 / 8)))))
             32 (Z.of_nat (C * (16 / 8))))
          34 (Z.of_nat 16))
       36 Wav.data)
    40 (Z.of_nat d)
  = wav_header C sr d ++ repeat 0%Z d.
Proof.
  change (16 / 8)%nat with 2%nat.
  change (Z.of_nat 1) with 1%Z. change (Z.of_nat 16) with 16%Z.
  unfold wav_header, bytes32, bytes16, setUint32, setUint16. cbv zeta.
  generalize (Z.of_nat (36 + d) mod 4294967296)%Z
    (Z.of_nat C mod 65536)%Z (to_integer sr mod 4294967296)%Z
    (to_integer (sr * Num.of_nat (C * 2)) mod 4294967296)%Z
    (Z.of_nat (C * 2) mod 65536)%Z (Z.of_nat d mod 4294967296)%Z
    (16 mod 4294967296)%Z (1 mod 65536)%Z (16 mod 65536)%Z.
  intros u1 u2 u3 u4 u5 u6 u7 u8 u9.
  generalize (u1 mod 256)%Z ((u1 / 256) mod 256)%Z ((u1 / 65536) mod 256)%Z
    (u1 / 16777216)%Z (u2 mod 256)%Z (u2 / 256)%Z
    (u3 mod 256)%Z ((u3 / 256) mod 256)%Z ((u3 / 65536) mod 256)%Z
    (u3 / 16777216)%Z
    (u4 mod 256)%Z ((u4 / 256) mod 256)%Z ((u4 / 65536) mod 256)%Z
    (u4 / 16777216)%Z (u5 mod 256)%Z (u5 / 256)%Z
    (u6 mod 256)%Z ((u6 / 256) mod 256)%Z ((u6 / 65536) mod 256)%Z
    (u6 / 16777216)%Z
    (u7 mod 256)%Z ((u7 / 256) mod 256)%Z ((u7 / 65536) mod 256)%Z
    (u7 / 16777216)%Z (u8 mod 256)%Z (u8 / 256)%Z
    (u9 mod 256)%Z (u9 / 256)%Z.
  intros.
  reflexivity.
Qed.

(** The encoder's output in closed form: the header, then the samples
    in the order of [interleaved]. *)
Lemma audioBufferToWav_closed b :
  audioBufferToWav b
  = wav_header (numberOfChannels b) (rb_sampleRate b)
               (rb_length b * (numberOfChannels b * 2))
    ++ flat_map (fun x => bytes16 (to_integer (intSample_of x)))
                (interleaved b).
Proof.
  unfold audioBufferToWav. cbv zeta.
  rewrite header_written. change (16 / 8)%nat with 2%nat.
  set (step := fun (st : ArrayBuffer * nat) (x : num) =>
                 (setInt16 (fst st) (snd st) (to_integer (intSample_of x)),
                  (snd st + 2)%nat)).
  set (hd := wav_header (numberOfChannels b) (rb_sampleRate b)
                        (rb_length b * (numberOfChannels b * 2))).
  set (zeros := repeat 0%Z (rb_length b * (numberOfChannels b * 2))).
  transitivity (fst (fold_left step (interleaved b) (hd ++ zeros, 44%nat))).
  { f_equal. unfold interleaved. rewrite fold_left_flat_map.
    apply fold_left_ext_in. intros st i _.
    rewrite fold_left_map'. apply fold_left_ext_in. intros st' ch Hch.
    apply in_seq in Hch. unfold step.
    replace (nth ch (map (getChannelData b) (seq 0 (numberOfChannels b))) [])
      with (getChannelData b ch); [reflexivity|].
    rewrite (nth_indep _ [] (getChannelData b 0))
      by (rewrite length_map, length_seq; lia).
    rewrite map_nth, seq_nth by lia. reflexivity. }
  change 44%nat with (length hd).
  unfold step. rewrite write_sequence.
  - cbn [fst]. rewrite length_interleaved. unfold zeros.
    replace (2 * (rb_length b * numberOfChannels b))%nat
      with (length (repeat 0%Z (rb_length b * (numberOfChannels b * 2))))
      by (rewrite repeat_length; lia).
    now rewrite skipn_all, app_nil_r.
  - rewrite length_interleaved. unfold zeros. rewrite repeat_length. lia.
Qed.

Lemma length_flat_map_bytes16 (f : num -> Z) items :
  length (flat_map (fun x => bytes16 (f x)) items) = (2 * length items)%nat.
Proof.
  induction items as [|x t IH]; [reflexivity|].
  cbn [flat_map length app bytes16]. rewrite IH. lia.
Qed.

(** The two bytes of the [k]-th value of a sequence of 16-bit values. *)
Lemma nth_flat_map_bytes16 (f : num -> Z) items k :
  (k < length items)%nat ->
  nth (2 * k) (flat_map (fun x => bytes16 (f x)) items) 0%Z
  = ((f (nth k items NaN) mod 65536) mod 256)%Z
  /\ nth (2 * k + 1) (flat_map (fun x => bytes16 (f x)) items) 0%Z
     = (f (nth k items NaN) mod 65536 / 256)%Z.
Proof.
  revert k. induction items as [|x t IH]; intros k Hk; [simpl in Hk; lia|].
  destruct k as [|k].
  - split; reflexivity.
  - cbn [length] in Hk. destruct (IH k ltac:(lia)) as [H1 H2].
    replace (2 * S k)%nat with (S (S (2 * k))) by lia.
    replace (S (S (2 * k)) + 1)%nat with (S (S (2 * k + 1))) by lia.
    cbn [flat_map bytes16 app nth]. split; assumption.
Qed.

(** The value of row [i], column [j] in a list of rows of [cols]
    columns. *)
Lemma nth_flat_map_rows {A : Type} (g : nat -> nat -> A) (d : A)
  (cols rows i j : nat) :
  (i < rows)%nat -> (j < cols)%nat ->
  nth (i * cols + j)
      (flat_map (fun i => map (g i) (seq 0 cols)) (seq 0 rows)) d
  = g i j.
Proof.
  intros Hi Hj.
  assert (G : forall n s i,
             (i < n)%nat ->
             nth (i * cols + j)
                 (flat_map (fun i => map (g i) (seq 0 cols)) (seq s n)) d
             = g (s + i)%nat j).
  { clear i Hi. induction n as [|n IH]; intros s i Hi; [lia|].
    cbn [seq flat_map]. destruct i as [|i].
    - rewrite app_nth1 by (rewrite length_map, length_seq; lia).
      cbn [Nat.mul Nat.add].
      rewrite (nth_indep _ d (g s 0%nat))
        by (rewrite length_map, length_seq; lia).
      rewrite map_nth, seq_nth by lia. f_equal; lia.
    - rewrite app_nth2 by (rewrite length_map, length_seq; cbn; lia).
      rewrite length_map, length_seq.
      replace (S i * cols + j - cols)%nat with (i * cols + j)%nat
        by (cbn; lia).
      rewrite IH by lia. f_equal; lia. }
  now rewrite G.
Qed.

Lemma nth_interleaved b i ch :
  (i < rb_length b)%nat -> (ch < numberOfChannels b)%nat ->
  nth (i * numberOfChannels b + ch) (interleaved b) NaN
  = Num.get (getChannelData b ch) i.
Proof.
  intros Hi Hch. unfold interleaved.
  now rewrite (nth_flat_map_rows
                 (fun i ch => Num.get (getChannelData b ch) i)).
Qed.

Lemma uint32_round_trip v :
  (0 <= v < 4294967296)%Z ->
  match bytes32 v with
  | [b0; b1; b2; b3] =>
      (b0 + 256 * b1 + 65536 * b2 + 16777216 * b3)%Z = v
  | _ => False
  end.
Proof.
  intros Hv. unfold bytes32. cbv zeta.
  rewrite (Z.mod_small v) by lia.
  Z.div_mod_to_equations. lia.
Qed.

Lemma uint16_round_trip v :
  (0 <= v < 65536)%Z ->
  match bytes16 v with
  | [b0; b1] => (b0 + 256 * b1)%Z = v
  | _ => False
  end.
Proof.
  intros Hv. unfold bytes16. cbv zeta.
  rewrite (Z.mod_small v) by lia.
  Z.div_mod_to_equations. lia.
Qed.

Lemma int16_round_trip v :
  (-32768 <= v <= 32767)%Z ->
  match bytes16 v with
  | [b0; b1] =>
      (if (32768 <=? b0 + 256 * b1)%Z
       then b0 + 256 * b1 - 65536 else b0 + 256 * b1)%Z = v
  | _ => False
  end.
Proof.
  intros Hv. unfold bytes16. cbv zeta.
  destruct (Z.leb_spec 32768
              ((v mod 65536) mod 256 + 256 * (v mod 65536 / 256)));
    Z.div_mod_to_equations; lia.
Qed.

Lemma Qc_trunc_bounds (q : Qc) (lo hi : Z) :
  (lo <= 0)%Z -> (0 <= hi)%Z ->
  (inject_Z lo <= q)%Q -> (q <= inject_Z hi)%Q ->
  (lo <= Qc_trunc q <= hi)%Z.
Proof.
  intros Hlo Hhi H1 H2. unfold Qc_trunc.
  destruct (Qcltb q 0) eqn:E; qcbool.
  - split.
    + rewrite <- (Qceiling_Z lo). now apply Qceiling_resp_le.
    + apply Z.le_trans with 0%Z; [|exact Hhi].
      change 0%Z with (Qceiling 0). apply Qceiling_resp_le.
      now apply Qlt_le_weak.
  - split.
    + apply Z.le_trans with 0%Z; [exact Hlo|].
      change 0%Z with (Qfloor 0). now apply Qfloor_resp_le.
    + rewrite <- (Qfloor_Z hi). now apply Qfloor_resp_le.
Qed.

(** The clamped sample, and the 16-bit value made of it. *)
Lemma intSample_of_Fin (q : Qc) :
  exists s : Qc,
    (Q2Qc (inject_Z (-1)) <= s)%Qc /\ (s <= 1)%Qc
    /\ (s = q \/ (1 <= q)%Qc /\ s = 1%Qc
        \/ (q <= Q2Qc (inject_Z (-1)))%Qc /\ s = Q2Qc (inject_Z (-1)))
    /\ intSample_of (Fin q)
       = Fin (if Qcltb s 0 then s * Q2Qc (inject_Z 32768)
              else s * Q2Qc (inject_Z 32767))%Qc.
Proof.
  unfold intSample_of. cbv zeta.
  unfold Num.of_Z. rewrite min_Fin.
  change (Q2Qc (inject_Z 1)) with 1%Qc.
  destruct (Qcltb q 1) eqn:E1; rewrite max_Fin.
  - destruct (Qcltb (Q2Qc (inject_Z (-1))) q) eqn:E2.
    + exists q. qcbool.
      split; [now apply Qclt_le_weak|]. split; [now apply Qclt_le_weak|].
      split; [now left|].
      rewrite zero_Fin. cbn [Num.ltb Num.mul]. now destruct (Qcltb q 0).
    + exists (Q2Qc (inject_Z (-1))). qcbool.
      split; [apply Qcle_refl|]. split; [intros H; discriminate H|].
      split; [right; right; now split|]. reflexivity.
  - exists 1%Qc. qcbool.
    split; [intros H; discriminate H|]. split; [apply Qcle_refl|].
    split; [right; left; now split|]. reflexivity.
Qed.

Lemma intSample_range x :
  (-32768 <= to_integer (intSample_of x) <= 32767)%Z.
Proof.
  destruct x as [| | |q]; try (vm_compute; split; discriminate).
  destruct (intSample_of_Fin q) as (s & H1 & H2 & _ & ->).
  cbn [to_integer].
  destruct (Qcltb s 0) eqn:E; qcbool;
    (apply Qc_trunc_bounds; [lia|lia| |]); qc2q;
    change (inject_Z (-1)) with (-1 # 1)%Q in *;
    change (inject_Z 32768) with (32768 # 1)%Q;
    change (inject_Z 32767) with (32767 # 1)%Q;
    change (inject_Z (-32768)) with (-32768 # 1)%Q; lra.
Qed.

Lemma to_integer_of_Z z : to_integer (Num.of_Z z) = z.
Proof.
  unfold Num.of_Z. cbn [to_integer]. unfold Qc_trunc.
  assert (E : (this (Q2Qc (inject_Z z)) == inject_Z z)%Q)
    by (unfold Q2Qc; cbn [this]; apply Qred_correct).
  destruct (Qcltb (Q2Qc (inject_Z z)) 0).
  - rewrite (Qceiling_comp _ _ E). apply Qceiling_Z.
  - rewrite (Qfloor_comp _ _ E). apply Qfloor_Z.
Qed.

Lemma of_Z_mul_nat z k :
  (Num.of_Z z * Num.of_nat k)%num = Num.of_Z (z * Z.of_nat k).
Proof.
  unfold Num.of_nat, Num.of_Z. cbn [Num.mul]. f_equal. apply Qc_is_canon.
  unfold Qcmult, Q2Qc. cbn [this]. rewrite !Qred_correct.
  rewrite Qc_of_nat_this, inject_Z_mult. reflexivity.
Qed.

End WavFacts.

(** X23.  The encoder writes a 44-byte header and then the samples, frame
    after frame and channel after channel, two bytes each: what it returns
    is the header followed by the two bytes of every interleaved sample,
    and its length is 44 plus two bytes per sample and channel. *)
Theorem wav_is_header_then_interleaved_samples (audioBuffer : RecordedBuffer) :
  audioBufferToWav audioBuffer
  = wav_header (numberOfChannels audioBuffer) (rb_sampleRate audioBuffer)
               (rb_length audioBuffer * (numberOfChannels audioBuffer * 2))
    ++ flat_map (fun x => bytes16 (to_integer (intSample_of x)))
                (interleaved audioBuffer)
  /\ length (audioBufferToWav audioBuffer)
     = (44 + 2 * (rb_length audioBuffer * numberOfChannels audioBuffer))%nat.
Proof.
  split; [apply audioBufferToWav_closed|].
  rewrite audioBufferToWav_closed, length_app, length_wav_header.
  now rewrite length_flat_map_bytes16, length_interleaved.
Qed.

(** X24.  The header describes the data that follows it.  For a buffer at
    an integral sample rate, with 1 to 32767 channels and an output
    that fits in 32 bits, the fields read back from the output are: the
    RIFF chunk size, the length of the output minus 8; the data size, the
    length minus 44; PCM format 1 with 16 bits per sample; the number of
    channels; the sample rate; the block alignment, two bytes per channel;
    and the byte rate, their product. *)
Theorem wav_header_describes_the_data (audioBuffer : RecordedBuffer)
  (rate : Z) :
  rb_sampleRate audioBuffer = Num.of_Z rate ->
  (0 <= rate)%Z ->
  (0 < Z.of_nat (numberOfChannels audioBuffer) < 32768)%Z ->
  (rate * (2 * Z.of_nat (numberOfChannels audioBuffer)) < 4294967296)%Z ->
  (Z.of_nat (length (audioBufferToWav audioBuffer)) < 4294967296)%Z ->
  let wav := audioBufferToWav audioBuffer in
  getUint32 wav 4 = (Z.of_nat (length wav) - 8)%Z
  /\ getUint32 wav 40 = (Z.of_nat (length wav) - 44)%Z
  /\ getUint32 wav 16 = 16%Z
  /\ getUint16 wav 20 = 1%Z
  /\ getUint16 wav 34 = 16%Z
  /\ getUint16 wav 22 = Z.of_nat (numberOfChannels audioBuffer)
  /\ getUint32 wav 24 = rate
  /\ getUint16 wav 32 = (2 * Z.of_nat (numberOfChannels audioBuffer))%Z
  /\ getUint32 wav 28
     = (rate * (2 * Z.of_nat (numberOfChannels audioBuffer)))%Z.
Proof.
  intros Hrate Hr0 HC Hbyte Hlen. cbv zeta.
  destruct (wav_is_header_then_interleaved_samples audioBuffer) as [E L].
  rewrite L in *. rewrite E.
  set (C := numberOfChannels audioBuffer) in *.
  set (n := rb_length audioBuffer) in *.
  set (rest := flat_map _ _).
  unfold getUint32, getUint16, wav_header. rewrite Hrate.
  rewrite of_Z_mul_nat. rewrite !to_integer_of_Z.
  pose proof (uint32_round_trip (Z.of_nat (36 + n * (C * 2))) ltac:(nia)) as R1.
  pose proof (uint32_round_trip (Z.of_nat (n * (C * 2))) ltac:(nia)) as R2.
  pose proof (uint32_round_trip 16 ltac:(lia)) as R3.
  pose proof (uint16_round_trip 1 ltac:(lia)) as R4.
  pose proof (uint16_round_trip 16 ltac:(lia)) as R5.
  pose proof (uint16_round_trip (Z.of_nat C) ltac:(lia)) as R6.
  pose proof (uint32_round_trip rate ltac:(nia)) as R7.
  pose proof (uint16_round_trip (Z.of_nat (C * 2)) ltac:(lia)) as R8.
  pose proof (uint32_round_trip (rate * Z.of_nat (C * 2)) ltac:(nia)) as R9.
  cbn [bytes32 bytes16 charCodes Wav.RIFF Wav.WAVE Wav.fmt Wav.data
       String.list_ascii_of_string map app nth Nat.add] in *.
  rewrite R1, R2, R3, R4, R5, R6, R7, R8, R9.
  repeat split; nia.
Qed.

Lemma wav_header_describes_the_data_witness :
  let audioBuffer :=
    mkRecordedBuffer 2 (Num.of_Z 8000) 3
      (fun ch => [Num.of_Q (1 # 2); Num.of_Z (-2); Num.of_nat ch]) in
  let wav := audioBufferToWav audioBuffer in
  getUint32 wav 4 = (Z.of_nat (length wav) - 8)%Z
  /\ getUint32 wav 40 = (Z.of_nat (length wav) - 44)%Z
  /\ getUint32 wav 16 = 16%Z
  /\ getUint16 wav 20 = 1%Z
  /\ getUint16 wav 34 = 16%Z
  /\ getUint16 wav 22 = Z.of_nat (numberOfChannels audioBuffer)
  /\ getUint32 wav 24 = 8000%Z
  /\ getUint16 wav 32 = (2 * Z.of_nat (numberOfChannels audioBuffer))%Z
  /\ getUint32 wav 28
     = (8000 * (2 * Z.of_nat (numberOfChannels audioBuffer)))%Z.
Proof.
  apply (wav_header_describes_the_data
           (mkRecordedBuffer 2 (Num.of_Z 8000) 3
              (fun ch => [Num.of_Q (1 # 2); Num.of_Z (-2); Num.of_nat ch]))
           8000%Z).
  - reflexivity.
  - lia.
  - cbn. lia.
  - vm_compute. reflexivity.
  - vm_compute. reflexivity.
Defined.

(** X25.  Every sample can be read back from the output: the signed
    16-bit little-endian number at byte [44 + 2 * (i * channels + ch)] is
    the value the encoder computed for sample [i] of channel [ch], the
    clamped sample scaled and truncated, and it lies between -32768 and
    32767, so that storing it on 16 bits never wraps around. *)
Theorem wav_samples_read_back (audioBuffer : RecordedBuffer) (i ch : nat) :
  (i < rb_length audioBuffer)%nat ->
  (ch < numberOfChannels audioBuffer)%nat ->
  let stored :=
    to_integer (intSample_of (Num.get (getChannelData audioBuffer ch) i)) in
  getInt16 (audioBufferToWav audioBuffer)
           (44 + 2 * (i * numberOfChannels audioBuffer + ch))
  = stored
  /\ (-32768 <= stored <= 32767)%Z.
Proof.
  intros Hi Hch. cbv zeta.
  pose proof (intSample_range (Num.get (getChannelData audioBuffer ch) i))
    as Hrange.
  split; [|exact Hrange].
  rewrite audioBufferToWav_closed.
  set (hd := wav_header _ _ _).
  set (k := (i * numberOfChannels audioBuffer + ch)%nat).
  assert (Hk : (k < length (interleaved audioBuffer))%nat).
  { rewrite length_interleaved. unfold k. nia. }
  destruct (nth_flat_map_bytes16
              (fun x => to_integer (intSample_of x))
              (interleaved audioBuffer) k Hk) as [B0 B1].
  unfold k in B0, B1 at 2. rewrite nth_interleaved in B0, B1 by assumption.
  fold k in B0, B1.
  unfold getInt16, getUint16. cbv zeta.
  change 44%nat with (length hd).
  rewrite app_nth2_plus.
  replace (length hd + 2 * k + 1)%nat with (length hd + (2 * k + 1))%nat
    by lia.
  rewrite app_nth2_plus, B0, B1.
  exact (int16_round_trip _ Hrange).
Qed.

Lemma wav_samples_read_back_witness :
  let audioBuffer :=
    mkRecordedBuffer 2 (Num.of_Z 8000) 3
      (fun ch => [Num.of_Q (1 # 2); Num.of_Z (-2); Num.of_nat ch]) in
  let stored :=
    to_integer (intSample_of (Num.get (getChannelData audioBuffer 1) 1)) in
  getInt16 (audioBufferToWav audioBuffer)
           (44 + 2 * (1 * numberOfChannels audioBuffer + 1))
  = stored
  /\ (-32768 <= stored <= 32767)%Z.
Proof.
  apply (wav_samples_read_back
           (mkRecordedBuffer 2 (Num.of_Z 8000) 3
              (fun ch => [Num.of_Q (1 # 2); Num.of_Z (-2); Num.of_nat ch]))
           1 1).
  - cbn. lia.
  - cbn. lia.
Defined.

(** X26.  Samples outside [[-1, 1]] saturate and a sample that is not a
    number is stored as silence: the value stored for a sample of 1 or
    more, [Infinity] included, is 32767, for a sample of -1 or less it is
    -32768, and for [NaN] it is 0. *)
Theorem wav_samples_saturate (x : num) :
  ((Num.of_Z 1 <=? x) = true -> to_integer (intSample_of x) = 32767%Z)
  /\ ((x <=? Num.of_Z (-1)) = true
      -> to_integer (intSample_of x) = (-32768)%Z)
  /\ (x = NaN -> to_integer (intSample_of x) = 0%Z).
Proof.
  split; [|split].
  - destruct x as [| | |q]; try discriminate; [reflexivity|].
    intros H. apply leb_Fin in H.
    destruct (intSample_of_Fin q) as (s & H1 & H2 & Hs & ->).
    assert (E : s = 1%Qc).
    { destruct Hs as [->|[[_ ->]|[Hq ->]]]; [|reflexivity|].
      - now apply Qcle_antisym.
      - exfalso. clear - H Hq. unfold Num.of_Z in *.
        change (Q2Qc (inject_Z 1)) with 1%Qc in H. qc2q.
        change (inject_Z (-1)) with (-1 # 1)%Q in Hq. lra. }
    subst s. reflexivity.
  - destruct x as [| | |q]; try discriminate; [reflexivity|].
    intros H. apply leb_Fin in H.
    destruct (intSample_of_Fin q) as (s & H1 & H2 & Hs & ->).
    assert (E : s = Q2Qc (inject_Z (-1))).
    { destruct Hs as [->|[[Hq ->]|[_ ->]]]; [| |reflexivity].
      - now apply Qcle_antisym.
      - exfalso. clear - H Hq. unfold Num.of_Z in *. qc2q.
        change (inject_Z (-1)) with (-1 # 1)%Q in H. lra. }
    subst s. reflexivity.
  - intros ->. reflexivity.
Qed.

(** ** Time warping *)

Section WarpingFacts.

Local Open Scope Qc_scope.

Lemma held_app b1 b2 : held (b1 ++ b2) = held b1 ++ held b2.
Proof. unfold held. apply flat_map_app. Qed.

Lemma held_finite blocks :
  Forall Num.finite (map fst blocks) -> Forall Num.finite (held blocks).
Proof.
  intros H. unfold held. apply Forall_flat_map.
  apply Forall_forall. intros p Hp.
  apply Forall_forall. intros x Hx. apply repeat_spec in Hx. subst x.
  apply (proj1 (Forall_forall _ _) H). now apply in_map.
Qed.

Lemma length_held_ge blocks : (length blocks <= length (held blocks))%nat.
Proof.
  induction blocks as [|[a k] t IH]; [reflexivity|].
  change (held ((a, k) :: t)) with (repeat a (S k) ++ held t).
  rewrite length_app, repeat_length. cbn [length]. lia.
Qed.

(** A held sequence aligns with the sequence of its values at no cost,
    whatever follows either of them. *)
Lemma dtw_cost_held blocks :
  forall s1 s2,
    Forall Num.finite (held blocks ++ s1) ->
    Forall Num.finite (map fst blocks ++ s2) ->
    dtw_cost (held blocks ++ s1) (map fst blocks ++ s2)
             (length (held blocks)) (length blocks)
    = Num.zero.
Proof.
  induction blocks as [|[a k] pre IH] using rev_ind; intros s1 s2 F1 F2;
    [reflexivity|].
  rewrite held_app, map_app, !length_app in *.
  change (held [(a, k)]) with (repeat a (S k) ++ []) in *.
  rewrite app_nil_r in *. cbn [map fst length] in *.
  rewrite <- !app_assoc in *. rewrite repeat_length.
  set (ns1 := held pre ++ repeat a (S k) ++ s1) in *.
  set (ns2 := map fst pre ++ [a] ++ s2) in *.
  assert (Fa : Num.finite a).
  { apply (proj1 (Forall_forall _ _) F2). unfold ns2.
    apply in_or_app. right. now left. }
  assert (L1 : (length (held pre) + S k <= length ns1)%nat).
  { unfold ns1. rewrite !length_app, repeat_length. lia. }
  assert (L2 : (length pre + 1 <= length ns2)%nat).
  { unfold ns2. rewrite !length_app, length_map. cbn [length]. lia. }
  assert (N : forall i j, (i <= length ns1)%nat -> (j <= length ns2)%nat ->
                          nonneg (dtw_cost ns1 ns2 i j)).
  { intros. now apply dtw_cost_nonneg. }
  assert (G2 : Num.get ns2 (length pre) = a).
  { unfold ns2, Num.get. rewrite app_nth2 by (rewrite length_map; lia).
    rewrite length_map, Nat.sub_diag. reflexivity. }
  assert (G1 : forall j, (j < S k)%nat ->
                         Num.get ns1 (length (held pre) + j) = a).
  { intros j Hj. unfold ns1, Num.get. rewrite app_nth2 by lia.
    replace (length (held pre) + j - length (held pre))%nat with j by lia.
    rewrite app_nth1 by (rewrite repeat_length; lia).
    apply nth_repeat_lt. lia. }
  assert (D0 : dtw_cost ns1 ns2 (length (held pre)) (length pre) = Num.zero).
  { unfold ns1, ns2. apply IH; assumption. }
  assert (C : forall j, (j < S k)%nat ->
              dtw_cost ns1 ns2 (length (held pre) + S j) (length pre + 1)
              = Num.zero).
  { induction j as [|j IHj]; intros Hj.
    - replace (length (held pre) + 1)%nat with (S (length (held pre)))
        by lia.
      replace (length pre + 1)%nat with (S (length pre)) by lia.
      rewrite dtw_cost_step.
      replace (length (held pre)) with (length (held pre) + 0)%nat at 1
        by lia.
      rewrite G1, G2 by lia. rewrite abs_sub_self by exact Fa.
      rewrite D0. rewrite min3_zero; [apply add_zero_zero| |]; apply N; lia.
    - replace (length (held pre) + S (S j))%nat
        with (S (length (held pre) + S j)) by lia.
      replace (length pre + 1)%nat with (S (length pre)) by lia.
      rewrite dtw_cost_step.
      rewrite G1, G2 by lia. rewrite abs_sub_self by exact Fa.
      replace (S (length pre)) with (length pre + 1)%nat by lia.
      rewrite IHj by lia.
      rewrite min3_zero_l; [apply add_zero_zero| |]; apply N; lia. }
  apply C. lia.
Qed.

(** Two finite arrays with the same elements have the same extrema. *)
Lemma min_list_same_elements l1 l2 :
  Forall Num.finite l1 -> l1 <> [] ->
  (forall x, In x l1 <-> In x l2) ->
  Num.min_list l1 = Num.min_list l2.
Proof.
  intros F1 N1 H.
  assert (F2 : Forall Num.finite l2).
  { apply Forall_forall. intros x Hx. apply H in Hx.
    exact (proj1 (Forall_forall _ _) F1 x Hx). }
  assert (N2 : l2 <> []).
  { destruct l1 as [|h t]; [congruence|].
    intros ->. apply (H h). now left. }
  destruct (min_list_spec l1 F1 N1) as (m1 & -> & A1 & I1).
  destruct (min_list_spec l2 F2 N2) as (m2 & -> & A2 & I2).
  f_equal. apply Qcle_antisym.
  - apply A1. now apply H.
  - apply A2. now apply H.
Qed.

Lemma max_list_same_elements l1 l2 :
  Forall Num.finite l1 -> l1 <> [] ->
  (forall x, In x l1 <-> In x l2) ->
  Num.max_list l1 = Num.max_list l2.
Proof.
  intros F1 N1 H.
  assert (F2 : Forall Num.finite l2).
  { apply Forall_forall. intros x Hx. apply H in Hx.
    exact (proj1 (Forall_forall _ _) F1 x Hx). }
  assert (N2 : l2 <> []).
  { destruct l1 as [|h t]; [congruence|].
    intros ->. apply (H h). now left. }
  destruct (max_list_spec l1 F1 N1) as (m1 & -> & A1 & I1).
  destruct (max_list_spec l2 F2 N2) as (m2 & -> & A2 & I2).
  f_equal. apply Qcle_antisym.
  - apply A2. now apply H.
  - apply A1. now apply H.
Qed.

Lemma In_held blocks x : In x (held blocks) <-> In x (map fst blocks).
Proof.
  unfold held. rewrite in_flat_map, in_map_iff. split.
  - intros ([a k] & Hin & Hx). apply repeat_spec in Hx.
    exists (a, k). split; [now symmetry|exact Hin].
  - intros ([a k] & Hx & Hin). exists (a, k). split; [exact Hin|].
    cbn [fst snd] in *. subst x. now left.
Qed.

Lemma map_held (f : num -> num) blocks :
  map f (held blocks) = held (map (fun p => (f (fst p), snd p)) blocks).
Proof.
  induction blocks as [|[a k] t IH]; [reflexivity|].
  change (held ((a, k) :: t)) with (repeat a (S k) ++ held t).
  rewrite map_app, IH, map_repeat. reflexivity.
Qed.

(** Normalising a held sequence holds the normalised values. *)
Lemma normalize_held blocks :
  Forall Num.finite (map fst blocks) -> blocks <> [] ->
  exists blocks',
    normalize (held blocks) = held blocks'
    /\ normalize (map fst blocks) = map fst blocks'
    /\ length blocks' = length blocks.
Proof.
  intros F Hne.
  assert (Nh : held blocks <> []).
  { intros E. destruct blocks as [|[a k] t]; [congruence|discriminate E]. }
  pose proof (held_finite blocks F) as Fh.
  unfold normalize.
  rewrite (min_list_same_elements _ _ Fh Nh (In_held blocks)).
  rewrite (max_list_same_elements _ _ Fh Nh (In_held blocks)).
  set (f := fun v : num =>
              ((v - Num.min_list (map fst blocks))
               / Num.or_else (Num.max_list (map fst blocks)
                              - Num.min_list (map fst blocks)) Num.one)%num).
  exists (map (fun p => (f (fst p), snd p)) blocks).
  split; [apply map_held|]. split.
  - rewrite !map_map. reflexivity.
  - apply length_map.
Qed.

End WarpingFacts.

(** X27.  The alignment forgives tempo: a finite sequence in which values
    are held for any number of extra frames is fully similar to the
    sequence of its values, as long as it has no more than 100 points (so
    that neither sequence is resampled). *)
Theorem held_sequence_is_fully_similar (blocks : list (num * nat)) :
  Forall Num.finite (map fst blocks) -> blocks <> [] ->
  (length (held blocks) <= 100)%nat ->
  dtwSimilarity (held blocks) (map fst blocks) = Num.one.
Proof.
  intros F Hne Hlen.
  assert (Nh : held blocks <> []).
  { intros E. destruct blocks as [|[a k] t]; [congruence|discriminate E]. }
  assert (Nm : map fst blocks <> []).
  { intros E. apply Hne. now apply map_eq_nil in E. }
  rewrite dtwSimilarity_nonempty by assumption.
  unfold similarity_of.
  pose proof (length_held_ge blocks) as Hge.
  rewrite length_map.
  rewrite (Nat.min_l (length (held blocks)) 100) by lia.
  rewrite (Nat.min_l (length blocks) 100) by lia.
  assert (R1 : resample (held blocks) (length (held blocks)) = held blocks).
  { unfold resample. now rewrite Nat.eqb_refl. }
  assert (R2 : resample (map fst blocks) (length blocks) = map fst blocks).
  { unfold resample. now rewrite length_map, Nat.eqb_refl. }
  rewrite R1, R2.
  destruct (normalize_held blocks F Hne) as (blocks' & E1 & E2 & L).
  assert (F' : Forall Num.finite (map fst blocks')).
  { rewrite <- E2. now apply normalize_finite. }
  pose proof (dtw_cost_held blocks' [] []) as D.
  rewrite !app_nil_r in D. rewrite E1, E2.
  assert (Lh : length (held blocks') = length (held blocks)).
  { now rewrite <- E1, length_normalize. }
  rewrite <- Lh, <- L, D; [|now apply held_finite|exact F'].
  rewrite zero_div_nat
    by (rewrite L; destruct blocks; [congruence|cbn [length]; lia]).
  apply num_eqb_eq. reflexivity.
Qed.

Lemma held_sequence_is_fully_similar_witness :
  dtwSimilarity
    (held [(Num.of_Z 100, 2%nat); (Num.of_Z 180, 0%nat);
           (Num.of_Z 140, 1%nat)])
    (map fst [(Num.of_Z 100, 2%nat); (Num.of_Z 180, 0%nat);
              (Num.of_Z 140, 1%nat)])
  = Num.one.
Proof.
  apply (held_sequence_is_fully_similar
           [(Num.of_Z 100, 2%nat); (Num.of_Z 180, 0%nat);
            (Num.of_Z 140, 1%nat)]).
  - repeat constructor.
  - discriminate.
  - cbn. lia.
Defined.

(** ** Durations on screen *)

Section DurationFacts.

Lemma Qfloor_unique (x : Q) (z : Z) :
  (inject_Z z <= x)%Q -> (x < inject_Z (z + 1))%Q -> Qfloor x = z.
Proof.
  intros H1 H2.
  assert (A : (z <= Qfloor x)%Z).
  { rewrite <- (Qfloor_Z z). now apply Qfloor_resp_le. }
  assert (B : (Qfloor x < z + 1)%Z).
  { rewrite Zlt_Qlt. eapply Qle_lt_trans; [apply Qfloor_le|exact H2]. }
  lia.
Qed.

Lemma Qfloor_of_Z z : Qfloor (Q2Qc (inject_Z z)) = z.
Proof.
  assert (E : (this (Q2Qc (inject_Z z)) == inject_Z z)%Q)
    by (unfold Q2Qc; cbn [this]; apply Qred_correct).
  rewrite (Qfloor_comp _ _ E). apply Qfloor_Z.
Qed.

(** Whole minutes and remaining seconds of a duration that is not
    negative. *)
Lemma minutes_and_seconds (q : Qc) :
  (0 <= q)%Qc ->
  Math_floor (Fin q / Num.of_Z 60) = Num.of_Z (Qfloor q / 60)
  /\ Math_floor (Num_rem (Fin q) (Num.of_Z 60))
     = Num.of_Z (Qfloor q mod 60).
Proof.
  intros Hq.
  set (k := (Qfloor q / 60)%Z).
  pose proof (Qfloor_le q) as F1.
  pose proof (Qlt_floor q) as F2.
  assert (F0 : (0 <= Qfloor q)%Z).
  { change 0%Z with (Qfloor 0). apply Qfloor_resp_le. exact Hq. }
  assert (K1 : (60 * k <= Qfloor q)%Z /\ (Qfloor q < 60 * (k + 1))%Z).
  { unfold k. Z.div_mod_to_equations. lia. }
  assert (Hk : (0 <= k)%Z) by (unfold k; Z.div_mod_to_equations; lia).
  assert (B1 : (inject_Z (60 * k) <= q)%Q).
  { eapply Qle_trans; [|exact F1]. rewrite <- Zle_Qle. lia. }
  assert (B2 : (q < inject_Z (60 * (k + 1)))%Q).
  { eapply Qlt_le_trans; [exact F2|]. rewrite <- Zle_Qle. lia. }
  rewrite inject_Z_mult in B1, B2. rewrite inject_Z_plus in B2, F2.
  change (inject_Z 60) with (60 # 1)%Q in B1, B2.
  change (inject_Z 1) with 1%Q in B2.
  assert (D : Qfloor (q / Q2Qc (inject_Z 60))%Qc = k).
  { apply Qfloor_unique; rewrite ?inject_Z_plus; qc2q;
      change (inject_Z 60) with (60 # 1)%Q;
      change (inject_Z 1) with 1%Q; change (/ (60 # 1))%Q with (1 # 60)%Q;
      lra. }
  assert (N60 : Q2Qc (inject_Z 60) <> 0%Qc) by (intros E; discriminate E).
  split.
  - unfold Num.of_Z at 1. rewrite div_Fin by exact N60.
    cbn [Math_floor]. now rewrite D.
  - unfold Num.of_Z at 1. cbn [Num_rem].
    replace (Qceqb (Q2Qc (inject_Z 60)) 0) with false by reflexivity.
    cbn [Math_floor]. f_equal.
    assert (T : Qc_trunc (q / Q2Qc (inject_Z 60)) = k).
    { unfold Qc_trunc.
      destruct (Qcltb (q / Q2Qc (inject_Z 60)) 0) eqn:E; [|exact D].
      qcbool. exfalso. revert E. qc2q.
      change (inject_Z 60) with (60 # 1)%Q.
      change (/ (60 # 1))%Q with (1 # 60)%Q. lra. }
    rewrite T. rewrite (Z.mod_eq (Qfloor q) 60) by lia. fold k.
    apply Qfloor_unique.
    + qc2q. change (inject_Z 60) with (60 # 1)%Q.
      replace (Qfloor q - 60 * k)%Z with (Qfloor q + - (60 * k))%Z by lia.
      rewrite inject_Z_plus, inject_Z_opp, inject_Z_mult.
      change (inject_Z 60) with (60 # 1)%Q. lra.
    + qc2q. change (inject_Z 60) with (60 # 1)%Q.
      replace (Qfloor q - 60 * k + 1)%Z with (Qfloor q + 1 + - (60 * k))%Z
        by lia.
      rewrite !inject_Z_plus, inject_Z_opp, inject_Z_mult.
      change (inject_Z 60) with (60 # 1)%Q.
      change (inject_Z 1) with 1%Q. lra.
Qed.

Lemma toString_of_Z z :
  (0 <= z < 1000000000000000000000)%Z ->
  toString (Num.of_Z z) = Some (decimal z).
Proof.
  intros Hz. unfold Num.of_Z. cbn [toString]. cbv zeta.
  rewrite Qfloor_of_Z, Qceqb_refl.
  replace (Z.abs z <? 1000000000000000000000)%Z with true
    by (symmetry; apply Z.ltb_lt; lia).
  replace (z <? 0)%Z with false by (symmetry; apply Z.ltb_ge; lia).
  reflexivity.
Qed.

(** A number of seconds under 60 is padded to two digits. *)
Lemma padStart_seconds s :
  (0 <= s < 60)%Z ->
  padStart (decimal s) 2 Text.zero
  = String.String (digit (s / 10))
      (String.String (digit (s mod 10)) String.EmptyString).
Proof.
  intros Hs. unfold decimal. cbn [decimal_digits].
  destruct (Z.ltb_spec s 10) as [H|H].
  - replace (s / 10)%Z with 0%Z by (Z.div_mod_to_equations; lia).
    replace (s mod 10)%Z with s by (Z.div_mod_to_equations; lia).
    reflexivity.
  - replace (s / 10 <? 10)%Z with true
      by (symmetry; apply Z.ltb_lt; Z.div_mod_to_equations; lia).
    reflexivity.
Qed.

End DurationFacts.

(** X30.  Durations are shown as minutes and seconds: for a duration that
    is not negative and under [10^15] seconds, [formatDuration] gives
    the whole minutes, a colon, and the remaining whole seconds on exactly
    two digits, where minutes and seconds are the quotient and the
    remainder by 60 of the duration rounded down. *)
Theorem formatDuration_is_minutes_and_two_digit_seconds (q : Qc) :
  (0 <= q)%Qc ->
  (Qfloor q < 1000000000000000)%Z ->
  formatDuration (Fin q)
  = Some (String.append
            (decimal (Qfloor q / 60))
            (String.append Text.colon
               (String.String (digit (Qfloor q mod 60 / 10))
                  (String.String (digit ((Qfloor q mod 60) mod 10))
                     String.EmptyString)))).
Proof.
  intros Hq Hbig. unfold formatDuration. cbv zeta.
  destruct (minutes_and_seconds q Hq) as [-> ->].
  assert (F0 : (0 <= Qfloor q)%Z).
  { change 0%Z with (Qfloor 0). apply Qfloor_resp_le. exact Hq. }
  rewrite !toString_of_Z by (Z.div_mod_to_equations; lia).
  rewrite padStart_seconds by (Z.div_mod_to_equations; lia).
  reflexivity.
Qed.

Lemma formatDuration_is_minutes_and_two_digit_seconds_witness :
  formatDuration (Fin (Q2Qc (1255 # 10)))
  = Some (String.append
            (decimal (Qfloor (Q2Qc (1255 # 10)) / 60))
            (String.append Text.colon
               (String.String
                  (digit (Qfloor (Q2Qc (1255 # 10)) mod 60 / 10))
                  (String.String
                     (digit ((Qfloor (Q2Qc (1255 # 10)) mod 60) mod 10))
                     String.EmptyString)))).
Proof.
  apply (formatDuration_is_minutes_and_two_digit_seconds (Q2Qc (1255 # 10))).
  - intros H. discriminate H.
  - reflexivity.
Defined.
